(** * Nostipedia key engine: secp256k1 arithmetic and the bech32 key codec

    A shallow embedding of [src/crypto.js] (the [Crypto] and [Bech32]
    objects, and of the [AsciiDoc] object its block parser [parse] and
    [normalizeWikilink]) and of [createEvent] of [src/nostr.js], together
    with the properties stated for them.  The group law of the curve is
    proved over a field and carried to [pointAdd] through the residues of
    the coordinates modulo [P].

    JavaScript numbers that the code treats as 32-bit integers (the operands
    of [<<], [>>], [&], [|], [^]) are integers of [Z] with the [ToInt32]
    wrap-around written out; [BigInt] values are unbounded integers of [Z];
    strings are lists of UTF-16 code units; typed arrays and arrays of
    numbers are lists. *)

From Stdlib Require Import ZArith Lia Bool String Ascii List Znumtheory.
From Stdlib Require Import Field Zmod.ZmodDef Zmod.ZmodBase Zmod.ZmodInv.
From Bignums Require Import BigZ.
Import ListNotations.
Open Scope Z_scope.

(** ** Outcomes of a call *)

(** A call returns a value, throws an [Error] with a message, or does not
    terminate. *)
Inductive outcome (A : Type) : Type :=
| Ok (a : A)
| Throw (msg : string)
| Hang.
Arguments Ok {A} a.
Arguments Throw {A} msg.
Arguments Hang {A}.

Definition bind {A B} (o : outcome A) (k : A -> outcome B) : outcome B :=
  match o with
  | Ok a => k a
  | Throw m => Throw m
  | Hang => Hang
  end.

Notation "x <- o ;; k" := (bind o (fun x => k))
  (at level 61, o at next level, right associativity).
Notation "' pat <- o ;; k" := (bind o (fun x => match x with pat => k end))
  (at level 61, pat pattern, o at next level, right associativity).

(** ** JavaScript primitives *)

Module JS.

(** [ToInt32]: reduction modulo [2^32] into the signed range. *)
Definition toInt32 (x : Z) : Z := (x + 2 ^ 31) mod 2 ^ 32 - 2 ^ 31.

(** [a << b]: both operands are converted, the shift count is taken
    modulo 32 and the result wraps. *)
Definition shl (a b : Z) : Z := toInt32 (Z.shiftl (toInt32 a) (b mod 32)).

(** [a >> b]: sign-propagating right shift. *)
Definition sar (a b : Z) : Z := Z.shiftr (toInt32 a) (b mod 32).

(** [a & b], [a | b], [a ^ b] on the two's complement of the operands;
    [Z]'s bitwise operations are the two's complement ones, and they keep
    the signed 32-bit range. *)
Definition band (a b : Z) : Z := Z.land (toInt32 a) (toInt32 b).
Definition bor (a b : Z) : Z := Z.lor (toInt32 a) (toInt32 b).
Definition bxor (a b : Z) : Z := Z.lxor (toInt32 a) (toInt32 b).

(** A string is the list of its UTF-16 code units. *)
Definition jsstring := list Z.

Definition code (c : ascii) : Z := Z.of_nat (nat_of_ascii c).

Fixpoint lit (s : string) : jsstring :=
  match s with
  | EmptyString => []
  | String c r => code c :: lit r
  end.

(** [s[d]] for a number [d]: the one-unit string at an index inside the
    string, [undefined] anywhere else. *)
Definition index (s : jsstring) (d : Z) : option Z :=
  if (0 <=? d) && (d <? Z.of_nat (length s)) then nth_error s (Z.to_nat d)
  else None.

(** String concatenation [result += x] where [x] may be [undefined]. *)
Definition appendIndexed (result : jsstring) (x : option Z) : jsstring :=
  result ++ match x with Some c => [c] | None => lit "undefined" end.

(** [s.indexOf(c)] for a one-unit string [c]: first position or [-1]. *)
Fixpoint indexOfFrom (s : jsstring) (c : Z) (i : Z) : Z :=
  match s with
  | [] => -1
  | x :: r => if x =? c then i else indexOfFrom r c (i + 1)
  end.
Definition indexOf (s : jsstring) (c : Z) : Z := indexOfFrom s c 0.

(** [s.lastIndexOf(c)] for a one-unit string [c]: last position or [-1]. *)
Fixpoint lastIndexOfFrom (s : jsstring) (c : Z) (i found : Z) : Z :=
  match s with
  | [] => found
  | x :: r => lastIndexOfFrom r c (i + 1) (if x =? c then i else found)
  end.
Definition lastIndexOf (s : jsstring) (c : Z) : Z := lastIndexOfFrom s c 0 (-1).

(** [s.substring(0, pos)] and the units from [pos] on, for [0 <= pos]. *)
Definition substring0 (s : jsstring) (pos : Z) : jsstring := firstn (Z.to_nat pos) s.
Definition unitsFrom (s : jsstring) (pos : Z) : jsstring := skipn (Z.to_nat pos) s.

(** [a.slice(0, -k)]: all but the last [k] elements. *)
Definition sliceDropLast {A} (a : list A) (k : nat) : list A :=
  firstn (length a - k) a.

(** [s.padStart(n, "0")]. *)
Definition padStart (n : nat) (s : jsstring) : jsstring :=
  repeat 48 (n - length s) ++ s.

(** The value of a hexadecimal digit, upper or lower case. *)
Definition hexDigitValue (c : Z) : option Z :=
  if (48 <=? c) && (c <=? 57) then Some (c - 48)
  else if (97 <=? c) && (c <=? 102) then Some (c - 87)
  else if (65 <=? c) && (c <=? 70) then Some (c - 55)
  else None.

(** The lower-case digit [toString(16)] writes for [0 <= d < 16]. *)
Definition hexDigit (d : Z) : Z := if d <? 10 then 48 + d else 87 + d.

(** The digits of [n >= 0] in radix 16, most significant first. *)
Fixpoint digits16 (fuel : nat) (n : Z) (acc : jsstring) : jsstring :=
  match fuel with
  | O => acc
  | S fuel' =>
      let acc' := hexDigit (n mod 16) :: acc in
      if n <? 16 then acc' else digits16 fuel' (n / 16) acc'
  end.

(** [n.toString(16)] for an integer number or a BigInt. *)
Definition toString16 (n : Z) : jsstring :=
  if n <? 0 then 45 :: digits16 (S (Z.to_nat (Z.log2 (- n)))) (- n) []
  else digits16 (S (Z.to_nat (Z.log2 n))) n [].

(** White space and line terminators, as [parseInt] and the string to
    BigInt conversion skip them. *)
Definition isWhiteSpace (c : Z) : bool :=
  (c =? 9) || (c =? 10) || (c =? 11) || (c =? 12) || (c =? 13) || (c =? 32)
  || (c =? 160) || (c =? 5760) || ((8192 <=? c) && (c <=? 8202))
  || (c =? 8232) || (c =? 8233) || (c =? 8239) || (c =? 8287)
  || (c =? 12288) || (c =? 65279).

Fixpoint trimStart (s : jsstring) : jsstring :=
  match s with
  | c :: r => if isWhiteSpace c then trimStart r else s
  | [] => []
  end.

Definition trimEnd (s : jsstring) : jsstring := rev (trimStart (rev s)).

(** The value of the longest prefix of hexadecimal digits; [None] when the
    prefix is empty. *)
Fixpoint hexPrefix (s : jsstring) (acc : Z) (seen : bool) : option Z :=
  match s with
  | c :: r =>
      match hexDigitValue c with
      | Some d => hexPrefix r (acc * 16 + d) true
      | None => if seen then Some acc else None
      end
  | [] => if seen then Some acc else None
  end.

(** [parseInt(s, 16)]; [None] is [NaN].  The result is exact for the
    strings of at most two units the code passes. *)
Definition parseInt16 (s : jsstring) : option Z :=
  let s := trimStart s in
  let '(sign, s) :=
    match s with
    | 45 :: r => (-1, r)
    | 43 :: r => (1, r)
    | _ => (1, s)
    end in
  let s :=
    match s with
    | 48 :: 120 :: r => r
    | 48 :: 88 :: r => r
    | _ => s
    end in
  option_map (Z.mul sign) (hexPrefix s 0 false).

(** The value of a string made of hexadecimal digits only. *)
Fixpoint hexAll (s : jsstring) (acc : Z) : option Z :=
  match s with
  | c :: r =>
      match hexDigitValue c with
      | Some d => hexAll r (acc * 16 + d)
      | None => None
      end
  | [] => Some acc
  end.

(** [BigInt("0x" + s)]: surrounding white space is trimmed (none can
    precede the prefix), and what follows the prefix must be one or more
    hexadecimal digits; anything else is a [SyntaxError]. *)
Definition bigIntOfHex (s : jsstring) : outcome Z :=
  match trimEnd s with
  | [] => Throw "SyntaxError"
  | t => match hexAll t 0 with
         | Some v => Ok v
         | None => Throw "SyntaxError"
         end
  end.

(** Storing a number into a [Uint8Array]: [NaN] becomes 0, an integer is
    reduced modulo 256. *)
Definition toUint8 (v : option Z) : Z :=
  match v with
  | Some n => n mod 256
  | None => 0
  end.

End JS.

(** ** The [Crypto] object: secp256k1 *)

Module Crypto.
Import JS.

(** Curve parameters. *)
Definition P : Z := 0xFFFFFFFFFFFFFFFFFFFFFFFFFFFFFFFFFFFFFFFFFFFFFFFFFFFFFFFEFFFFFC2F.
Definition N : Z := 0xFFFFFFFFFFFFFFFFFFFFFFFFFFFFFFFEBAAEDCE6AF48A03BBFD25E8CD0364141.
Definition Gx : Z := 0x79BE667EF9DCBBAC55A06295CE870B07029BFCDB2DCE28D959F2815B16F81798.
Definition Gy : Z := 0x483ADA7726A3C4655DA4FBFC0E1108A8FD17B448A68554199C47D08FFB10D4B8.

(** [mod(a, b)]: BigInt [%] is the truncated remainder, [Z.rem].  The
    program only passes [P] and [N] as [b]; a zero [b], on which [%]
    raises, is outside this model. *)
Definition mod_ (a b : Z) : Z :=
  let result := Z.rem a b in
  if result >=? 0 then result else b + result.

(** The [while (low > 1n)] loop of [modInverse]; BigInt [/] truncates,
    [Z.quot].  [None]: the fuel ran out. *)
Fixpoint inverseLoop (fuel : nat) (lm hm low high : Z) : option Z :=
  if low >? 1 then
    match fuel with
    | O => None
    | S fuel' =>
        let r := Z.quot high low in
        let nm := hm - lm * r in
        let nw := high - low * r in
        inverseLoop fuel' nm lm nw low
    end
  else Some lm.

(** [modInverse(a, m)].  The product [low * high] at least halves at each
    turn of the loop, which bounds the number of turns for a positive [m]
    (lemma [inverseLoop_terminates]); the last branch is never taken then. *)
Definition modInverse (a m : Z) : Z :=
  let a := mod_ a m in
  if a =? 0 then 0
  else
    let low := mod_ a m in
    match inverseLoop (S (Z.to_nat (Z.log2 (low * m)))) 1 0 low m with
    | Some lm => mod_ lm m
    | None => 0
    end.

(** A point is [null] or a pair [[x, y]]. *)
Definition point := option (Z * Z).

Definition pointAdd (p1 p2 : point) : point :=
  match p1, p2 with
  | None, _ => p2
  | _, None => p1
  | Some (x1, y1), Some (x2, y2) =>
      if (x1 =? x2) && (y1 =? y2) then
        let s := mod_ (mod_ (3 * x1 * x1) P * modInverse (2 * y1) P) P in
        let x3 := mod_ (s * s - 2 * x1) P in
        let y3 := mod_ (s * (x1 - x3) - y1) P in
        Some (x3, y3)
      else if x1 =? x2 then None
      else
        let s := mod_ (mod_ (y2 - y1) P * modInverse (mod_ (x2 - x1) P) P) P in
        let x3 := mod_ (s * s - x1 - x2) P in
        let y3 := mod_ (s * (x1 - x3) - y1) P in
        Some (x3, y3)
  end.

(** The [while (k > 0n)] loop of [pointMultiply]; [None]: the fuel ran
    out. *)
Fixpoint multiplyLoop (fuel : nat) (k : Z) (result addend : point)
  : option point :=
  if k >? 0 then
    match fuel with
    | O => None
    | S fuel' =>
        let result :=
          if negb (Z.land k 1 =? 0) then pointAdd result addend else result in
        multiplyLoop fuel' (Z.shiftr k 1) result (pointAdd addend addend)
    end
  else Some result.

(** [pointMultiply(k, p)]; [k] is halved at each turn, so the loop makes
    one turn per binary digit of [k] (lemma [multiplyLoop_terminates]) and
    the last branch is never taken. *)
Definition pointMultiply (k : Z) (p : point) : point :=
  match multiplyLoop (S (Z.to_nat (Z.log2 k))) k None p with
  | Some result => result
  | None => None
  end.

(** The default second argument of [pointMultiply]. *)
Definition G : point := Some (Gx, Gy).

(** [bytesToHex(bytes)]. *)
Definition bytesToHex (bytes : list Z) : jsstring :=
  concat (map (fun b => padStart 2 (toString16 b)) bytes).

(** The strings [hex.substr(i, 2)] for [i = 0, 2, 4, ...]. *)
Fixpoint pairs (hex : jsstring) : list jsstring :=
  match hex with
  | a :: b :: rest => [a; b] :: pairs rest
  | [a] => [[a]]
  | [] => []
  end.

(** [hexToBytes(hex)]: the result is a [Uint8Array]. *)
Definition hexToBytes (hex : jsstring) : list Z :=
  let hex := if Nat.odd (length hex) then 48 :: hex else hex in
  map (fun p => toUint8 (parseInt16 p)) (pairs hex).

Definition bigIntToBytes (num : Z) (length : nat) : list Z :=
  hexToBytes (padStart (length * 2) (toString16 num)).

Definition bytesToBigInt (bytes : list Z) : outcome Z :=
  bigIntOfHex (bytesToHex bytes).

(** [new TextEncoder().encode(s)]: UTF-8, with the replacement character
    for a lone surrogate. *)
Fixpoint utf8 (s : jsstring) : list Z :=
  match s with
  | [] => []
  | c :: r =>
      if c <? 128 then c :: utf8 r
      else if c <? 2048 then
        (192 + c / 64) :: (128 + c mod 64) :: utf8 r
      else if (55296 <=? c) && (c <? 56320) then
        match r with
        | d :: r' =>
            if (56320 <=? d) && (d <? 57344) then
              let cp := 65536 + (c - 55296) * 1024 + (d - 56320) in
              (240 + cp / 262144) :: (128 + (cp / 4096) mod 64)
              :: (128 + (cp / 64) mod 64) :: (128 + cp mod 64) :: utf8 r'
            else 239 :: 191 :: 189 :: utf8 r
        | [] => [239; 191; 189]
        end
      else if (56320 <=? c) && (c <? 57344) then 239 :: 191 :: 189 :: utf8 r
      else (224 + c / 4096) :: (128 + (c / 64) mod 64) :: (128 + c mod 64) :: utf8 r
  end.

(** The two forms [sign] accepts for each of its arguments. *)
Inductive keyArg : Type :=
| KeyString (hex : jsstring)
| KeyBigInt (k : Z).

Inductive hashArg : Type :=
| HashString (hex : jsstring)
| HashBytes (bytes : list Z).

Section Primitives.

(** The external hash, [crypto.subtle.digest('SHA-256', buffer)] as a
    function from bytes to bytes. *)
Variable digest : list Z -> list Z.

(** [sha256(data)] for a string [data]. *)
Definition sha256 (data : jsstring) : list Z := digest (utf8 data).

Definition generateK (privKey msgHash : Z) : outcome Z :=
  let combined := toString16 privKey ++ toString16 msgHash in
  let hash := sha256 combined in
  k <- bytesToBigInt hash ;;
  let k := mod_ k N in
  Ok (if k =? 0 then 1 else k).

(** [sign(privateKey, messageHash)]; a rejected promise is a [Throw].
    [R[0]] on a [null] point is a [TypeError]. *)
Definition sign (privateKey : keyArg) (messageHash : hashArg)
  : outcome jsstring :=
  privKey <- match privateKey with
             | KeyString hex => bigIntOfHex hex
             | KeyBigInt k => Ok k
             end ;;
  msgHash <- match messageHash with
             | HashString hex => bigIntOfHex hex
             | HashBytes bytes => bytesToBigInt bytes
             end ;;
  k <- generateK privKey msgHash ;;
  match pointMultiply k G with
  | None => Throw "TypeError"
  | Some (Rx, _) =>
      let r := Z.rem Rx N in
      if r =? 0 then Throw "Invalid r"
      else
        let kInv := modInverse k N in
        let s := mod_ ((msgHash + r * privKey) * kInv) N in
        if s =? 0 then Throw "Invalid s"
        else
          let rHex := padStart 64 (toString16 r) in
          let sHex := padStart 64 (toString16 s) in
          Ok (rHex ++ sHex)
  end.

End Primitives.

(** The [while (key >= N || key === 0n)] loop of [generatePrivateKey].
    [random i] is what the [i]-th call of [crypto.getRandomValues] writes
    into the 32-byte array; [Hang]: the fuel ran out. *)
Fixpoint redraw (fuel : nat) (random : nat -> list Z) (i : nat) (key : Z)
  : outcome Z :=
  if (key >=? N) || (key =? 0) then
    match fuel with
    | O => Hang
    | S fuel' =>
        key' <- bytesToBigInt (random (S i)) ;;
        redraw fuel' random (S i) key'
    end
  else Ok key.

Definition generatePrivateKey (random : nat -> list Z) (fuel : nat)
  : outcome jsstring :=
  key <- bytesToBigInt (random O) ;;
  key <- redraw fuel random O key ;;
  Ok (bytesToHex (bigIntToBytes key 32)).

(** The [while (exponent > 0n)] loop of [powMod]; [exponent % 2n] is the
    truncated remainder and [>>] on a BigInt the floor of the half.
    [None]: the fuel ran out. *)
Fixpoint powLoop (fuel : nat) (result base exponent modulus : Z) : option Z :=
  if exponent >? 0 then
    match fuel with
    | O => None
    | S fuel' =>
        let result :=
          if Z.rem exponent 2 =? 1 then mod_ (result * base) modulus
          else result in
        powLoop fuel' result (mod_ (base * base) modulus)
                (Z.shiftr exponent 1) modulus
    end
  else Some result.

(** [powMod(base, exponent, modulus)]; the exponent is halved at each turn,
    so the loop makes one turn per binary digit of it (lemma
    [powLoop_terminates]) and the last branch is never taken. *)
Definition powMod (base exponent modulus : Z) : Z :=
  if modulus =? 1 then 0
  else
    let base := mod_ base modulus in
    match powLoop (S (Z.to_nat (Z.log2 exponent))) 1 base exponent modulus with
    | Some result => result
    | None => 0
    end.

(** [encodePoint(point)]: [new Uint8Array(33)] is 33 zero bytes, and
    [new Uint8Array([prefix, ...xBytes])] stores each number modulo 256. *)
Definition encodePoint (point : point) : list Z :=
  match point with
  | None => repeat 0 33
  | Some (x, y) =>
      let xBytes := bigIntToBytes x 32 in
      let prefix := if Z.land y 1 =? 0 then 2 else 3 in
      map (fun v => toUint8 (Some v)) (prefix :: xBytes)
  end.

(** [getPublicKey(privateKey)], the key a string or a BigInt. *)
Definition getPublicKey (privateKey : keyArg) : outcome jsstring :=
  privBigInt <- match privateKey with
                | KeyString hex => bigIntOfHex hex
                | KeyBigInt k => Ok k
                end ;;
  let point := pointMultiply privBigInt G in
  Ok (bytesToHex (encodePoint point)).

(** [sha256Hex(data)] for a string [data], over the external hash. *)
Definition sha256Hex (digest : list Z -> list Z) (data : jsstring) : jsstring :=
  bytesToHex (sha256 digest data).

End Crypto.

(** ** The [Bech32] object: the key codec *)

Module Bech32.
Import JS.

Definition charset : jsstring := lit "qpzry9x8gf2tvdw0s3jn54khce6mua7l".

Definition GEN : list Z :=
  [0x3b6a57b2; 0x26508e6d; 0x1ea119fa; 0x3d4233dd; 0x2a1462b3].

(** One turn of the [for (const value of values)] loop of [polymod]. *)
Definition polymodStep (chk value : Z) : Z :=
  let top := sar chk 25 in
  let chk := bxor (shl (band chk 0x1ffffff) 5) value in
  fold_left
    (fun chk i =>
       if negb (band (sar top i) 1 =? 0) then bxor chk (nth (Z.to_nat i) GEN 0)
       else chk)
    [0; 1; 2; 3; 4] chk.

Definition polymod (values : list Z) : Z := fold_left polymodStep values 1.

Definition hrpExpand (hrp : jsstring) : list Z :=
  map (fun c => sar c 5) hrp ++ [0] ++ map (fun c => band c 31) hrp.

Definition createChecksum (hrp : jsstring) (data : list Z) : list Z :=
  let values := hrpExpand hrp ++ data ++ [0; 0; 0; 0; 0; 0] in
  let mod_ := bxor (polymod values) 1 in
  map (fun i => band (sar mod_ (5 * (5 - i))) 31) [0; 1; 2; 3; 4; 5].

Definition encode (hrp : jsstring) (data : list Z) : jsstring :=
  let combined := data ++ createChecksum hrp data in
  fold_left (fun result d => appendIndexed result (index charset d))
            combined (hrp ++ lit "1").

Definition verifyChecksum (hrp : jsstring) (data : list Z) : bool :=
  polymod (hrpExpand hrp ++ data) =? 1.

(** The [for] loop of [decode] over the units after the separator. *)
Fixpoint decodeChars (units : jsstring) (data : list Z) : outcome (list Z) :=
  match units with
  | [] => Ok data
  | c :: rest =>
      let d := indexOf charset c in
      if d =? -1 then Throw "Invalid bech32 character"
      else decodeChars rest (data ++ [d])
  end.

(** [decode(bechString)] returns the object [{hrp, data}]. *)
Definition decode (bechString : jsstring) : outcome (jsstring * list Z) :=
  let pos := lastIndexOf bechString 49 in
  if (pos <? 1) || (pos + 7 >? Z.of_nat (length bechString)) then
    Throw "Invalid bech32 string"
  else
    let hrp := substring0 bechString pos in
    data <- decodeChars (unitsFrom bechString (pos + 1)) [] ;;
    if negb (verifyChecksum hrp data) then Throw "Invalid bech32 checksum"
    else Ok (hrp, sliceDropLast data 6).

(** The inner [while (bits >= toBits)] loop of [convertBits].  It runs
    [bits / toBits] times when [toBits] is positive and forever when
    [toBits <= 0 <= bits]; [None] is the second case. *)
Fixpoint drain (fuel : nat) (acc bits toBits maxv : Z) (ret : list Z)
  : option (Z * list Z) :=
  match fuel with
  | O => None
  | S fuel' =>
      if bits >=? toBits then
        let bits' := bits - toBits in
        drain fuel' acc bits' toBits maxv (ret ++ [band (sar acc bits') maxv])
      else Some (bits, ret)
  end.

(** The [for (const value of data)] loop of [convertBits], threading
    [acc], [bits] and [ret]. *)
Fixpoint convertLoop (data : list Z) (fromBits toBits maxv acc bits : Z)
  (ret : list Z) : outcome (Z * Z * list Z) :=
  match data with
  | [] => Ok (acc, bits, ret)
  | value :: rest =>
      if (value <? 0) || negb (sar value fromBits =? 0) then
        Throw "Invalid data"
      else
        let acc' := bor (shl acc fromBits) value in
        let bits' := bits + fromBits in
        match drain (S (Z.to_nat bits')) acc' bits' toBits maxv ret with
        | None => Hang
        | Some (bits'', ret') =>
            convertLoop rest fromBits toBits maxv acc' bits'' ret'
        end
  end.

Definition convertBits (data : list Z) (fromBits toBits : Z) (pad : bool)
  : outcome (list Z) :=
  let maxv := shl 1 toBits - 1 in
  '(acc, bits, ret) <- convertLoop data fromBits toBits maxv 0 0 [] ;;
  if pad then
    if bits >? 0 then Ok (ret ++ [band (shl acc (toBits - bits)) maxv])
    else Ok ret
  else if (bits >=? fromBits) || negb (band (shl acc (toBits - bits)) maxv =? 0)
  then Throw "Invalid padding"
  else Ok ret.

Definition encodePubkey (hex : jsstring) : outcome jsstring :=
  let bytes := Crypto.hexToBytes hex in
  words <- convertBits bytes 8 5 true ;;
  Ok (encode (lit "npub") words).

Definition encodePrivkey (hex : jsstring) : outcome jsstring :=
  let bytes := Crypto.hexToBytes hex in
  words <- convertBits bytes 8 5 true ;;
  Ok (encode (lit "nsec") words).

(** [new Uint8Array(bytes)] stores each number modulo 256. *)
Definition decodePubkey (npub : jsstring) : outcome jsstring :=
  '(_, data) <- decode npub ;;
  bytes <- convertBits data 5 8 false ;;
  Ok (Crypto.bytesToHex (map (fun b => toUint8 (Some b)) bytes)).

Definition decodePrivkey (nsec : jsstring) : outcome jsstring :=
  '(_, data) <- decode nsec ;;
  bytes <- convertBits data 5 8 false ;;
  Ok (Crypto.bytesToHex (map (fun b => toUint8 (Some b)) bytes)).

End Bech32.


(** ** The [AsciiDoc] object: wikilink targets *)

Module AsciiDoc.
Import JS.

(** A unit of the class [[a-z0-9]]. *)
Definition isAlnum (c : Z) : bool :=
  ((97 <=? c) && (c <=? 122)) || ((48 <=? c) && (c <=? 57)).

(** [s.replace(/[^a-z0-9]+/g, '-')]: every maximal run of units outside
    [[a-z0-9]] becomes one ['-'].  [inRun]: the unit before was part of
    such a run. *)
Fixpoint replaceRuns (s : jsstring) (inRun : bool) : jsstring :=
  match s with
  | [] => []
  | c :: r =>
      if isAlnum c then c :: replaceRuns r false
      else if inRun then replaceRuns r true
      else 45 :: replaceRuns r true
  end.

(** [s.replace(/^-|-$/g, '')]: the first alternative matches a ['-'] at
    the start, the second one a ['-'] at the end of what follows. *)
Definition stripStart (s : jsstring) : jsstring :=
  match s with
  | c :: r => if c =? 45 then r else s
  | [] => s
  end.

Definition stripEnd (s : jsstring) : jsstring :=
  match rev s with
  | c :: r => if c =? 45 then rev r else s
  | [] => s
  end.

Definition stripDashes (s : jsstring) : jsstring := stripEnd (stripStart s).

Section Wikilink.

(** [String.prototype.toLowerCase], the case mapping of the engine. *)
Variable toLowerCase : jsstring -> jsstring.

Definition normalizeWikilink (text : jsstring) : jsstring :=
  stripDashes (replaceRuns (toLowerCase text) false).

End Wikilink.

(** *** String methods and patterns used by [parse] *)

(** [s.split(c)] for a one-unit separator [c]. *)
Fixpoint split (sep : Z) (s : jsstring) : list jsstring :=
  match s with
  | [] => [[]]
  | c :: r =>
      if c =? sep then [] :: split sep r
      else
        match split sep r with
        | cur :: rest => (c :: cur) :: rest
        | [] => [[c]]
        end
  end.

(** [a.join(sep)]. *)
Fixpoint join (sep : jsstring) (a : list jsstring) : jsstring :=
  match a with
  | [] => []
  | [x] => x
  | x :: r => x ++ sep ++ join sep r
  end.

(** [s.trim()]. *)
Definition trim (s : jsstring) : jsstring := trimEnd (trimStart s).

(** [s.startsWith(p)]. *)
Fixpoint startsWith (p s : jsstring) : bool :=
  match p, s with
  | [], _ => true
  | a :: p', b :: s' => (a =? b) && startsWith p' s'
  | _ :: _, [] => false
  end.

(** [s === t] on strings. *)
Fixpoint sameString (s t : jsstring) : bool :=
  match s, t with
  | [], [] => true
  | a :: s', b :: t' => (a =? b) && sameString s' t'
  | _, _ => false
  end.

(** A string, or an array, is truthy or of positive length when it is
    not empty. *)
Definition nonEmpty {A} (s : list A) : bool :=
  match s with
  | [] => false
  | _ :: _ => true
  end.

(** The classes [\d] and [\w], and the units [.] does not match. *)
Definition isDigit (c : Z) : bool := (48 <=? c) && (c <=? 57).

Definition isWord (c : Z) : bool :=
  isDigit c || ((65 <=? c) && (c <=? 90)) || ((97 <=? c) && (c <=? 122))
  || (c =? 95).

Definition isLineTerminator (c : Z) : bool :=
  (c =? 10) || (c =? 13) || (c =? 8232) || (c =? 8233).

Fixpoint dropDigits (s : jsstring) : jsstring :=
  match s with
  | c :: r => if isDigit c then dropDigits r else s
  | [] => []
  end.

(** [/^\d+\.\s/]: what follows the match, when there is one. *)
Definition orderedRest (s : jsstring) : option jsstring :=
  match s with
  | c :: _ =>
      if isDigit c then
        match dropDigits s with
        | d :: w :: rest =>
            if (d =? 46) && isWhiteSpace w then Some rest else None
        | _ => None
        end
      else None
  | [] => None
  end.

Fixpoint takeWord (s : jsstring) : jsstring * jsstring :=
  match s with
  | c :: r =>
      if isWord c then let '(w, r') := takeWord r in (c :: w, r')
      else ([], s)
  | [] => ([], [])
  end.

(** [/\[source,\s*(\w+)\]/] at the start of [s]: the group. *)
Definition langAt (s : jsstring) : option jsstring :=
  if startsWith (lit "[source,") s then
    let '(w, r) := takeWord (trimStart (skipn 8 s)) in
    match w, r with
    | _ :: _, c :: _ => if c =? 93 then Some w else None
    | _, _ => None
    end
  else None.

(** [langMatch ? langMatch[1] : ''] for the first match in [s]. *)
Fixpoint sourceLang (s : jsstring) : jsstring :=
  match langAt s with
  | Some w => w
  | None =>
      match s with
      | _ :: r => sourceLang r
      | [] => []
      end
  end.

(** The alternatives [NOTE|TIP|IMPORTANT|WARNING|CAUTION], each with its
    lower-case form. *)
Definition admonitionTypes : list (jsstring * jsstring) :=
  [ (lit "NOTE", lit "note"); (lit "TIP", lit "tip");
    (lit "IMPORTANT", lit "important"); (lit "WARNING", lit "warning");
    (lit "CAUTION", lit "caution") ].

(** [/^(NOTE|TIP|IMPORTANT|WARNING|CAUTION):/]: the type, its lower-case
    form and what follows the colon. *)
Fixpoint admonitionPrefix (types : list (jsstring * jsstring))
         (s : jsstring) : option (jsstring * jsstring * jsstring) :=
  match types with
  | [] => None
  | (type, lower) :: more =>
      if startsWith (type ++ lit ":") s
      then Some (type, lower, skipn (length type + 1) s)
      else admonitionPrefix more s
  end.

(** [/^(NOTE|TIP|IMPORTANT|WARNING|CAUTION):\s*(.+)$/]: the type, its
    lower-case form and the content, one or more units none of which is
    a line terminator, up to the end of the string. *)
Definition admonitionMatch (s : jsstring)
  : option (jsstring * jsstring * jsstring) :=
  match admonitionPrefix admonitionTypes s with
  | Some (type, lower, rest) =>
      let content := trimStart rest in
      if nonEmpty content && forallb (fun c => negb (isLineTerminator c)) content
      then Some (type, lower, content)
      else None
  | None => None
  end.

Definition isSome {A} (o : option A) : bool :=
  match o with
  | Some _ => true
  | None => false
  end.

(** The horizontal rule, three single quotes. *)
Definition rule : jsstring := [39; 39; 39].

(** [isBlockElement(line)]. *)
Definition isBlockElement (line : jsstring) : bool :=
  let trimmed := trim line in
  startsWith (lit "=") trimmed
  || startsWith (lit "* ") trimmed
  || startsWith (lit "- ") trimmed
  || isSome (orderedRest trimmed)
  || startsWith (lit "----") trimmed
  || startsWith (lit "[source") trimmed
  || startsWith (lit "____") trimmed
  || startsWith (lit "****") trimmed
  || startsWith (lit "|===") trimmed
  || sameString trimmed rule
  || isSome (admonitionPrefix admonitionTypes trimmed).

Section Parse.

(** [escapeHtml], which goes through the document object, and
    [parseInline]. *)
Variable escapeHtml : jsstring -> jsstring.
Variable parseInline : jsstring -> jsstring.

(** The inner loops of [parse]: each one returns what it collected and
    the lines from index [i] on. *)
Fixpoint unorderedItems (lines : list jsstring)
  : list jsstring * list jsstring :=
  match lines with
  | line :: rest =>
      let t := trim line in
      if startsWith (lit "* ") t || startsWith (lit "- ") t then
        let '(items, after) := unorderedItems rest in
        ((lit "<li>" ++ parseInline (skipn 2 t) ++ lit "</li>") :: items, after)
      else ([], lines)
  | [] => ([], [])
  end.

Fixpoint orderedItems (lines : list jsstring)
  : list jsstring * list jsstring :=
  match lines with
  | line :: rest =>
      match orderedRest (trim line) with
      | Some item =>
          let '(items, after) := orderedItems rest in
          ((lit "<li>" ++ parseInline item ++ lit "</li>") :: items, after)
      | None => ([], lines)
      end
  | [] => ([], [])
  end.

(** The lines up to one that starts with [fence], each through [f]
    when [keep] holds of it. *)
Fixpoint blockLines (fence : jsstring) (keep : jsstring -> bool)
         (f : jsstring -> jsstring) (lines : list jsstring)
  : list jsstring * list jsstring :=
  match lines with
  | line :: rest =>
      if startsWith fence (trim line) then ([], lines)
      else
        let '(body, after) := blockLines fence keep f rest in
        (if keep line then f line :: body else body, after)
  | [] => ([], [])
  end.

Definition always (line : jsstring) : bool := true.

Definition notBlank (line : jsstring) : bool := nonEmpty (trim line).

(** A row of a table. *)
Definition tableRow (line : jsstring) : jsstring :=
  let row := trim line in
  let cells := filter (fun c => nonEmpty (trim c)) (split 124 row) in
  let cellsHtml :=
    join [] (map (fun c => lit "<td>" ++ parseInline (trim c) ++ lit "</td>")
                 cells) in
  lit "<tr>" ++ cellsHtml ++ lit "</tr>".

Fixpoint paragraphLines (lines : list jsstring)
  : list jsstring * list jsstring :=
  match lines with
  | line :: rest =>
      if nonEmpty (trim line) && negb (isBlockElement line) then
        let '(body, after) := paragraphLines rest in (line :: body, after)
      else ([], lines)
  | [] => ([], [])
  end.

(** One turn of the [while (i < lines.length)] loop of [parse] on the
    lines from index [i] on, the first of them [line]: what is pushed on
    [html], and the lines from the new index on. *)
Definition parseStep (line : jsstring) (rest : list jsstring)
  : list jsstring * list jsstring :=
  let trimmed := trim line in
  if startsWith (lit "= ") trimmed then
    ([lit "<h1>" ++ escapeHtml (skipn 2 trimmed) ++ lit "</h1>"], rest)
  else if startsWith (lit "==== ") trimmed then
    ([lit "<h4>" ++ escapeHtml (skipn 5 trimmed) ++ lit "</h4>"], rest)
  else if startsWith (lit "=== ") trimmed then
    ([lit "<h3>" ++ escapeHtml (skipn 4 trimmed) ++ lit "</h3>"], rest)
  else if startsWith (lit "== ") trimmed then
    ([lit "<h2>" ++ escapeHtml (skipn 3 trimmed) ++ lit "</h2>"], rest)
  else if startsWith (lit "* ") trimmed || startsWith (lit "- ") trimmed then
    let '(items, after) := unorderedItems (line :: rest) in
    ([lit "<ul>" ++ join [] items ++ lit "</ul>"], after)
  else if isSome (orderedRest trimmed) then
    let '(items, after) := orderedItems (line :: rest) in
    ([lit "<ol>" ++ join [] items ++ lit "</ol>"], after)
  else if startsWith (lit "----") trimmed then
    let '(body, after) := blockLines (lit "----") always escapeHtml rest in
    ([lit "<pre><code>" ++ join [10] body ++ lit "</code></pre>"], tl after)
  else if startsWith (lit "[source") trimmed then
    let lang := sourceLang trimmed in
    match rest with
    | next :: rest' =>
        if startsWith (lit "----") (trim next) then
          let '(body, after) :=
            blockLines (lit "----") always escapeHtml rest' in
          ([lit "<pre><code class=" ++ [34] ++ lit "language-" ++ lang
            ++ [34] ++ lit ">" ++ join [10] body ++ lit "</code></pre>"],
           tl after)
        else ([], rest)
    | [] => ([], rest)
    end
  else if startsWith (lit "____") trimmed then
    let '(body, after) := blockLines (lit "____") notBlank parseInline rest in
    ([lit "<blockquote>" ++ join (lit "<br>") body ++ lit "</blockquote>"],
     tl after)
  else if startsWith (lit "****") trimmed then
    let '(body, after) := blockLines (lit "****") notBlank parseInline rest in
    ([lit "<div class=" ++ [34] ++ lit "sidebar" ++ [34] ++ lit ">"
      ++ join (lit "<br>") body ++ lit "</div>"],
     tl after)
  else
    match admonitionMatch trimmed with
    | Some (type, lower, content) =>
        ([lit "<div class=" ++ [34] ++ lit "admonition admonition-" ++ lower
          ++ [34] ++ lit "><strong>" ++ type ++ lit ":</strong> "
          ++ parseInline content ++ lit "</div>"],
         rest)
    | None =>
        if sameString trimmed rule then ([lit "<hr>"], rest)
        else if startsWith (lit "|===") trimmed then
          let '(rows, after) :=
            blockLines (lit "|===") notBlank tableRow rest in
          ([lit "<table><tbody>" ++ join [] rows ++ lit "</tbody></table>"],
           tl after)
        else if sameString trimmed [] then ([], rest)
        else
          let '(body, after) := paragraphLines (line :: rest) in
          (if nonEmpty body
           then [lit "<p>" ++ parseInline (join (lit " ") body) ++ lit "</p>"]
           else [],
           after)
    end.

(** The [while (i < lines.length)] loop of [parse]; [Hang]: the fuel ran
    out. *)
Fixpoint parseLoop (fuel : nat) (lines html : list jsstring)
  : outcome (list jsstring) :=
  match lines with
  | [] => Ok html
  | line :: rest =>
      match fuel with
      | O => Hang
      | S fuel' =>
          let '(pushed, after) := parseStep line rest in
          parseLoop fuel' after (html ++ pushed)
      end
  end.

(** [parse(text)]. *)
Definition parse (fuel : nat) (text : jsstring) : outcome jsstring :=
  html <- parseLoop fuel (split 10 text) [] ;;
  Ok (join [10] html).

End Parse.

End AsciiDoc.

(** ** The [Nostr] object: events *)

Module Nostr.
Import JS.

(** The object [createEvent] returns. *)
Record event : Type := {
  kind : Z;
  created_at : Z;
  tags : list (list jsstring);
  content : jsstring;
  pubkey : jsstring;
  id : jsstring;
  sig : jsstring
}.

Section Events.

(** The external hash, the clock [Date.now()], and [JSON.stringify] of the
    array [[0, pubkey, created_at, kind, tags, content]]. *)
Variable digest : list Z -> list Z.
Variable now : Z.
Variable stringify :
  jsstring -> Z -> Z -> list (list jsstring) -> jsstring -> jsstring.

(** [createEvent(kind, content, tags, privateKey)]; [Math.floor] of the
    quotient is the floor division. *)
Definition createEvent (kind : Z) (content : jsstring)
           (tags : list (list jsstring)) (privateKey : Crypto.keyArg)
  : outcome event :=
  pubkey <- Crypto.getPublicKey privateKey ;;
  let created_at := now / 1000 in
  let serialized := stringify pubkey created_at kind tags content in
  let id := Crypto.sha256Hex digest serialized in
  sig <- Crypto.sign digest privateKey (Crypto.HashString id) ;;
  Ok {| kind := kind; created_at := created_at; tags := tags;
        content := content; pubkey := pubkey; id := id; sig := sig |}.

End Events.

End Nostr.
(** ** Definitions used to state the properties *)

(** The number a list of [w]-bit groups denotes, most significant first. *)
Definition push (w a x : Z) : Z := a * 2 ^ w + x.
Definition val (w : Z) (l : list Z) : Z := fold_left (push w) l 0.

Definition groups (w : Z) (l : list Z) : Prop :=
  Forall (fun x => 0 <= x < 2 ^ w) l.

(** Two accumulators that agree on their low 32 bits. *)
Definition agree (a b : Z) : Prop :=
  forall i, 0 <= i < 32 -> Z.testbit a i = Z.testbit b i.

(** The invariant of the loop of [convertBits]: [A] is the number read so
    far, [n] its width in bits. *)
Definition loop_inv (toBits A acc bits : Z) (ret : list Z) (n : Z) : Prop :=
  agree acc A /\ 0 <= bits < toBits /\ val toBits ret = A / 2 ^ bits /\
  groups toBits ret /\ toBits * Z.of_nat (length ret) + bits = n.

(** A point whose coordinates are field elements, the integers of
    [[0, P)]. *)
Definition reduced (p : Crypto.point) : Prop :=
  match p with
  | None => True
  | Some (x, y) => 0 <= x < Crypto.P /\ 0 <= y < Crypto.P
  end.

(** The curve equation [y^2 = x^3 + 7] over [P]; the point at infinity
    is on the curve. *)
Definition on_curve (p : Crypto.point) : Prop :=
  match p with
  | None => True
  | Some (x, y) => (y * y) mod Crypto.P = (x * x * x + 7) mod Crypto.P
  end.

Definition valid_point (p : Crypto.point) : Prop := reduced p /\ on_curve p.

(** The [k] digits of [n] in base [2^w], most significant first. *)
Fixpoint be_digits (w : Z) (k : nat) (n : Z) : list Z :=
  match k with
  | O => []
  | S k' => be_digits w k' (n / 2 ^ w) ++ [n mod 2 ^ w]
  end.

(** A lower-case hexadecimal digit, [0-9a-f]. *)
Definition isLowerHex (c : Z) : Prop := 48 <= c <= 57 \/ 97 <= c <= 102.

(** The forms in which [sign] receives a private key [privKey] and a
    32-byte digest [hash]: the BigInt or the 64 lower-case hexadecimal
    digits; the bytes or their hexadecimal digits. *)
Definition key_form (privKey : Z) (a : Crypto.keyArg) : Prop :=
  a = Crypto.KeyBigInt privKey \/
  a = Crypto.KeyString (Crypto.bytesToHex (be_digits 8 32 privKey)).


(** A non-negative number of at most 30 bits, as the state of [polymod]. *)
Definition in30 (x : Z) : Prop := 0 <= x < 2 ^ 30.

(** The character of the bech32 alphabet for a 5-bit symbol. *)
Definition charOf (d : Z) : Z := nth (Z.to_nat d) Bech32.charset 0.

(** A draw of the random source that [generatePrivateKey] accepts. *)
Definition accepted (random : nat -> list Z) (i : nat) : Prop :=
  1 <= val 8 (random i) <= Crypto.N - 1.

(** The nonce: the digest of the two hexadecimal strings, reduced modulo
    [N], with [1] for [0]. *)
Definition nonce (digest : list Z -> list Z) (privKey msgHash : Z) : Z :=
  let k := val 8 (digest (Crypto.utf8 (JS.toString16 privKey
                                       ++ JS.toString16 msgHash)))
           mod Crypto.N in
  if k =? 0 then 1 else k.

(** The inner loop of [polymod], over any list of indices. *)
Definition genStep (top chk i : Z) : Z :=
  if negb (JS.band (JS.sar top i) 1 =? 0)
  then JS.bxor chk (nth (Z.to_nat i) Bech32.GEN 0)
  else chk.


(** The string [hexToBytes] reads: a ["0"] is put in front of a string
    of odd length. *)
Definition padEven (h : JS.jsstring) : JS.jsstring :=
  if Nat.odd (length h) then 48 :: h else h.

(** A hexadecimal digit of either case, and its lower-case form. *)
Definition isHex (c : Z) : Prop := isLowerHex c \/ 65 <= c <= 70.

Definition toLowerHex (c : Z) : Z :=
  if (65 <=? c) && (c <=? 70) then c + 32 else c.

(** A string of UTF-16 code units. *)
Definition codeUnits (s : JS.jsstring) : Prop :=
  Forall (fun c => 0 <= c < 65536) s.

(** A unit of a wikilink target: [[a-z0-9]] or ['-']. *)
Definition isSlug (c : Z) : Prop := AsciiDoc.isAlnum c = true \/ c = 45.

(** No two adjacent units of the string are ['-']. *)
Fixpoint noDoubleDash (s : JS.jsstring) : Prop :=
  match s with
  | a :: (b :: _) as r => ~ (a = 45 /\ b = 45) /\ noDoubleDash r
  | _ => True
  end.

(** The hexadecimal digits of either case. *)
Definition hexChars : list Z :=
  [48; 49; 50; 51; 52; 53; 54; 55; 56; 57;
   65; 66; 67; 68; 69; 70; 97; 98; 99; 100; 101; 102].

(** A lower-case letter, [a-z]. *)
Definition isLowerAlpha (c : Z) : Prop := 97 <= c <= 122.

(** A line that [isBlockElement] takes for the start of a block and that
    no branch of [parse] handles: it starts with ['='] but with none of
    the four headings, or with an admonition type and its colon but has no
    content on one line after them. *)
Definition stuck (line : JS.jsstring) : bool :=
  let t := AsciiDoc.trim line in
  (AsciiDoc.startsWith (JS.lit "=") t
   && negb (AsciiDoc.startsWith (JS.lit "= ") t
            || AsciiDoc.startsWith (JS.lit "==== ") t
            || AsciiDoc.startsWith (JS.lit "=== ") t
            || AsciiDoc.startsWith (JS.lit "== ") t))
  || (AsciiDoc.isSome (AsciiDoc.admonitionPrefix AsciiDoc.admonitionTypes t)
      && negb (AsciiDoc.isSome (AsciiDoc.admonitionMatch t))).

(** ** Primality certificates *)

(** The field prime [P] and the group order [N] are shown prime by
    Pocklington's criterion, applied along a chain of smaller primes down
    to primes found by trial division.  The modular powers are evaluated
    on machine-word integers. *)

Definition zprod (l : list Z) : Z := fold_right Z.mul 1 l.

(** [b ^ e mod m] by square and multiply, on [bigZ]. *)
Fixpoint powB (b : bigZ) (e : positive) (m : bigZ) : bigZ :=
  match e with
  | xH => (b mod m)%bigZ
  | xO e' => let t := powB b e' m in ((t * t) mod m)%bigZ
  | xI e' => let t := powB b e' m in ((t * t mod m) * b mod m)%bigZ
  end.

Definition powmod (a e n : Z) : Z :=
  BigZ.to_Z (powB (BigZ.of_Z a) (Z.to_pos e) (BigZ.of_Z n)).

Definition gcdB (x y : Z) : Z :=
  BigZ.to_Z (BigZ.gcd (BigZ.of_Z x) (BigZ.of_Z y)).

(** Trial division by [d, d + 1, ...]. *)
Fixpoint trial (fuel : nat) (d n : Z) : bool :=
  match fuel with
  | O => true
  | S fuel' => negb (n mod d =? 0) && trial fuel' (d + 1) n
  end.

Definition small_prime (n : Z) : bool :=
  (1 <? n) && trial (Z.to_nat (n - 2)) 2 n.

Fixpoint increasing (lo : Z) (l : list Z) : bool :=
  match l with
  | [] => true
  | x :: r => (lo <? x) && increasing x r
  end.

(** One step of a certificate: [n] with the witness [a] and the prime
    factors [qs] of [n - 1] whose product exceeds the square root of [n]. *)
Definition pock_check (n a : Z) (qs : list Z) : bool :=
  let F := zprod qs in
  (1 <? n) && ((n - 1) mod F =? 0) && (n <? F * F)
  && (powmod a (n - 1) n =? 1)
  && forallb (fun q => gcdB (powmod a ((n - 1) / q) n - 1) n =? 1) qs.

Fixpoint chain_check (known : list Z) (certs : list (Z * Z * list Z)) : bool :=
  match certs with
  | [] => true
  | (n, a, qs) :: rest =>
      forallb (fun q => existsb (Z.eqb q) known) qs
      && increasing 0 qs && pock_check n a qs
      && chain_check (n :: known) rest
  end.

Definition trial_primes : list Z :=
  [2; 7; 29; 53; 293; 419; 1627; 1871; 2657; 4051; 9349].

Definition certificate : list (Z * Z * list Z) :=
  [ (20113, 2, [419]);
    (1206781, 2, [20113]);
    (7240687, 2, [1206781]);
    (107590001, 2, [7; 29; 53]);
    (255515944373312847190720520512484175977, 2,
     [1627; 2657; 7240687; 107590001]);
    (205115282021455665897114700593932402728804164701536103180137503955397371,
     2, [255515944373312847190720520512484175977]);
    (Crypto.P, 2,
     [205115282021455665897114700593932402728804164701536103180137503955397371]);
    (44706919, 2, [9349]);
    (174723607534414371449, 2, [4051; 44706919]);
    (1627771, 2, [1871]);
    (297159362677, 2, [1627771]);
    (29047611873442575647497758179, 2, [2; 293; 297159362677]);
    (341948486974166000522343609283189, 2, [29047611873442575647497758179]);
    (Crypto.N, 2,
     [174723607534414371449; 341948486974166000522343609283189]) ].


(** ** Scalar multiplication *)

(** A mirror of the point operations on machine-word integers, used to
    evaluate [pointMultiply] on 256-bit scalars.  Each inverse it uses is
    checked by a multiplication, and a checked inverse is the value of
    [modInverse]. *)

Definition PB : bigZ := Eval vm_compute in BigZ.of_Z Crypto.P.

Fixpoint inverseLoopB (fuel : nat) (lm hm low high : bigZ) : bigZ :=
  match fuel with
  | O => lm
  | S fuel' =>
      if (1 <? low)%bigZ then
        let r := (high / low)%bigZ in
        inverseLoopB fuel' (hm - lm * r)%bigZ lm (high - low * r)%bigZ low
      else lm
  end.

Definition checkedInverse (a : bigZ) : option bigZ :=
  let x := (inverseLoopB 600 1 0 (a mod PB) PB mod PB)%bigZ in
  if ((a * x) mod PB =? 1)%bigZ then Some x else None.

Definition pointB : Type := option (bigZ * bigZ).

Definition toPoint (p : pointB) : Crypto.point :=
  match p with
  | None => None
  | Some (x, y) => Some (BigZ.to_Z x, BigZ.to_Z y)
  end.

Definition pointAddB (p1 p2 : pointB) : option pointB :=
  match p1, p2 with
  | None, _ => Some p2
  | _, None => Some p1
  | Some (x1, y1), Some (x2, y2) =>
      if ((x1 =? x2) && (y1 =? y2))%bigZ then
        match checkedInverse (2 * y1)%bigZ with
        | Some inv =>
            let s := ((3 * x1 * x1 mod PB) * inv mod PB)%bigZ in
            let x3 := ((s * s - 2 * x1) mod PB)%bigZ in
            let y3 := ((s * (x1 - x3) - y1) mod PB)%bigZ in
            Some (Some (x3, y3))
        | None => None
        end
      else if (x1 =? x2)%bigZ then Some None
      else
        match checkedInverse ((x2 - x1) mod PB)%bigZ with
        | Some inv =>
            let s := (((y2 - y1) mod PB) * inv mod PB)%bigZ in
            let x3 := ((s * s - x1 - x2) mod PB)%bigZ in
            let y3 := ((s * (x1 - x3) - y1) mod PB)%bigZ in
            Some (Some (x3, y3))
        | None => None
        end
  end.

Fixpoint multiplyLoopB (fuel : nat) (k : Z) (result addend : pointB)
  : option pointB :=
  if k >? 0 then
    match fuel with
    | O => None
    | S fuel' =>
        match (if negb (Z.land k 1 =? 0) then pointAddB result addend
               else Some result),
              pointAddB addend addend with
        | Some result', Some addend' =>
            multiplyLoopB fuel' (Z.shiftr k 1) result' addend'
        | _, _ => None
        end
    end
  else Some result.

(** ** Point addition over a field *)

(** [pointAdd] written with the operations of a field [K] and the curve
    constant [b]; over the integers modulo [P] and [b = 7] it is
    [pointAdd] on the residues of the coordinates (lemma
    [embed_pointAdd]). *)
Section CurveField.
Variable K : Type.
Variables kadd kmul ksub kdiv : K -> K -> K.
Variable kopp : K -> K.
Variable keqb : K -> K -> bool.
Variable b : K.

Definition fchord (x1 y1 x2 y2 : K) : K * K :=
  let s := kdiv (ksub y2 y1) (ksub x2 x1) in
  let x3 := ksub (ksub (kmul s s) x1) x2 in
  (x3, ksub (kmul s (ksub x1 x3)) y1).

Definition ftangent (x1 y1 : K) : K * K :=
  let xx := kmul x1 x1 in
  let s := kdiv (kadd (kadd xx xx) xx) (kadd y1 y1) in
  let x3 := ksub (ksub (kmul s s) x1) x1 in
  (x3, ksub (kmul s (ksub x1 x3)) y1).

Definition fadd (p1 p2 : option (K * K)) : option (K * K) :=
  match p1, p2 with
  | None, _ => p2
  | _, None => p1
  | Some (x1, y1), Some (x2, y2) =>
      if keqb x1 x2 then
        if keqb y1 y2 then Some (ftangent x1 y1) else None
      else Some (fchord x1 y1 x2 y2)
  end.

Definition fneg (p : option (K * K)) : option (K * K) :=
  match p with
  | None => None
  | Some (x, y) => Some (x, kopp y)
  end.

Definition fcurve (p : option (K * K)) : Prop :=
  match p with
  | None => True
  | Some (x, y) => kmul y y = kadd (kmul (kmul x x) x) b
  end.

End CurveField.

(** The residues of the coordinates of a point. *)
Definition embed (p : Crypto.point) : option (Zmod Crypto.P * Zmod Crypto.P) :=
  match p with
  | None => None
  | Some (x, y) => Some (Zmod.of_Z Crypto.P x, Zmod.of_Z Crypto.P y)
  end.

(** [n] times a point, by repeated addition. *)
Fixpoint times (n : nat) (p : Crypto.point) : Crypto.point :=
  match n with
  | O => None
  | S n' => Crypto.pointAdd p (times n' p)
  end.
Example convertBits_ex1 :
  Bech32.convertBits [255; 0; 171] 8 5 true = Ok [31; 28; 0; 10; 22].
Proof. vm_compute. reflexivity. Qed.

Example convertBits_ex2 :
  Bech32.convertBits [31; 28; 0; 10; 22] 5 8 false = Ok [255; 0; 171].
Proof. vm_compute. reflexivity. Qed.


Example encodePubkey_ex :
  Bech32.encodePubkey
    (JS.lit "79be667ef9dcbbac55a06295ce870b07029bfcdb2dce28d959f2815b16f81798")
  = Ok (JS.lit "npub10xlxvlhemja6c4dqv22uapctqupfhlxm9h8z3k2e72q4k9hcz7vqpkge6d").
Proof. vm_compute. reflexivity. Qed.

Example decodePubkey_ex :
  Bech32.decodePubkey
    (JS.lit "npub10xlxvlhemja6c4dqv22uapctqupfhlxm9h8z3k2e72q4k9hcz7vqpkge6d")
  = Ok (JS.lit "79be667ef9dcbbac55a06295ce870b07029bfcdb2dce28d959f2815b16f81798").
Proof. vm_compute. reflexivity. Qed.
(** ** Facts about the 32-bit primitives *)

Section Int32Facts.
Import JS.

Lemma toInt32_range x : - 2 ^ 31 <= toInt32 x < 2 ^ 31.
Proof.
  unfold toInt32.
  pose proof (Z.mod_pos_bound (x + 2 ^ 31) (2 ^ 32) ltac:(lia)). lia.
Qed.

Lemma toInt32_id x : - 2 ^ 31 <= x < 2 ^ 31 -> toInt32 x = x.
Proof.
  intros H. unfold toInt32. rewrite Z.mod_small; lia.
Qed.

Lemma toInt32_mod x : toInt32 x mod 2 ^ 32 = x mod 2 ^ 32.
Proof.
  unfold toInt32.
  rewrite Zminus_mod, Z.mod_mod by lia.
  rewrite <- Zminus_mod. f_equal. lia.
Qed.

(** The low 32 bits survive the conversion. *)
Lemma toInt32_bits x i : 0 <= i < 32 -> Z.testbit (toInt32 x) i = Z.testbit x i.
Proof.
  intros Hi.
  rewrite <- (Z.mod_pow2_bits_low (toInt32 x) 32 i) by lia.
  rewrite toInt32_mod. apply Z.mod_pow2_bits_low. lia.
Qed.

Lemma ones_range t : 0 <= t <= 31 -> 0 <= 2 ^ t - 1 < 2 ^ 31.
Proof.
  intros H. pose proof (Z.pow_pos_nonneg 2 t ltac:(lia) ltac:(lia)).
  pose proof (Z.pow_le_mono_r 2 t 31 ltac:(lia) ltac:(lia)). lia.
Qed.

(** Masking with [2^t - 1] keeps the low [t] bits, whatever the sign. *)
Lemma band_ones x t : 0 <= t <= 31 -> band x (2 ^ t - 1) = toInt32 x mod 2 ^ t.
Proof.
  intros H. unfold band.
  rewrite (toInt32_id (2 ^ t - 1)) by (pose proof (ones_range t H); lia).
  replace (2 ^ t - 1) with (Z.ones t) by (rewrite Z.ones_equiv; lia).
  apply Z.land_ones. lia.
Qed.

Lemma band_ones_range x t :
  0 <= t <= 31 -> 0 <= band x (2 ^ t - 1) <= 2 ^ t - 1.
Proof.
  intros H. rewrite band_ones by assumption.
  pose proof (Z.mod_pos_bound (toInt32 x) (2 ^ t)
                (Z.pow_pos_nonneg 2 t ltac:(lia) ltac:(lia))). lia.
Qed.

Lemma shl_one t : 0 <= t <= 30 -> shl 1 t = 2 ^ t.
Proof.
  intros H. unfold shl.
  rewrite (toInt32_id 1) by lia.
  rewrite Z.mod_small by lia.
  rewrite Z.shiftl_1_l.
  apply toInt32_id.
  pose proof (Z.pow_pos_nonneg 2 t ltac:(lia) ltac:(lia)).
  pose proof (Z.pow_le_mono_r 2 t 30 ltac:(lia) ltac:(lia)). lia.
Qed.

End Int32Facts.

(** ** [convertBits]: range of the groups it returns *)

Section ConvertBitsRange.
Import JS Bech32.

Variable toBits : Z.
Hypothesis toBits_range : 0 < toBits <= 30.

Let maxv := 2 ^ toBits - 1.
Let in_range (x : Z) : Prop := 0 <= x <= maxv.

Lemma drain_in_range fuel :
  forall acc bits ret bits' ret',
    Forall in_range ret ->
    drain fuel acc bits toBits maxv ret = Some (bits', ret') ->
    Forall in_range ret'.
Proof.
  induction fuel as [|fuel IH]; intros acc bits ret bits' ret' Hret Hd;
    simpl in Hd; [discriminate|].
  destruct (bits >=? toBits).
  - eapply IH; [|exact Hd].
    apply Forall_app; split; [assumption|].
    constructor; [|constructor].
    apply band_ones_range. lia.
  - inversion Hd; subst; assumption.
Qed.

Lemma convertLoop_in_range data :
  forall fromBits acc bits ret acc' bits' ret',
    Forall in_range ret ->
    convertLoop data fromBits toBits maxv acc bits ret = Ok (acc', bits', ret') ->
    Forall in_range ret'.
Proof.
  induction data as [|value rest IH];
    intros fromBits acc bits ret acc' bits' ret' Hret Hc; cbn [convertLoop] in Hc.
  - inversion Hc; subst; assumption.
  - destruct ((value <? 0) || negb (sar value fromBits =? 0)); [discriminate|].
    destruct (drain _ _ _ _ _ _) as [[b r]|] eqn:Hd; [|discriminate].
    eapply IH; [|exact Hc].
    eapply drain_in_range; eassumption.
Qed.

Lemma convertBits_in_range data fromBits pad ret :
  convertBits data fromBits toBits pad = Ok ret ->
  Forall (fun x => 0 <= x <= 2 ^ toBits - 1) ret.
Proof.
  unfold convertBits. rewrite shl_one by lia. fold maxv.
  destruct (convertLoop _ _ _ _ _ _ _) as [[[acc bits] r]| |] eqn:Hc;
    simpl; try discriminate.
  pose proof (convertLoop_in_range _ _ _ _ _ _ _ _ (Forall_nil _) Hc) as Hr.
  destruct pad.
  - destruct (bits >? 0); intros H; inversion H; subst; [|exact Hr].
    apply Forall_app; split; [exact Hr|].
    constructor; [|constructor]. apply band_ones_range. lia.
  - destruct (_ || _); intros H; inversion H; subst. exact Hr.
Qed.

End ConvertBitsRange.

(** ** [convertBits]: what the groups are *)

Lemma fold_push_val w l : fold_left (push w) l 0 = val w l.
Proof. reflexivity. Qed.

Lemma val_snoc w l x : val w (l ++ [x]) = val w l * 2 ^ w + x.
Proof. unfold val. rewrite fold_left_app. reflexivity. Qed.

Lemma push_inj M a b x y :
  0 < M -> 0 <= x < M -> 0 <= y < M -> a * M + x = b * M + y -> a = b /\ x = y.
Proof.
  intros HM Hx Hy H.
  assert (Ha : (a * M + x) / M = a) by (rewrite Z.div_add_l, Z.div_small; lia).
  assert (Hb : (b * M + y) / M = b) by (rewrite Z.div_add_l, Z.div_small; lia).
  rewrite H, Hb in Ha. subst b. lia.
Qed.

Lemma val_inj w l1 :
  0 < w ->
  forall l2, length l1 = length l2 -> groups w l1 -> groups w l2 ->
             val w l1 = val w l2 -> l1 = l2.
Proof.
  intros Hw. pose proof (Z.pow_pos_nonneg 2 w ltac:(lia) ltac:(lia)) as Hp.
  induction l1 as [|x l1 IH] using rev_ind; intros l2 Hlen G1 G2 Hv.
  - destruct l2; [reflexivity|discriminate].
  - destruct (exists_last (l:=l2)) as [l2' [y ->]].
    { intros ->. rewrite length_app in Hlen. simpl in Hlen. lia. }
    rewrite !length_app in Hlen. simpl in Hlen.
    rewrite !val_snoc in Hv.
    apply Forall_app in G1 as [G1 Gx]. apply Forall_app in G2 as [G2 Gy].
    inversion Gx as [|? ? Hx _]; subst. inversion Gy as [|? ? Hy _]; subst.
    destruct (push_inj _ _ _ _ _ Hp Hx Hy Hv) as [Hv' ->].
    f_equal. apply IH; [lia|assumption..].
Qed.

Section ConvertBitsExact.
Import JS Bech32.

Variables fromBits toBits : Z.
Hypothesis fromBits_pos : 0 < fromBits.
Hypothesis toBits_pos : 0 < toBits.
Hypothesis widths : fromBits + toBits <= 32.

Let maxv := 2 ^ toBits - 1.

Lemma push_lor A v : 0 <= v < 2 ^ fromBits ->
  push fromBits A v = Z.lor (Z.shiftl A fromBits) v.
Proof.
  intros Hv. unfold push. rewrite <- Z.shiftl_mul_pow2 by lia.
  pose proof (Z.add_lor_land (Z.shiftl A fromBits) v) as Hadd.
  enough (Z.land (Z.shiftl A fromBits) v = 0) by lia.
  clear Hadd. apply Z.bits_inj'; intros i Hi.
  rewrite Z.land_spec, Z.bits_0.
  destruct (Z.ltb_spec i fromBits).
  - rewrite Z.shiftl_spec_low by lia. reflexivity.
  - rewrite (Z.bits_above_log2 v i), andb_false_r; [reflexivity|lia|].
    destruct (Z.eq_dec v 0) as [->|]; [simpl; lia|].
    apply Z.log2_lt_pow2; [lia|].
    apply Z.lt_le_trans with (2 ^ fromBits); [lia|].
    apply Z.pow_le_mono_r; lia.
Qed.

Lemma agree_push acc A v :
  agree acc A -> 0 <= v < 2 ^ fromBits ->
  agree (bor (shl acc fromBits) v) (push fromBits A v).
Proof.
  intros Ha Hv i Hi. rewrite push_lor by assumption.
  unfold bor, shl. rewrite !Z.lor_spec, !toInt32_bits by assumption.
  rewrite (Z.mod_small fromBits 32) by lia.
  f_equal.
  destruct (Z.ltb_spec i fromBits).
  - rewrite !Z.shiftl_spec_low by lia. reflexivity.
  - rewrite !Z.shiftl_spec by lia.
    rewrite toInt32_bits by lia. apply Ha. lia.
Qed.

(** The group pushed by the inner loop. *)
Lemma group_spec acc A b :
  agree acc A -> 0 <= b -> b + toBits <= 32 ->
  band (sar acc b) maxv = (A / 2 ^ b) mod 2 ^ toBits.
Proof.
  intros Ha Hb Hbt. unfold maxv. rewrite band_ones by lia.
  unfold sar. rewrite (Z.mod_small b 32) by lia.
  apply Z.bits_inj'; intros i Hi.
  destruct (Z.ltb_spec i toBits).
  - rewrite !Z.mod_pow2_bits_low by lia.
    rewrite toInt32_bits by lia.
    rewrite <- Z.shiftr_div_pow2 by lia.
    rewrite !Z.shiftr_spec by lia.
    rewrite toInt32_bits by lia. apply Ha. lia.
  - rewrite !Z.mod_pow2_bits_high by lia. reflexivity.
Qed.

(** The group pushed by the padding branch, and tested by the other. *)
Lemma pad_spec acc A s :
  agree acc A -> 0 <= s < 32 -> toBits <= 31 ->
  band (shl acc s) maxv = (A * 2 ^ s) mod 2 ^ toBits.
Proof.
  intros Ha Hs Ht. unfold maxv. rewrite band_ones by lia.
  unfold shl. rewrite (Z.mod_small s 32) by lia.
  apply Z.bits_inj'; intros i Hi.
  destruct (Z.ltb_spec i toBits).
  - rewrite !Z.mod_pow2_bits_low by lia.
    rewrite !toInt32_bits by lia.
    rewrite <- Z.shiftl_mul_pow2 by lia.
    destruct (Z.ltb_spec i s).
    + rewrite !Z.shiftl_spec_low by lia. reflexivity.
    + rewrite !Z.shiftl_spec by lia.
      rewrite toInt32_bits by lia. apply Ha. lia.
  - rewrite !Z.mod_pow2_bits_high by lia. reflexivity.
Qed.

Lemma valid_value v :
  0 <= v < 2 ^ fromBits -> (v <? 0) || negb (sar v fromBits =? 0) = false.
Proof.
  intros Hv.
  assert (2 ^ fromBits <= 2 ^ 31) by (apply Z.pow_le_mono_r; lia).
  unfold sar. rewrite toInt32_id, (Z.mod_small fromBits 32) by lia.
  rewrite Z.shiftr_div_pow2, Z.div_small by lia.
  destruct (Z.ltb_spec v 0); [lia|reflexivity].
Qed.

Lemma drain_spec acc A fuel :
  agree acc A ->
  forall bits ret,
    0 <= bits -> bits < toBits * Z.of_nat fuel -> bits <= 32 ->
    val toBits ret = A / 2 ^ bits -> groups toBits ret ->
    exists bits' ret',
      drain fuel acc bits toBits maxv ret = Some (bits', ret') /\
      loop_inv toBits A acc bits' ret' (toBits * Z.of_nat (length ret) + bits).
Proof.
  intros Ha. pose proof (Z.pow_pos_nonneg 2 toBits ltac:(lia) ltac:(lia)) as Hp.
  induction fuel as [|fuel IH]; intros bits ret Hb Hf H32 Hv Hg; [lia|].
  cbn [drain]. destruct (Z.geb_spec bits toBits) as [Hge|Hlt].
  - rewrite group_spec with (A := A) by (assumption || lia).
    set (x := A / 2 ^ (bits - toBits)).
    assert (Hx : A / 2 ^ bits = x / 2 ^ toBits).
    { unfold x. rewrite Z.div_div by lia. rewrite <- Z.pow_add_r by lia.
      do 2 f_equal. lia. }
    destruct (IH (bits - toBits) (ret ++ [x mod 2 ^ toBits])) as (b' & r' & Hd & Hi).
    + lia.
    + lia.
    + lia.
    + rewrite val_snoc, Hv, Hx. fold x.
      pose proof (Z.div_mod x (2 ^ toBits) ltac:(lia)). lia.
    + apply Forall_app; split; [assumption|].
      constructor; [|constructor]. apply Z.mod_pos_bound. lia.
    + exists b', r'. split; [exact Hd|].
      rewrite length_app in Hi. simpl in Hi.
      replace (toBits * Z.of_nat (length ret) + bits)
        with (toBits * Z.of_nat (length ret + 1) + (bits - toBits)) by lia.
      exact Hi.
  - exists bits, ret. split; [reflexivity|].
    repeat split; (assumption || lia).
Qed.

Lemma convertLoop_spec data :
  groups fromBits data ->
  forall A acc bits ret n,
    loop_inv toBits A acc bits ret n ->
    exists acc' bits' ret',
      convertLoop data fromBits toBits maxv acc bits ret = Ok (acc', bits', ret') /\
      loop_inv toBits (fold_left (push fromBits) data A) acc' bits' ret'
          (n + fromBits * Z.of_nat (length data)).
Proof.
  induction 1 as [|v rest Hv Hrest IH]; intros A acc bits ret n Hi.
  - exists acc, bits, ret. split; [reflexivity|].
    simpl. rewrite Z.mul_0_r, Z.add_0_r. exact Hi.
  - destruct Hi as (Ha & Hb & Hval & Hg & Hn).
    cbn [convertLoop]. rewrite valid_value by assumption.
    pose proof (agree_push _ _ _ Ha Hv) as Ha'.
    destruct (drain_spec _ _ (S (Z.to_nat (bits + fromBits))) Ha'
                (bits + fromBits) ret) as (b' & r' & Hd & Hi').
    + lia.
    + rewrite Nat2Z.inj_succ, Z2Nat.id by lia. nia.
    + lia.
    + rewrite Hval. unfold push.
      rewrite Z.pow_add_r by lia.
      rewrite (Z.mul_comm (2 ^ bits)), <- Z.div_div by lia.
      rewrite Z.div_add_l by lia.
      rewrite (Z.div_small v) by lia. f_equal. lia.
    + assumption.
    + rewrite Hd.
      destruct (IH _ _ _ _ _ Hi') as (a'' & b'' & r'' & Hc & Hi'').
      exists a'', b'', r''. split; [exact Hc|].
      cbn [fold_left length]. rewrite Nat2Z.inj_succ.
      replace (n + fromBits * Z.succ (Z.of_nat (length rest)))
        with (toBits * Z.of_nat (length ret) + (bits + fromBits)
              + fromBits * Z.of_nat (length rest)) by lia.
      exact Hi''.
Qed.

(** [convertBits] on well-formed groups, in terms of the final state of
    its loop. *)
Lemma convertBits_spec data :
  groups fromBits data -> toBits <= 30 ->
  exists acc bits ret,
    loop_inv toBits (val fromBits data) acc bits ret (fromBits * Z.of_nat (length data)) /\
    forall pad,
      convertBits data fromBits toBits pad =
      let last := (val fromBits data * 2 ^ (toBits - bits)) mod 2 ^ toBits in
      if pad then Ok (if bits >? 0 then ret ++ [last] else ret)
      else if (bits >=? fromBits) || negb (last =? 0)
           then Throw "Invalid padding" else Ok ret.
Proof.
  intros Hd Ht.
  assert (Hi0 : loop_inv toBits 0 0 0 [] 0).
  { split; [intros i _; reflexivity|].
    split; [lia|]. split; [reflexivity|].
    split; [constructor|simpl; lia]. }
  destruct (convertLoop_spec data Hd _ _ _ _ _ Hi0) as (acc & bits & ret & Hc & Hi).
  exists acc, bits, ret. split; [exact Hi|].
  intros pad. unfold convertBits. rewrite shl_one by lia. fold maxv.
  rewrite Hc. cbn [bind].
  destruct Hi as (Ha & Hb & _).
  rewrite pad_spec with (A := val fromBits data) by (assumption || lia).
  cbv zeta. destruct pad; [|reflexivity].
  destruct (bits >? 0); reflexivity.
Qed.

End ConvertBitsExact.

(** With padding, the groups denote the input shifted left by the pad. *)
Lemma convertBits_pad_spec fromBits toBits data :
  0 < fromBits -> 0 < toBits -> fromBits + toBits <= 32 -> toBits <= 30 ->
  groups fromBits data ->
  exists w p,
    Bech32.convertBits data fromBits toBits true = Ok w /\
    groups toBits w /\ 0 <= p < toBits /\
    val toBits w = val fromBits data * 2 ^ p /\
    toBits * Z.of_nat (length w) = fromBits * Z.of_nat (length data) + p.
Proof.
  intros Hf Ht Hw Ht' Hd.
  destruct (convertBits_spec fromBits toBits Hf Ht Hw data Hd Ht')
    as (acc & bits & ret & (Ha & Hb & Hv & Hg & Hn) & Hc).
  rewrite Hc. cbv zeta.
  set (A := val fromBits data) in *.
  destruct (Z.gtb_spec bits 0) as [Hpos|Hz].
  - exists (ret ++ [(A * 2 ^ (toBits - bits)) mod 2 ^ toBits]), (toBits - bits).
    pose proof (Z.pow_pos_nonneg 2 toBits ltac:(lia) ltac:(lia)) as Hpt.
    pose proof (Z.pow_pos_nonneg 2 bits ltac:(lia) ltac:(lia)) as Hpb.
    pose proof (Z.pow_pos_nonneg 2 (toBits - bits) ltac:(lia) ltac:(lia)) as Hpp.
    assert (Hsplit : 2 ^ toBits = 2 ^ bits * 2 ^ (toBits - bits)).
    { rewrite <- Z.pow_add_r by lia. f_equal. lia. }
    pose proof (Z.div_mod A (2 ^ bits) ltac:(lia)) as HA.
    pose proof (Z.mod_pos_bound A (2 ^ bits) Hpb) as Hr.
    assert (Hlast : (A * 2 ^ (toBits - bits)) mod 2 ^ toBits
                    = A mod 2 ^ bits * 2 ^ (toBits - bits)).
    { replace (A * 2 ^ (toBits - bits))
        with (A mod 2 ^ bits * 2 ^ (toBits - bits) + A / 2 ^ bits * 2 ^ toBits)
        by (rewrite Hsplit; nia).
      rewrite Z_mod_plus_full. apply Z.mod_small. nia. }
    split; [reflexivity|]. split; [|split; [lia|split]].
    + apply Forall_app; split; [assumption|].
      constructor; [|constructor]. apply Z.mod_pos_bound. lia.
    + rewrite val_snoc, Hv, Hlast, Hsplit. nia.
    + rewrite length_app. simpl. lia.
  - exists ret, 0. assert (bits = 0) as -> by lia.
    split; [reflexivity|]. split; [assumption|]. split; [lia|]. split; [|lia].
    rewrite Hv. rewrite Z.pow_0_r, Z.div_1_r. lia.
Qed.

(** C8.  Round trip of the bit regrouping: for every list of bytes [b],
    [convertBits(b, 8, 5, true)] returns a list [w] of 5-bit groups without
    raising, and [convertBits(w, 5, 8, false)] returns [b] without raising. *)
Theorem convertBits_roundtrip (b : list Z) :
  Forall (fun x => 0 <= x <= 255) b ->
  exists w,
    Bech32.convertBits b 8 5 true = Ok w /\
    Bech32.convertBits w 5 8 false = Ok b.
Proof.
  intros Hb.
  assert (Hg : groups 8 b).
  { eapply Forall_impl; [|exact Hb]. simpl. intros x Hx. lia. }
  destruct (convertBits_pad_spec 8 5 b) as (w & p & Hw & Hgw & Hp & Hv & Hlen);
    try lia; [assumption|].
  exists w. split; [exact Hw|].
  destruct (convertBits_spec 5 8 ltac:(lia) ltac:(lia) ltac:(lia) w Hgw ltac:(lia))
    as (acc & bits & ret & (Ha & Hbits & Hvr & Hgr & Hn) & Hc).
  rewrite Hc. cbv zeta.
  assert (bits = p) as -> by lia.
  assert (Hl : length ret = length b) by lia.
  pose proof (Z.pow_pos_nonneg 2 p ltac:(lia) ltac:(lia)) as Hpp.
  rewrite Hv in *.
  replace (val 8 b * 2 ^ p * 2 ^ (8 - p)) with (val 8 b * 2 ^ 8).
  2:{ rewrite <- Z.mul_assoc, <- Z.pow_add_r by lia. do 2 f_equal. lia. }
  rewrite Z_mod_mult.
  destruct (Z.geb_spec p 5); [lia|]. simpl.
  f_equal. apply (val_inj 8); try assumption; try lia.
  rewrite Hvr. apply Z.div_mul. lia.
Qed.

Lemma convertBits_roundtrip_witness :
  exists w,
    Bech32.convertBits [2; 121; 190; 102; 126] 8 5 true = Ok w /\
    Bech32.convertBits w 5 8 false = Ok [2; 121; 190; 102; 126].
Proof.
  apply convertBits_roundtrip.
  repeat (constructor; [lia|]). constructor.
Defined.

(** ** Modular arithmetic: [mod] and [modInverse] *)

Section Modular.
Import Crypto.

(** [mod] is the mathematical modulo for a positive modulus. *)
Lemma mod_spec a m : 0 < m -> mod_ a m = a mod m.
Proof.
  intros Hm. unfold mod_.
  pose proof (Z.quot_rem a m ltac:(lia)) as Hqr.
  pose proof (Z.rem_bound_abs a m ltac:(lia)) as Hb.
  cbv zeta. destruct (Z.geb_spec (Z.rem a m) 0).
  - apply Z.mod_unique with (a ÷ m); lia.
  - apply Z.mod_unique with (a ÷ m - 1); lia.
Qed.

Lemma mod_range a m : 0 < m -> 0 <= mod_ a m < m.
Proof. intros Hm. rewrite mod_spec by assumption. apply Z.mod_pos_bound. lia. Qed.

(** The loop of [modInverse] stops before its fuel runs out: [low * high]
    at least halves at each turn. *)
Lemma inverseLoop_terminates fuel :
  forall lm hm low high,
    0 <= low < high -> low * high < 2 ^ Z.of_nat fuel ->
    inverseLoop fuel lm hm low high <> None.
Proof.
  induction fuel as [|fuel IH]; intros lm hm low high Hlh Hf.
  - simpl. destruct (Z.gtb_spec low 1); [|discriminate].
    change (2 ^ Z.of_nat 0) with 1 in Hf. nia.
  - cbn [inverseLoop]. destruct (Z.gtb_spec low 1); [|discriminate].
    rewrite Z.quot_div_nonneg by lia.
    pose proof (Z.div_mod high low ltac:(lia)) as Hdm.
    pose proof (Z.mod_pos_bound high low ltac:(lia)) as Hr.
    replace (high - low * (high / low)) with (high mod low) by lia.
    apply IH; [lia|].
    rewrite Nat2Z.inj_succ, Z.pow_succ_r in Hf by lia.
    assert (1 <= high / low) by (apply Z.div_le_lower_bound; lia).
    nia.
Qed.

(** What the loop returns: a Bezout coefficient of [a] when [a] and [m]
    are coprime. *)
Lemma inverseLoop_spec a m fuel :
  forall lm hm low high lm',
    0 <= low < high -> 1 < high ->
    (m | lm * a - low) -> (m | hm * a - high) ->
    Z.gcd high low = 1 ->
    inverseLoop fuel lm hm low high = Some lm' ->
    (m | lm' * a - 1).
Proof.
  induction fuel as [|fuel IH]; intros lm hm low high lm' Hlh Hh Hl Hm Hg Hloop.
  - simpl in Hloop. destruct (Z.gtb_spec low 1); [discriminate|].
    inversion Hloop; subst lm'.
    assert (low = 1) as ->; [|assumption].
    destruct (Z.eq_dec low 0) as [->|]; [|lia].
    rewrite Z.gcd_0_r in Hg. lia.
  - cbn [inverseLoop] in Hloop. destruct (Z.gtb_spec low 1).
    + rewrite Z.quot_div_nonneg in Hloop by lia.
      pose proof (Z.div_mod high low ltac:(lia)) as Hdm.
      pose proof (Z.mod_pos_bound high low ltac:(lia)) as Hr.
      replace (high - low * (high / low)) with (high mod low) in Hloop by lia.
      eapply IH; [| |  | |  |exact Hloop]; try lia.
      * replace ((hm - lm * (high / low)) * a - high mod low)
          with ((hm * a - high) - (high / low) * (lm * a - low)) by lia.
        apply Z.divide_sub_r; [assumption|].
        apply Z.divide_mul_r. assumption.
      * assumption.
      * rewrite Z.gcd_comm, Z.gcd_mod_l. assumption.
    + inversion Hloop; subst lm'.
      assert (low = 1) as ->; [|assumption].
      destruct (Z.eq_dec low 0) as [->|]; [|lia].
      rewrite Z.gcd_0_r in Hg. lia.
Qed.

Lemma modInverse_zero a m : 0 < m -> a mod m = 0 -> modInverse a m = 0.
Proof.
  intros Hm Ha. unfold modInverse. rewrite mod_spec by assumption.
  rewrite Ha. reflexivity.
Qed.

Lemma modInverse_range a m : 0 < m -> 0 <= modInverse a m < m.
Proof.
  intros Hm. unfold modInverse. cbv zeta.
  destruct (mod_ a m =? 0); [lia|].
  destruct (inverseLoop _ _ _ _ _); [apply mod_range; assumption|lia].
Qed.

Lemma modInverse_correct a m :
  2 <= m -> Z.gcd a m = 1 -> (a * modInverse a m) mod m = 1.
Proof.
  intros Hm Hg. unfold modInverse. cbv zeta.
  rewrite !mod_spec by lia. rewrite Z.mod_mod by lia.
  pose proof (Z.mod_pos_bound a m ltac:(lia)) as Hr.
  destruct (Z.eqb_spec (a mod m) 0) as [H0|Hn0].
  { rewrite <- Z.gcd_mod_l, H0, Z.gcd_0_l in Hg. lia. }
  destruct (inverseLoop _ _ _ _ _) as [lm|] eqn:Hloop.
  - rewrite mod_spec by lia.
    apply inverseLoop_spec with (a := a) (m := m) in Hloop; try lia.
    + rewrite Z.mul_mod_idemp_r by lia.
      destruct Hloop as [k Hk].
      replace (a * lm) with (1 + k * m) by lia.
      rewrite Z_mod_plus_full. apply Z.mod_small. lia.
    + replace (1 * a - a mod m) with (m * (a / m))
        by (pose proof (Z.div_mod a m ltac:(lia)); lia).
      apply Z.divide_factor_l.
    + replace (0 * a - m) with (m * -1) by lia. apply Z.divide_factor_l.
    + rewrite Z.gcd_comm, Z.gcd_mod_l. assumption.
  - exfalso. revert Hloop. apply inverseLoop_terminates; [lia|].
    rewrite Nat2Z.inj_succ, Z2Nat.id by apply Z.log2_nonneg.
    apply Z.log2_spec. nia.
Qed.

(** C9.  For every modulus [m >= 2]: [modInverse(a, m)] is [0] when [a] is
    congruent to [0] modulo [m]; and when [gcd(a, m) = 1] it is the inverse
    of [a], [mod(a * modInverse(a, m), m) = 1], and lies in [[0, m)]. *)
Theorem modInverse_inverse (a m : Z) :
  2 <= m ->
  (a mod m = 0 -> modInverse a m = 0) /\
  (Z.gcd a m = 1 ->
   mod_ (a * modInverse a m) m = 1 /\ 0 <= modInverse a m < m).
Proof.
  intros Hm. split.
  - apply modInverse_zero. lia.
  - intros Hg. split.
    + rewrite mod_spec by lia. apply modInverse_correct; assumption.
    + apply modInverse_range. lia.
Qed.

Lemma modInverse_inverse_witness :
  modInverse 52 26 = 0 /\
  (mod_ (-21 * modInverse (-21) 26) 26 = 1 /\ 0 <= modInverse (-21) 26 < 26).
Proof.
  split.
  - apply (modInverse_inverse 52 26); [lia|reflexivity].
  - apply (modInverse_inverse (-21) 26); [lia|reflexivity].
Defined.

End Modular.

(** ** Soundness of the primality certificates *)

Section Primality.

Lemma powB_spec b e m :
  BigZ.to_Z (powB b e m) = BigZ.to_Z b ^ Z.pos e mod BigZ.to_Z m.
Proof.
  induction e as [e IH|e IH|]; cbn [powB].
  - rewrite BigZ.spec_modulo, BigZ.spec_mul, BigZ.spec_modulo, BigZ.spec_mul, IH.
    rewrite Pos2Z.inj_xI, Z.pow_add_r, Z.pow_twice_r, Z.pow_1_r by lia.
    rewrite <- Zmult_mod, Zmult_mod_idemp_l. reflexivity.
  - rewrite BigZ.spec_modulo, BigZ.spec_mul, IH.
    rewrite Pos2Z.inj_xO, Z.pow_twice_r.
    rewrite <- Zmult_mod. reflexivity.
  - rewrite BigZ.spec_modulo. rewrite Z.pow_1_r. reflexivity.
Qed.

Lemma powmod_spec a e n : 0 < e -> powmod a e n = a ^ e mod n.
Proof.
  intros He. unfold powmod. rewrite powB_spec, !BigZ.spec_of_Z.
  rewrite Z2Pos.id by assumption. reflexivity.
Qed.

Lemma gcdB_spec x y : gcdB x y = Z.gcd x y.
Proof. unfold gcdB. rewrite BigZ.spec_gcd, !BigZ.spec_of_Z. reflexivity. Qed.

Lemma prime_divisor n : 1 < n -> exists p, Z.prime p /\ (p | n).
Proof.
  intros Hn. assert (H0 : 0 <= n) by lia. revert Hn.
  pattern n. apply Z_lt_induction; [|exact H0].
  clear n H0. intros n IH Hn.
  destruct (prime_dec n) as [Hp|Hnp].
  - exists n. split; [apply prime_alt; exact Hp|apply Z.divide_refl].
  - destruct (not_prime_divide n Hn Hnp) as (d & Hd & Hdn).
    destruct (IH d ltac:(lia) ltac:(lia)) as (p & Hp & Hpd).
    exists p. split; [exact Hp|]. eapply Z.divide_trans; eassumption.
Qed.

(** A composite number has a prime factor below its square root. *)
Lemma small_prime_divisor n :
  1 < n -> ~ Z.prime n -> exists p, Z.prime p /\ (p | n) /\ p * p <= n.
Proof.
  intros Hn Hnp.
  destruct (not_prime_divide n Hn) as (d & Hd & e & He).
  { intros H. apply Hnp, prime_alt, H. }
  assert (1 < e) by nia.
  destruct (Z_le_gt_dec d e).
  - destruct (prime_divisor d ltac:(lia)) as (p & Hp & Hpd).
    exists p. split; [exact Hp|]. split.
    + apply Z.divide_trans with d; [exact Hpd|]. exists e. exact He.
    + pose proof (Z.divide_pos_le p d ltac:(lia) Hpd).
      pose proof (Z.prime_ge_2 _ Hp).
      assert (p * p <= d * d) by (apply Z.mul_le_mono_nonneg; lia).
      assert (d * d <= e * d) by (apply Z.mul_le_mono_nonneg_r; lia).
      lia.
  - destruct (prime_divisor e ltac:(lia)) as (p & Hp & Hpe).
    exists p. split; [exact Hp|]. split.
    + apply Z.divide_trans with e; [exact Hpe|]. exists d. lia.
    + pose proof (Z.divide_pos_le p e ltac:(lia) Hpe).
      pose proof (Z.prime_ge_2 _ Hp).
      assert (p * p <= e * e) by (apply Z.mul_le_mono_nonneg; lia).
      assert (e * e <= e * d) by (apply Z.mul_le_mono_nonneg_l; lia).
      lia.
Qed.

(** The exponents of [a] that give [1] modulo [p] are closed under gcd. *)
Lemma pow_one_gcd a p y :
  1 < p -> 0 <= y ->
  forall x, 0 <= x -> a ^ x mod p = 1 -> a ^ y mod p = 1 ->
            a ^ Z.gcd x y mod p = 1.
Proof.
  intros Hp Hy. pattern y. apply Z_lt_induction; [|exact Hy].
  clear y Hy. intros y IH x Hx Hax Hay.
  destruct (Z.eq_dec y 0) as [->|Hy0].
  - rewrite Z.gcd_0_r, Z.abs_eq by lia. exact Hax.
  - assert (Hy : 0 < y).
    { destruct (Z_lt_le_dec y 0); [|lia].
      rewrite Z.pow_neg_r, Z.mod_0_l in Hay by lia. discriminate. }
    pose proof (Z.mod_pos_bound x y Hy) as Hr.
    pose proof (Z.div_mod x y ltac:(lia)) as Hdm.
    assert (Hq : 0 <= x / y) by (apply Z.div_pos; lia).
    rewrite Z.gcd_comm, <- (Z.gcd_mod_r y x).
    apply IH; try lia.
    rewrite Hdm, Z.pow_add_r, Z.pow_mul_r in Hax by lia.
    rewrite Zmult_mod, <- Z.mod_pow_l, Hay, Z.pow_1_l in Hax by lia.
    rewrite Z.mod_1_l, Z.mul_1_l, Zmod_mod in Hax by lia.
    exact Hax.
Qed.

Lemma pow_one_multiple a p g M :
  1 < p -> 0 <= g -> 0 <= M -> (g | M) -> a ^ g mod p = 1 -> a ^ M mod p = 1.
Proof.
  intros Hp Hg HM [t Ht] Hag. subst M.
  destruct (Z.eq_dec g 0) as [->|Hg0].
  - rewrite Z.mul_0_r. exact Hag.
  - assert (0 <= t) by nia.
    rewrite Z.mul_comm, Z.pow_mul_r by lia.
    rewrite <- Z.mod_pow_l, Hag, Z.pow_1_l by lia.
    apply Z.mod_1_l. lia.
Qed.

(** The heart of Pocklington's criterion: a prime factor [q] of [n - 1]
    with a witness divides [p - 1] for every prime factor [p] of [n]. *)
Lemma pock_divides n a q p :
  1 < n -> Z.prime q -> (q | n - 1) ->
  a ^ (n - 1) mod n = 1 ->
  Z.gcd (a ^ ((n - 1) / q) mod n - 1) n = 1 ->
  Z.prime p -> (p | n) -> (q | p - 1).
Proof.
  intros Hn Hq Hqn Han Hgcd Hp Hpn.
  pose proof (Z.prime_ge_2 _ Hp) as Hp2.
  pose proof (Z.prime_ge_2 _ Hq) as Hq2.
  assert (Hap : a ^ (n - 1) mod p = 1).
  { rewrite <- (Z.mod_mod_divide _ n p Hpn), Han. apply Z.mod_1_l. lia. }
  assert (Ha : a mod p <> 0).
  { intros H0. rewrite <- Z.mod_pow_l, H0, Z.pow_0_l, Z.mod_0_l in Hap by lia.
    discriminate. }
  pose proof (Z.fermat_nz p a Hp Ha) as Hf.
  set (g := Z.gcd (n - 1) (p - 1)).
  assert (Hg : a ^ g mod p = 1) by (apply pow_one_gcd; (assumption || lia)).
  destruct (Z.BoolSpec_divide q g) as [Hqg|Hnqg].
  - apply Z.divide_trans with g; [exact Hqg|apply Z.gcd_divide_r].
  - exfalso.
    assert (HM : n - 1 = q * ((n - 1) / q)).
    { apply Z_div_exact_full_2; [lia|]. apply Z.mod0_divide. exact Hqn. }
    set (M := (n - 1) / q) in *.
    assert (0 <= M) by (apply Z.div_pos; lia).
    assert (HgM : (g | M)).
    { apply Z.gauss with q.
      - rewrite <- HM. apply Z.gcd_divide_l.
      - rewrite Z.gcd_comm. apply Z.coprime_prime_l; assumption. }
    assert (HaM : a ^ M mod p = 1).
    { apply pow_one_multiple with g; try assumption; try lia. apply Z.gcd_nonneg. }
    assert (Hdiv : (p | a ^ M mod n - 1)).
    { apply Zmod_divide_minus; [lia|].
      rewrite (Z.mod_mod_divide _ n p Hpn), HaM. reflexivity. }
    pose proof (Z.gcd_greatest _ _ _ Hdiv Hpn) as H1.
    rewrite Hgcd in H1. apply Z.divide_1_r_nonneg in H1; lia.
Qed.

Lemma zprod_primes_pos qs : Forall Z.prime qs -> 0 < zprod qs.
Proof.
  induction 1 as [|q r Hq _ IH]; simpl; [lia|].
  pose proof (Z.prime_ge_2 _ Hq). nia.
Qed.

Lemma in_zprod_divide q qs : In q qs -> (q | zprod qs).
Proof.
  induction qs as [|x r IH]; simpl; [tauto|].
  intros [->|Hin].
  - apply Z.divide_factor_l.
  - apply Z.divide_mul_r. auto.
Qed.

Lemma prime_divides_zprod q qs :
  Z.prime q -> Forall Z.prime qs -> (q | zprod qs) -> In q qs.
Proof.
  intros Hq. induction 1 as [|x r Hx _ IH]; simpl; intros Hd.
  - apply Z.divide_1_r_nonneg in Hd; pose proof (Z.prime_ge_2 _ Hq); lia.
  - apply Z.divide_prime_mul in Hd as [Hd|Hd]; [|auto|exact Hq].
    left. symmetry. apply Z.divide_prime_prime; assumption.
Qed.

(** Distinct primes that divide [m] have a product that divides [m]. *)
Lemma zprod_divides qs m :
  Forall Z.prime qs -> NoDup qs -> Forall (fun q => (q | m)) qs ->
  (zprod qs | m).
Proof.
  intros Hp. induction Hp as [|q r Hq Hr IH]; intros Hnd Hdiv; simpl.
  - apply Z.divide_1_l.
  - inversion Hnd as [|? ? Hnotin Hnd']; subst.
    inversion Hdiv as [|? ? [k Hk] Hdiv']; subst.
    specialize (IH Hnd' Hdiv').
    assert (Hrk : (zprod r | k)).
    { apply Z.gauss with q.
      - rewrite Z.mul_comm. exact IH.
      - rewrite Z.gcd_comm. apply Z.coprime_prime_l; [exact Hq|].
        intros Hd. apply Hnotin. apply prime_divides_zprod; assumption. }
    destruct Hrk as [j ->]. exists j. ring.
Qed.

Theorem pocklington n a qs :
  1 < n -> Forall Z.prime qs -> NoDup qs ->
  (zprod qs | n - 1) -> n < zprod qs * zprod qs ->
  a ^ (n - 1) mod n = 1 ->
  Forall (fun q => Z.gcd (a ^ ((n - 1) / q) mod n - 1) n = 1) qs ->
  Z.prime n.
Proof.
  intros Hn Hqs Hnd HF Hsq Han Hw.
  destruct (prime_dec n) as [Hp|Hnp]; [apply prime_alt; exact Hp|exfalso].
  destruct (small_prime_divisor n Hn) as (p & Hp & Hpn & Hpp).
  { intros H. apply Hnp, prime_alt, H. }
  pose proof (Z.prime_ge_2 _ Hp) as Hp2.
  assert (Hall : Forall (fun q => (q | p - 1)) qs).
  { rewrite Forall_forall in *. intros q Hin.
    apply pock_divides with n a; auto.
    apply Z.divide_trans with (zprod qs); [|exact HF].
    apply in_zprod_divide. exact Hin. }
  pose proof (zprod_divides qs (p - 1) Hqs Hnd Hall) as Hd.
  pose proof (Z.divide_pos_le (zprod qs) (p - 1) ltac:(lia) Hd).
  pose proof (zprod_primes_pos qs Hqs). nia.
Qed.

Lemma trial_spec fuel :
  forall d n, trial fuel d n = true ->
              forall k, d <= k < d + Z.of_nat fuel -> n mod k <> 0.
Proof.
  induction fuel as [|fuel IH]; intros d n Ht k Hk; [lia|].
  cbn [trial] in Ht. apply andb_prop in Ht as [Hd Ht].
  destruct (Z.eq_dec k d) as [->|Hne].
  - destruct (Z.eqb_spec (n mod d) 0); [discriminate|assumption].
  - apply (IH (d + 1) n Ht). lia.
Qed.

Lemma small_prime_sound n : small_prime n = true -> Z.prime n.
Proof.
  unfold small_prime. intros H. apply andb_prop in H as [Hn Ht].
  apply Z.ltb_lt in Hn. split; [exact Hn|].
  intros k Hk Hdiv.
  apply (trial_spec _ _ _ Ht k); [lia|].
  apply Z.mod0_divide. exact Hdiv.
Qed.

Lemma increasing_spec l :
  forall lo, increasing lo l = true -> Forall (fun x => lo < x) l /\ NoDup l.
Proof.
  induction l as [|x r IH]; intros lo H; simpl in H.
  - split; constructor.
  - apply andb_prop in H as [Hlo Hr]. apply Z.ltb_lt in Hlo.
    destruct (IH x Hr) as [Hall Hnd]. split.
    + constructor; [exact Hlo|].
      eapply Forall_impl; [|exact Hall]. simpl. intros; lia.
    + constructor; [|exact Hnd].
      intros Hin. rewrite Forall_forall in Hall. specialize (Hall x Hin). lia.
Qed.

Lemma pock_check_sound n a qs :
  Forall Z.prime qs -> NoDup qs -> pock_check n a qs = true -> Z.prime n.
Proof.
  intros Hqs Hnd H. unfold pock_check in H. cbv zeta in H.
  repeat (apply andb_prop in H as [H ?]).
  apply Z.ltb_lt in H.
  match goal with Hm : (_ mod _ =? 0) = true |- _ => apply Z.eqb_eq in Hm; rename Hm into HF end.
  match goal with Hm : (_ <? _ * _) = true |- _ => apply Z.ltb_lt in Hm; rename Hm into Hsq end.
  match goal with Hm : (powmod _ _ _ =? 1) = true |- _ => apply Z.eqb_eq in Hm; rename Hm into Han end.
  match goal with Hm : forallb _ _ = true |- _ => rename Hm into Hw end.
  pose proof (zprod_primes_pos qs Hqs) as HFpos.
  assert (HFd : (zprod qs | n - 1)) by (apply Z.mod_divide; [lia|exact HF]).
  apply pocklington with a qs; try assumption.
  - rewrite <- powmod_spec by lia. exact Han.
  - rewrite forallb_forall in Hw. apply Forall_forall. intros q Hin.
    specialize (Hw q Hin). apply Z.eqb_eq in Hw.
    rewrite gcdB_spec, powmod_spec in Hw; [exact Hw|].
    rewrite Forall_forall in Hqs. pose proof (Z.prime_ge_2 _ (Hqs q Hin)).
    assert (Hqd : (q | n - 1)).
    { apply Z.divide_trans with (zprod qs); [|exact HFd].
      apply in_zprod_divide. exact Hin. }
    pose proof (Z.divide_pos_le q (n - 1) ltac:(lia) Hqd).
    apply Z.div_str_pos. lia.
Qed.

Lemma chain_check_sound certs :
  forall known,
    Forall Z.prime known -> chain_check known certs = true ->
    Forall (fun c => Z.prime (fst (fst c))) certs.
Proof.
  induction certs as [|[[n a] qs] rest IH]; intros known Hk H; [constructor|].
  cbn [chain_check] in H.
  repeat (apply andb_prop in H as [H ?]).
  assert (Hqs : Forall Z.prime qs).
  { apply Forall_forall. intros q Hin.
    rewrite forallb_forall in H. specialize (H q Hin).
    apply existsb_exists in H as (k & Hkin & Heq).
    apply Z.eqb_eq in Heq. subst k.
    rewrite Forall_forall in Hk. auto. }
  assert (Hn : Z.prime n).
  { apply pock_check_sound with a qs; try assumption.
    match goal with Hi : increasing _ _ = true |- _ =>
      apply increasing_spec in Hi; tauto end. }
  constructor; [exact Hn|].
  apply IH with (n :: known); [constructor; assumption|assumption].
Qed.

Lemma certificate_primes :
  Forall (fun c => Z.prime (fst (fst c))) certificate.
Proof.
  apply chain_check_sound with trial_primes.
  - apply Forall_forall. intros p Hin. apply small_prime_sound.
    revert p Hin. apply forallb_forall. vm_compute. reflexivity.
  - vm_compute. reflexivity.
Qed.

Lemma P_prime : Z.prime Crypto.P.
Proof.
  pose proof certificate_primes as H. rewrite Forall_forall in H.
  apply (H (Crypto.P, 2,
            [205115282021455665897114700593932402728804164701536103180137503955397371])).
  unfold certificate. simpl. tauto.
Qed.

Lemma N_prime : Z.prime Crypto.N.
Proof.
  pose proof certificate_primes as H. rewrite Forall_forall in H.
  apply (H (Crypto.N, 2,
            [174723607534414371449; 341948486974166000522343609283189])).
  unfold certificate. simpl. tauto.
Qed.

End Primality.

(** ** Point addition on the curve *)

(** Divisibility of a sum of products, from divisibility of a factor of
    each term. *)
Ltac divide_terms :=
  match goal with
  | H : (_ | _) |- (_ | _) => exact H
  | |- (_ | _ + _) => apply Z.divide_add_r; divide_terms
  | |- (_ | _ - _) => apply Z.divide_sub_r; divide_terms
  | |- (_ | _ * _) =>
      first [ apply Z.divide_mul_l; divide_terms
            | apply Z.divide_mul_r; divide_terms ]
  end.

Section Curve.
Import Crypto.

Lemma P_pos : 0 < P.
Proof. reflexivity. Qed.

Lemma mod_P_divide a : (P | mod_ a P - a).
Proof.
  rewrite mod_spec by apply P_pos.
  exists (- (a / P)). pose proof (Z.div_mod a P). pose proof P_pos. lia.
Qed.

Lemma divide_P_eq a b :
  0 <= a < P -> 0 <= b < P -> (P | a - b) -> a = b.
Proof.
  intros Ha Hb [k Hk].
  assert (k = 0) by nia. lia.
Qed.

(** Every residue that [P] does not divide has [modInverse] as inverse. *)
Lemma modInverse_P a : ~ (P | a) -> (P | a * modInverse a P - 1).
Proof.
  intros Hna. pose proof P_pos.
  apply Zmod_divide_minus; [assumption|].
  apply modInverse_correct; [apply Z.prime_ge_2, P_prime|].
  rewrite Z.gcd_comm. apply Z.coprime_prime_l; [apply P_prime|assumption].
Qed.

Lemma not_divide_P a : 0 < a < P -> ~ (P | a).
Proof.
  intros Ha Hd. apply Z.divide_pos_le in Hd; lia.
Qed.

(** The slope of the chord through two points with distinct abscissas. *)
Lemma chord_slope x1 y1 x2 y2 :
  ~ (P | x2 - x1) ->
  let s := mod_ (mod_ (y2 - y1) P * modInverse (mod_ (x2 - x1) P) P) P in
  (P | s * (x2 - x1) - (y2 - y1)).
Proof.
  intros Hd s.
  pose proof (mod_P_divide (y2 - y1)) as Ha.
  pose proof (mod_P_divide (x2 - x1)) as Hd'.
  assert (Hinv : (P | mod_ (x2 - x1) P * modInverse (mod_ (x2 - x1) P) P - 1)).
  { apply modInverse_P. intros H. apply Hd.
    replace (x2 - x1) with (mod_ (x2 - x1) P - (mod_ (x2 - x1) P - (x2 - x1))) by ring.
    apply Z.divide_sub_r; assumption. }
  pose proof (mod_P_divide (mod_ (y2 - y1) P * modInverse (mod_ (x2 - x1) P) P)) as Hs.
  fold s in Hs.
  set (a' := mod_ (y2 - y1) P) in *. set (d' := mod_ (x2 - x1) P) in *.
  set (inv := modInverse d' P) in *.
  replace (s * (x2 - x1) - (y2 - y1))
    with ((s - a' * inv) * (x2 - x1) + a' * (d' * inv - 1)
          - a' * inv * (d' - (x2 - x1)) + (a' - (y2 - y1))) by ring.
  divide_terms.
Qed.

(** The slope of the tangent at a point with a non-zero ordinate. *)
Lemma tangent_slope x1 y1 :
  ~ (P | 2 * y1) ->
  let s := mod_ (mod_ (3 * x1 * x1) P * modInverse (2 * y1) P) P in
  (P | s * (2 * y1) - 3 * x1 * x1).
Proof.
  intros Hy s.
  pose proof (mod_P_divide (3 * x1 * x1)) as Ha.
  pose proof (modInverse_P (2 * y1) Hy) as Hinv.
  pose proof (mod_P_divide (mod_ (3 * x1 * x1) P * modInverse (2 * y1) P)) as Hs.
  fold s in Hs.
  set (a' := mod_ (3 * x1 * x1) P) in *.
  set (inv := modInverse (2 * y1) P) in *.
  replace (s * (2 * y1) - 3 * x1 * x1)
    with ((s - a' * inv) * (2 * y1) + a' * (2 * y1 * inv - 1)
          + (a' - 3 * x1 * x1)) by ring.
  divide_terms.
Qed.

(** The third point of the chord is on the curve. *)
Lemma chord_on_curve x1 y1 x2 y2 s x3 y3 :
  (P | y1 * y1 - (x1 * x1 * x1 + 7)) ->
  (P | y2 * y2 - (x2 * x2 * x2 + 7)) ->
  ~ (P | x2 - x1) ->
  (P | s * (x2 - x1) - (y2 - y1)) ->
  (P | x3 - (s * s - x1 - x2)) ->
  (P | y3 - (s * (x1 - x3) - y1)) ->
  (P | y3 * y3 - (x3 * x3 * x3 + 7)).
Proof.
  intros Hc1 Hc2 Hd Hu He Hy.
  set (c1 := y1 * y1 - (x1 * x1 * x1 + 7)) in *.
  set (c2 := y2 * y2 - (x2 * x2 * x2 + 7)) in *.
  set (u := s * (x2 - x1) - (y2 - y1)) in *.
  set (e := x3 - (s * s - x1 - x2)) in *.
  set (v := y3 - (s * (x1 - x3) - y1)) in *.
  set (Y := s * (x1 - x3) - y1).
  assert (HT : (P | Y * Y - (x3 * x3 * x3 + 7))).
  { apply Z.gauss with (x2 - x1).
    - replace ((x2 - x1) * (Y * Y - (x3 * x3 * x3 + 7)))
        with (e * (- ((x2 - x1) * (x3 - x1) * (x3 - x2))) + c1 * (x2 - x1)
              + (c2 + u * (2 * y2) + u * u - c1) * (x3 - x1))
        by (unfold Y, e, c1, c2, u; ring).
      divide_terms.
    - apply Z.coprime_prime_l; [apply P_prime|assumption]. }
  replace (y3 * y3 - (x3 * x3 * x3 + 7))
    with (v * (y3 + Y) + (Y * Y - (x3 * x3 * x3 + 7)))
    by (unfold v, Y; ring).
  divide_terms.
Qed.

(** The second point of the tangent is on the curve. *)
Lemma tangent_on_curve x1 y1 s x3 y3 :
  (P | y1 * y1 - (x1 * x1 * x1 + 7)) ->
  (P | s * (2 * y1) - 3 * x1 * x1) ->
  (P | x3 - (s * s - 2 * x1)) ->
  (P | y3 - (s * (x1 - x3) - y1)) ->
  (P | y3 * y3 - (x3 * x3 * x3 + 7)).
Proof.
  intros Hc1 Ht He Hy.
  set (c1 := y1 * y1 - (x1 * x1 * x1 + 7)) in *.
  set (t := s * (2 * y1) - 3 * x1 * x1) in *.
  set (e := x3 - (s * s - 2 * x1)) in *.
  set (v := y3 - (s * (x1 - x3) - y1)) in *.
  set (Y := s * (x1 - x3) - y1).
  replace (y3 * y3 - (x3 * x3 * x3 + 7))
    with (v * (y3 + Y) + (e * (- ((x3 - x1) * (x3 - x1))) + c1 + t * (x3 - x1)))
    by (unfold v, Y, e, c1, t; ring).
  divide_terms.
Qed.

(** [-7] is not a cube modulo [P], so no point of the curve has a zero
    ordinate: the doubling branch never divides by zero. *)
Lemma no_cube_root x : ~ (P | x * x * x + 7).
Proof.
  intros Hx. pose proof P_pos as HP.
  assert (Hx0 : x mod P <> 0).
  { intros H0. apply Z.mod_divide in H0; [|lia].
    assert (H7 : (P | 7)).
    { replace 7 with (x * x * x + 7 - x * x * x) by ring.
      apply Z.divide_sub_r; [assumption|]. apply Z.divide_mul_r. assumption. }
    apply Z.divide_pos_le in H7; [|lia]. revert H7. vm_compute. auto. }
  pose proof (Z.fermat_nz P x P_prime Hx0) as Hf.
  set (E := (P - 1) / 3) in *.
  assert (HE : P - 1 = 3 * E) by reflexivity.
  assert (H3 : (x ^ 3) mod P = (-7) mod P).
  { replace (x ^ 3) with ((x * x * x + 7) + -7) by ring.
    rewrite <- Z.add_mod_idemp_l by lia.
    rewrite (Z.mod0_divide _ _ Hx). reflexivity. }
  rewrite HE, Z.pow_mul_r in Hf by (vm_compute; discriminate).
  rewrite <- Z.mod_pow_l, H3, Z.mod_pow_l in Hf.
  rewrite <- powmod_spec in Hf by reflexivity.
  revert Hf. vm_compute. discriminate.
Qed.

Lemma ordinate_nonzero x y :
  0 <= y < P -> on_curve (Some (x, y)) -> ~ (P | 2 * y).
Proof.
  intros Hy Hc Hd. pose proof P_pos as HP.
  apply Z.divide_prime_mul in Hd as [H2|Hd]; [| |apply P_prime].
  - apply Z.divide_pos_le in H2; [|lia]. revert H2. vm_compute. auto.
  - assert (y = 0) as ->.
    { destruct (Z.eq_dec y 0); [assumption|].
      apply Z.divide_pos_le in Hd; lia. }
    simpl in Hc. apply (no_cube_root x).
    apply Z.mod_divide; [lia|]. rewrite <- Hc. apply Z.mod_0_l. lia.
Qed.

Lemma on_curve_divide x y :
  on_curve (Some (x, y)) <-> (P | y * y - (x * x * x + 7)).
Proof.
  pose proof P_pos as HP. simpl. split.
  - intros H. apply Z.mod_divide; [lia|].
    rewrite Zminus_mod, H, Z.sub_diag. apply Z.mod_0_l. lia.
  - intros [k Hk].
    replace (y * y) with (x * x * x + 7 + k * P) by lia.
    apply Z_mod_plus_full.
Qed.

(** The sum of two valid points is a valid point. *)
Lemma pointAdd_valid A B :
  valid_point A -> valid_point B -> valid_point (pointAdd A B).
Proof.
  pose proof P_pos as HP.
  destruct A as [[x1 y1]|]; [|intros _ H; exact H].
  destruct B as [[x2 y2]|]; [|intros H _; exact H].
  intros [[Hx1 Hy1] Hc1] [[Hx2 Hy2] Hc2]. unfold pointAdd.
  destruct (Z.eqb_spec x1 x2) as [Hxe|Hxne]; cbn [andb].
  - destruct (Z.eqb_spec y1 y2) as [Hye|Hyne]; [|split; exact I].
    subst x2 y2. cbv zeta. split.
    + split; apply mod_range; assumption.
    + apply on_curve_divide.
      eapply tangent_on_curve.
      * apply on_curve_divide. exact Hc1.
      * apply tangent_slope. apply (ordinate_nonzero x1); assumption.
      * apply mod_P_divide.
      * apply mod_P_divide.
  - cbv zeta. split.
    + split; apply mod_range; assumption.
    + assert (Hd : ~ (P | x2 - x1)).
      { intros Hd. apply Hxne. symmetry.
        apply divide_P_eq; assumption. }
      apply on_curve_divide.
      eapply chord_on_curve.
      * apply on_curve_divide. exact Hc1.
      * apply on_curve_divide. exact Hc2.
      * exact Hd.
      * apply chord_slope. exact Hd.
      * apply mod_P_divide.
      * apply mod_P_divide.
Qed.

(** Addition of reduced points with distinct abscissas commutes. *)
Lemma pointAdd_comm A B :
  reduced A -> reduced B -> pointAdd A B = pointAdd B A.
Proof.
  pose proof P_pos as HP.
  destruct A as [[x1 y1]|]; destruct B as [[x2 y2]|]; try reflexivity.
  intros [Hx1 Hy1] [Hx2 Hy2]. unfold pointAdd.
  rewrite (Z.eqb_sym x2 x1), (Z.eqb_sym y2 y1).
  destruct (Z.eqb_spec x1 x2) as [Hxe|Hxne]; cbn [andb].
  - destruct (Z.eqb_spec y1 y2) as [Hye|Hyne]; [|reflexivity].
    subst. reflexivity.
  - cbv zeta.
    assert (Hd : ~ (P | x2 - x1)).
    { intros Hd. apply Hxne. symmetry. apply divide_P_eq; assumption. }
    assert (Hd' : ~ (P | x1 - x2)).
    { intros Hd'. apply Hxne. apply divide_P_eq; assumption. }
    pose proof (chord_slope x1 y1 x2 y2 Hd) as Hs.
    pose proof (chord_slope x2 y2 x1 y1 Hd') as Hs'.
    cbv zeta in Hs, Hs'.
    set (s := mod_ (mod_ (y2 - y1) P * modInverse (mod_ (x2 - x1) P) P) P) in *.
    set (s' := mod_ (mod_ (y1 - y2) P * modInverse (mod_ (x1 - x2) P) P) P) in *.
    assert (Hss : s = s').
    { apply divide_P_eq; try (apply mod_range; assumption).
      apply Z.gauss with (x2 - x1).
      - replace ((x2 - x1) * (s - s'))
          with (s * (x2 - x1) - (y2 - y1) + (s' * (x1 - x2) - (y1 - y2)))
          by ring.
        apply Z.divide_add_r; assumption.
      - apply Z.coprime_prime_l; [apply P_prime|assumption]. }
    rewrite <- Hss.
    assert (Hx3 : mod_ (s * s - x1 - x2) P = mod_ (s * s - x2 - x1) P)
      by (f_equal; ring).
    rewrite <- Hx3. set (x3 := mod_ (s * s - x1 - x2) P).
    do 2 f_equal.
    apply divide_P_eq; try (apply mod_range; assumption).
    pose proof (mod_P_divide (s * (x1 - x3) - y1)) as H1.
    pose proof (mod_P_divide (s * (x2 - x3) - y2)) as H2.
    set (a := mod_ (s * (x1 - x3) - y1) P) in *.
    set (b := mod_ (s * (x2 - x3) - y2) P) in *.
    replace (a - b)
      with (a - (s * (x1 - x3) - y1) - (b - (s * (x2 - x3) - y2))
            - (s * (x2 - x1) - (y2 - y1))) by ring.
    divide_terms.
Qed.

End Curve.

(** ** The mirror computes [pointMultiply] *)

Section Multiply.
Import Crypto.

Lemma PB_spec : BigZ.to_Z PB = P.
Proof. reflexivity. Qed.

(** The inverse modulo [P] is unique among the residues. *)
Lemma modInverse_unique a x :
  0 <= x < P -> (a * x) mod P = 1 -> modInverse a P = x.
Proof.
  intros Hx Hax. pose proof P_pos as HP.
  assert (Hd : (P | a * x - 1)) by (apply Zmod_divide_minus; assumption).
  assert (Hna : ~ (P | a)).
  { intros Ha.
    assert (H1 : (P | 1)).
    { replace 1 with (a * x - (a * x - 1)) by ring.
      apply Z.divide_sub_r; [apply Z.divide_mul_l|]; assumption. }
    apply Z.divide_pos_le in H1; [|lia]. revert H1. vm_compute. auto. }
  pose proof (modInverse_P a Hna) as Hm.
  apply divide_P_eq; [apply modInverse_range; assumption|assumption|].
  apply Z.gauss with a.
  - replace (a * (modInverse a P - x))
      with (a * modInverse a P - 1 - (a * x - 1)) by ring.
    apply Z.divide_sub_r; assumption.
  - apply Z.coprime_prime_l; [apply P_prime|assumption].
Qed.

Lemma checkedInverse_spec a x :
  checkedInverse a = Some x -> modInverse (BigZ.to_Z a) P = BigZ.to_Z x.
Proof.
  unfold checkedInverse. cbv zeta.
  set (y := (inverseLoopB 600 1 0 (a mod PB) PB mod PB)%bigZ).
  destruct ((a * y) mod PB =? 1)%bigZ eqn:Hc; [|discriminate].
  intros H; inversion H; subst x. clear H.
  rewrite BigZ.spec_eqb, BigZ.spec_modulo, BigZ.spec_mul, PB_spec in Hc.
  apply Z.eqb_eq in Hc.
  apply modInverse_unique; [|exact Hc].
  unfold y. rewrite BigZ.spec_modulo, PB_spec.
  apply Z.mod_pos_bound. apply P_pos.
Qed.

Lemma some_inj {A} (a b : A) : Some a = Some b -> a = b.
Proof.
  intros H.
  exact (f_equal (fun o => match o with Some q => q | None => a end) H).
Qed.

Lemma pointAddB_spec p1 p2 r :
  pointAddB p1 p2 = Some r -> pointAdd (toPoint p1) (toPoint p2) = toPoint r.
Proof.
  pose proof P_pos as HP.
  destruct p1 as [[x1 y1]|]; [|intros H; inversion H; reflexivity].
  destruct p2 as [[x2 y2]|]; [|intros H; inversion H; reflexivity].
  unfold pointAddB, pointAdd, toPoint.
  rewrite !BigZ.spec_eqb.
  destruct (BigZ.to_Z x1 =? BigZ.to_Z x2); cbn [andb].
  - destruct (BigZ.to_Z y1 =? BigZ.to_Z y2).
    + destruct (checkedInverse (2 * y1)%bigZ) as [inv|] eqn:Hinv; [|discriminate].
      apply checkedInverse_spec in Hinv. rewrite BigZ.spec_mul in Hinv.
      change (BigZ.to_Z 2) with 2 in Hinv.
      cbv zeta. intros H. apply some_inj in H. subst r. unfold toPoint.
      rewrite Hinv, !mod_spec by assumption.
      repeat (rewrite ?BigZ.spec_modulo, ?BigZ.spec_mul, ?BigZ.spec_sub, ?PB_spec).
      reflexivity.
    + intros H. apply some_inj in H. subst r. reflexivity.
  - destruct (checkedInverse ((x2 - x1) mod PB)%bigZ) as [inv|] eqn:Hinv;
      [|discriminate].
    apply checkedInverse_spec in Hinv.
    rewrite BigZ.spec_modulo, BigZ.spec_sub, PB_spec in Hinv.
    cbv zeta. intros H. apply some_inj in H. subst r. unfold toPoint.
    rewrite !mod_spec by assumption. rewrite Hinv.
    repeat (rewrite ?BigZ.spec_modulo, ?BigZ.spec_mul, ?BigZ.spec_sub, ?PB_spec).
    reflexivity.
Qed.

Lemma multiplyLoopB_spec fuel :
  forall k r a r',
    multiplyLoopB fuel k r a = Some r' ->
    multiplyLoop fuel k (toPoint r) (toPoint a) = Some (toPoint r').
Proof.
  induction fuel as [|fuel IH]; intros k r a r' H; cbn [multiplyLoopB multiplyLoop] in *.
  - destruct (k >? 0); [discriminate|]. inversion H; reflexivity.
  - destruct (k >? 0); [|inversion H; reflexivity].
    destruct (negb (Z.land k 1 =? 0)).
    + destruct (pointAddB r a) as [r1|] eqn:Hr; [|discriminate].
      destruct (pointAddB a a) as [a1|] eqn:Ha; [|discriminate].
      rewrite (pointAddB_spec _ _ _ Hr), (pointAddB_spec _ _ _ Ha).
      apply IH. exact H.
    + destruct (pointAddB a a) as [a1|] eqn:Ha; [|discriminate].
      rewrite (pointAddB_spec _ _ _ Ha).
      apply IH. exact H.
Qed.

(** The loop of [pointMultiply] makes one turn per binary digit. *)
Lemma multiplyLoop_terminates fuel :
  forall k r a, k < 2 ^ Z.of_nat fuel -> multiplyLoop fuel k r a <> None.
Proof.
  induction fuel as [|fuel IH]; intros k r a Hk; cbn [multiplyLoop].
  - destruct (Z.gtb_spec k 0); [|discriminate].
    change (2 ^ Z.of_nat 0) with 1 in Hk. lia.
  - destruct (Z.gtb_spec k 0); [|discriminate].
    apply IH. rewrite Z.shiftr_div_pow2 by lia. change (2 ^ 1) with 2.
    rewrite Nat2Z.inj_succ, Z.pow_succ_r in Hk by lia.
    apply Z.div_lt_upper_bound; lia.
Qed.

Lemma multiplyLoop_valid fuel :
  forall k r a r',
    valid_point r -> valid_point a ->
    multiplyLoop fuel k r a = Some r' -> valid_point r'.
Proof.
  induction fuel as [|fuel IH]; intros k r a r' Hr Ha H; cbn [multiplyLoop] in H.
  - destruct (k >? 0); [discriminate|]. inversion H; subst; assumption.
  - destruct (k >? 0); [|inversion H; subst; assumption].
    eapply IH; [| |exact H].
    + destruct (negb (Z.land k 1 =? 0)); [apply pointAdd_valid|]; assumption.
    + apply pointAdd_valid; assumption.
Qed.

Lemma pointMultiply_valid k p : valid_point p -> valid_point (pointMultiply k p).
Proof.
  intros Hp. unfold pointMultiply.
  destruct (multiplyLoop _ _ _ _) as [r|] eqn:H; [|split; exact I].
  eapply multiplyLoop_valid; [| |exact H]; [split; exact I|assumption].
Qed.

Lemma N_times_G : pointMultiply N G = None.
Proof.
  unfold pointMultiply.
  change (S (Z.to_nat (Z.log2 N))) with 256%nat.
  change G with (toPoint (Some (BigZ.of_Z Gx, BigZ.of_Z Gy))).
  change (@None (Z * Z)) with (toPoint None) at 1.
  rewrite (multiplyLoopB_spec 256 N None (Some (BigZ.of_Z Gx, BigZ.of_Z Gy)) None);
    [reflexivity|].
  vm_compute. reflexivity.
Qed.

End Multiply.

(** ** The properties of the point operations *)

Section CurveClaims.
Import Crypto.

(** Numeric side conditions on concrete points. *)
Ltac concrete_point :=
  repeat split;
  try (apply Z.leb_le; vm_compute; reflexivity);
  try (apply Z.ltb_lt; vm_compute; reflexivity);
  try (vm_compute; reflexivity).

Lemma G_valid : valid_point G.
Proof. concrete_point. Qed.

(** C5.  For all valid points [A] and [B] (the point at infinity, or a pair of
    field elements on the curve): [pointAdd(A, infinity) = A],
    [pointAdd(infinity, B) = B], [pointAdd(A, B) = pointAdd(B, A)], and
    when [A] and [B] are finite with the same abscissa and different
    ordinates [pointAdd(A, B)] is the point at infinity. *)
Theorem pointAdd_laws (A B : point) :
  valid_point A -> valid_point B ->
  pointAdd A None = A /\
  pointAdd None B = B /\
  pointAdd A B = pointAdd B A /\
  (forall x y1 y2,
      A = Some (x, y1) -> B = Some (x, y2) -> y1 <> y2 ->
      pointAdd A B = None).
Proof.
  intros [HA _] [HB _]. repeat split.
  - destruct A as [[x y]|]; reflexivity.
  - apply pointAdd_comm; assumption.
  - intros x y1 y2 -> -> Hy. unfold pointAdd.
    rewrite Z.eqb_refl. cbn [andb].
    destruct (Z.eqb_spec y1 y2); [contradiction|reflexivity].
Qed.

Lemma pointAdd_laws_witness :
  pointAdd G None = G /\
  pointAdd None (Some (Gx, P - Gy)) = Some (Gx, P - Gy) /\
  pointAdd G (Some (Gx, P - Gy)) = pointAdd (Some (Gx, P - Gy)) G /\
  (forall x y1 y2,
      G = Some (x, y1) -> Some (Gx, P - Gy) = Some (x, y2) -> y1 <> y2 ->
      pointAdd G (Some (Gx, P - Gy)) = None).
Proof.
  apply (pointAdd_laws G (Some (Gx, P - Gy))); concrete_point.
Defined.

(** C6.  [pointMultiply(0, p)] is the point at infinity for every [p], and
    [pointMultiply(N, G)] is the point at infinity. *)
Theorem pointMultiply_zero_and_order :
  (forall p, pointMultiply 0 p = None) /\ pointMultiply N G = None.
Proof.
  split; [intros p; reflexivity|apply N_times_G].
Qed.

(** C7.  The point operations preserve the invariant of points: when [A]
    and [B] are each the point at infinity or a pair of field elements
    (integers of [[0, P)]) satisfying the curve equation, so are
    [pointAdd(A, B)] and [pointMultiply(k, A)] for every scalar [k]. *)
Theorem point_operations_valid (A B : point) (k : Z) :
  valid_point A -> valid_point B ->
  valid_point (pointAdd A B) /\ valid_point (pointMultiply k A).
Proof.
  intros HA HB. split.
  - apply pointAdd_valid; assumption.
  - apply pointMultiply_valid; assumption.
Qed.

Lemma point_operations_valid_witness :
  valid_point (pointAdd G G) /\ valid_point (pointMultiply 5 G).
Proof.
  apply (point_operations_valid G G 5); concrete_point.
Defined.

End CurveClaims.
(** ** The group law over a field *)

(** Addition of the points of [y^2 = x^3 + b] is associative over every
    field in which [2] is not zero and [x^3 + b] has no root (no point of
    the curve has a zero ordinate). *)
Declare Scope K_scope.

Section GroupLaw.
Variable K : Type.
Variables kO kI : K.
Variables kadd kmul ksub kdiv : K -> K -> K.
Variables kopp kinv : K -> K.
Variable keqb : K -> K -> bool.
Variable b : K.

Hypothesis Kfield : field_theory kO kI kadd kmul ksub kopp kdiv kinv eq.
Hypothesis keqb_spec : forall x y : K, BoolSpec (x = y) (x <> y) (keqb x y).

Local Notation "0" := kO : K_scope.
Local Notation "1" := kI : K_scope.
Local Infix "+" := kadd : K_scope.
Local Infix "*" := kmul : K_scope.
Local Infix "-" := ksub : K_scope.
Local Infix "/" := kdiv : K_scope.
Local Notation "- x" := (kopp x) : K_scope.
Local Open Scope K_scope.

Hypothesis two_nz : 1 + 1 <> 0.
Hypothesis curve_nz : forall x : K, x * x * x + b <> 0.

Add Field K_field : Kfield.

Local Abbreviation chord := (fchord K kmul ksub kdiv).
Local Abbreviation tangent := (ftangent K kadd kmul ksub kdiv).
Local Abbreviation add := (fadd K kadd kmul ksub kdiv keqb).
Local Abbreviation neg := (fneg K kopp).
Local Abbreviation curve := (fcurve K kadd kmul b).

Lemma K_sub_eq (x y : K) : x - y = 0 -> x = y.
Proof. intros H. replace x with (x - y + y) by ring. rewrite H. ring. Qed.

Lemma K_integral (x y : K) : x * y = 0 -> x = 0 \/ y = 0.
Proof.
  intros H. destruct (keqb_spec x 0) as [E|E]; [left; exact E|right].
  replace y with (x * y / x) by (field; exact E). rewrite H. field. exact E.
Qed.

Lemma K_mul_nz (x y : K) : x <> 0 -> y <> 0 -> x * y <> 0.
Proof. intros Hx Hy H. destruct (K_integral _ _ H); contradiction. Qed.

Lemma K_sub_nz (x y : K) : x <> y -> y - x <> 0.
Proof. intros H E. apply H. symmetry. apply K_sub_eq, E. Qed.

Lemma K_double_nz (y : K) : y <> 0 -> y + y <> 0.
Proof.
  intros Hy. replace (y + y) with ((1 + 1) * y) by ring.
  apply K_mul_nz; [apply two_nz|assumption].
Qed.

Lemma K_opp_opp (y : K) : - - y = y.
Proof. ring. Qed.

Lemma K_opp_nz (y : K) : y <> 0 -> - y <> 0.
Proof.
  intros Hy H. apply Hy. rewrite <- (K_opp_opp y), H. ring.
Qed.

Lemma K_opp_inj (x y : K) : - x = - y -> x = y.
Proof. intros H. rewrite <- (K_opp_opp x), H. ring. Qed.

Lemma keqb_refl (x : K) : keqb x x = true.
Proof. destruct (keqb_spec x x); [reflexivity|contradiction]. Qed.

(** One step of the proof that a denominator [e] is not zero, from a
    hypothesis [D] on the quotient that [e] is the numerator of. *)
Ltac nz_step D :=
  let E := fresh "E" in
  intro E; apply D; field_simplify_eq; [etransitivity; [|exact E]; ring|].

Ltac nz :=
  match goal with
  | |- _ /\ _ => split; nz
  | |- _ => assumption
  | D : _ <> _ |- _ <> _ => nz_step D; nz
  end.

Lemma fcurve_ordinate (x y : K) : curve (Some (x, y)) -> y <> 0.
Proof.
  simpl. intros H Hy. subst y. apply (curve_nz x). rewrite <- H. ring.
Qed.

Lemma fcurve_same_x (x y1 y2 : K) :
  curve (Some (x, y1)) -> curve (Some (x, y2)) -> y2 = y1 \/ y2 = - y1.
Proof.
  simpl. intros H1 H2.
  assert (H : (y2 - y1) * (y2 + y1) = 0) by ring [H1 H2].
  apply K_integral in H as [H|H]; [left|right].
  - apply K_sub_eq, H.
  - replace y2 with (y2 + y1 - y1) by ring. rewrite H. ring.
Qed.

Lemma fcurve_cases (x1 y1 x2 y2 : K) :
  curve (Some (x1, y1)) -> curve (Some (x2, y2)) ->
  x1 <> x2 \/ (x2 = x1 /\ y2 = y1) \/ (x2 = x1 /\ y2 = - y1).
Proof.
  intros H1 H2. destruct (keqb_spec x1 x2) as [E|E]; [|left; exact E].
  subst x2. right. destruct (fcurve_same_x _ _ _ H1 H2); auto.
Qed.

Lemma fadd_chord (x1 y1 x2 y2 : K) :
  x1 <> x2 -> add (Some (x1, y1)) (Some (x2, y2)) = Some (chord x1 y1 x2 y2).
Proof.
  intros H. unfold fadd. destruct (keqb_spec x1 x2); [contradiction|reflexivity].
Qed.

Lemma fadd_tangent (x y : K) :
  add (Some (x, y)) (Some (x, y)) = Some (tangent x y).
Proof. unfold fadd. rewrite !keqb_refl. reflexivity. Qed.

Lemma fadd_opposite (x y : K) :
  y <> 0 -> add (Some (x, y)) (Some (x, - y)) = None.
Proof.
  intros Hy. unfold fadd. rewrite keqb_refl.
  destruct (keqb_spec y (- y)) as [E|E]; [|reflexivity].
  exfalso. apply (K_double_nz y Hy). rewrite E at 1. ring.
Qed.

Lemma fadd_None_r (A : option (K * K)) : add A None = A.
Proof. destruct A as [[x y]|]; reflexivity. Qed.

Lemma fneg_involutive (A : option (K * K)) : neg (neg A) = A.
Proof.
  destruct A as [[x y]|]; [|reflexivity]. simpl. rewrite K_opp_opp. reflexivity.
Qed.

Lemma fneg_curve (A : option (K * K)) : curve A -> curve (neg A).
Proof.
  destruct A as [[x y]|]; [|trivial]. simpl. intros H. ring [H].
Qed.

Lemma fadd_fneg (A : option (K * K)) : curve A -> add A (neg A) = None.
Proof.
  destruct A as [[x y]|]; [|reflexivity]. intros H.
  apply fadd_opposite, (fcurve_ordinate x), H.
Qed.

Lemma fchord_curve (x1 y1 x2 y2 : K) :
  curve (Some (x1, y1)) -> curve (Some (x2, y2)) -> x1 <> x2 ->
  curve (Some (chord x1 y1 x2 y2)).
Proof.
  simpl. intros H1 H2 D. apply K_sub_nz in D.
  field [H1 H2]. exact D.
Qed.

Lemma ftangent_curve (x1 y1 : K) :
  curve (Some (x1, y1)) -> curve (Some (tangent x1 y1)).
Proof.
  intros H1. pose proof (K_double_nz _ (fcurve_ordinate _ _ H1)) as D.
  simpl in *. field [H1]. exact D.
Qed.

Lemma fadd_curve (A B : option (K * K)) : curve A -> curve B -> curve (add A B).
Proof.
  destruct A as [[x1 y1]|]; [|trivial].
  destruct B as [[x2 y2]|]; [|trivial].
  intros H1 H2. unfold fadd.
  destruct (keqb_spec x1 x2) as [E|E].
  - destruct (keqb_spec y1 y2); [|exact I].
    apply ftangent_curve, H1.
  - apply fchord_curve; assumption.
Qed.

Lemma fchord_comm (x1 y1 x2 y2 : K) :
  x1 <> x2 -> chord x1 y1 x2 y2 = chord x2 y2 x1 y1.
Proof.
  intros D. pose proof (K_sub_nz _ _ D) as D1.
  pose proof (K_sub_nz _ _ (not_eq_sym D)) as D2.
  unfold fchord. f_equal; field; auto.
Qed.

Lemma fadd_comm (A B : option (K * K)) : add A B = add B A.
Proof.
  destruct A as [[x1 y1]|], B as [[x2 y2]|]; try reflexivity.
  unfold fadd.
  destruct (keqb_spec x1 x2) as [E|E], (keqb_spec x2 x1) as [E'|E'];
    try congruence.
  - subst x2.
    destruct (keqb_spec y1 y2) as [Ey|Ey], (keqb_spec y2 y1) as [Ey'|Ey'];
      congruence.
  - f_equal. apply fchord_comm, E.
Qed.

Lemma fneg_fadd (A B : option (K * K)) :
  curve A -> curve B -> neg (add A B) = add (neg A) (neg B).
Proof.
  destruct A as [[x1 y1]|]; [|reflexivity].
  destruct B as [[x2 y2]|]; [|reflexivity].
  intros H1 H2. unfold fadd, fneg.
  destruct (keqb_spec x1 x2) as [E|E].
  - destruct (keqb_spec y1 y2) as [Ey|Ey],
             (keqb_spec (- y1) (- y2)) as [Ey'|Ey'].
    + pose proof (fcurve_ordinate _ _ H1) as Y.
      pose proof (K_double_nz _ Y) as D.
      pose proof (K_double_nz _ (K_opp_nz _ Y)) as D'.
      unfold ftangent. f_equal. f_equal; field; auto.
    + subst. contradiction.
    + apply K_opp_inj in Ey'. contradiction.
    + reflexivity.
  - pose proof (K_sub_nz _ _ E) as D.
    unfold fchord. f_equal. f_equal; field; auto.
Qed.

(** The chord through two points that meets the curve again at the
    abscissa of the second is the tangent at the second point. *)
Lemma fchord_touch (x1 y1 x2 y2 : K) :
  curve (Some (x1, y1)) -> curve (Some (x2, y2)) -> x1 <> x2 ->
  fst (chord x1 y1 x2 y2) = x2 ->
  chord x1 y1 x2 y2 = (x2, - y2) /\ tangent x2 (- y2) = (x1, y1).
Proof.
  intros H1 H2 D Hx. pose proof (K_sub_nz _ _ D) as D1.
  pose proof (fcurve_ordinate _ _ H2) as Y2.
  pose proof (K_double_nz _ (K_opp_nz _ Y2)) as Y2'.
  unfold fchord in *. cbn [fst] in Hx. simpl in H1, H2.
  set (m := (y2 - y1) / (x2 - x1)) in *.
  assert (Hm : m * (x2 - x1) = y2 - y1) by (unfold m; field; exact D1).
  assert (Hd : (x2 - x1) * (x2 - (m * m - x1 - x2))
               = x2 * x2 + x2 * x2 + x2 * x2 - (m * y2 + m * y2))
    by (unfold m; field [H1 H2]; exact D1).
  rewrite Hx in Hd.
  assert (H3 : x2 * x2 + x2 * x2 + x2 * x2 = m * y2 + m * y2).
  { apply K_sub_eq. rewrite <- Hd. ring. }
  assert (Hmm : m * m = x1 + x2 + x2).
  { transitivity (m * m - x1 - x2 + x1 + x2); [ring|rewrite Hx; ring]. }
  split.
  - rewrite Hx. f_equal.
    transitivity (- (m * (x2 - x1)) - y1); [ring|rewrite Hm; ring].
  - unfold ftangent. cbv zeta. rewrite H3.
    assert (Hs : (m * y2 + m * y2) / (- y2 + - y2) = - m) by (field; exact Y2').
    rewrite Hs.
    assert (Hx' : - m * - m - x2 - x2 = x1).
    { transitivity (m * m - x2 - x2); [ring|rewrite Hmm; ring]. }
    rewrite Hx'. f_equal.
    transitivity (- (m * (x2 - x1)) + y2); [ring|rewrite Hm; ring].
Qed.

Lemma fchord_back (x1 y1 x2 y2 : K) :
  curve (Some (x1, y1)) -> curve (Some (x2, y2)) -> x1 <> x2 ->
  fst (chord x1 y1 x2 y2) <> x2 ->
  chord (fst (chord x1 y1 x2 y2)) (snd (chord x1 y1 x2 y2)) x2 (- y2)
  = (x1, y1).
Proof.
  intros H1 H2 D Dx. pose proof (K_sub_nz _ _ D) as D1.
  pose proof (K_sub_nz _ _ Dx) as D2.
  unfold fchord in *. cbn [fst snd] in *. simpl in H1, H2.
  f_equal; (field [H1 H2]; nz).
Qed.

Lemma ftangent_touch (x1 y1 : K) :
  fst (tangent x1 y1) = x1 -> tangent x1 y1 = (x1, - y1).
Proof.
  unfold ftangent. cbn [fst]. intros Hx. rewrite Hx. f_equal. ring.
Qed.

Lemma ftangent_back (x1 y1 : K) :
  curve (Some (x1, y1)) -> fst (tangent x1 y1) <> x1 ->
  chord (fst (tangent x1 y1)) (snd (tangent x1 y1)) x1 (- y1) = (x1, y1).
Proof.
  intros H1 Dx. pose proof (K_double_nz _ (fcurve_ordinate _ _ H1)) as Y.
  pose proof (K_sub_nz _ _ Dx) as D2.
  unfold fchord, ftangent in *. cbn [fst snd] in *. simpl in H1.
  f_equal; (field [H1]; nz).
Qed.

Lemma ftangent_fneg (x y : K) :
  curve (Some (x, y)) ->
  Some (tangent x (- y)) = neg (Some (tangent x y)).
Proof.
  intros H. pose proof (fneg_fadd _ _ H H) as E.
  rewrite fadd_tangent in E. simpl fneg in E at 2 3.
  rewrite fadd_tangent in E. symmetry. exact E.
Qed.

(** Subtracting what was added gives the first point back. *)
Lemma fadd_sub (A B : option (K * K)) :
  curve A -> curve B -> add (add A B) (neg B) = A.
Proof.
  intros HA HB.
  destruct B as [[x2 y2]|]; [|simpl; rewrite !fadd_None_r; reflexivity].
  destruct A as [[x1 y1]|]; [|apply (fadd_fneg (Some (x2, y2))), HB].
  pose proof (fcurve_ordinate _ _ HA) as Y1.
  pose proof (fcurve_ordinate _ _ HB) as Y2.
  destruct (fcurve_cases _ _ _ _ HA HB) as [D|[[-> ->]|[-> ->]]].
  - (* chord *)
    rewrite fadd_chord by exact D. simpl fneg.
    destruct (keqb_spec (fst (chord x1 y1 x2 y2)) x2) as [Hx|Hx].
    + destruct (fchord_touch _ _ _ _ HA HB D Hx) as [-> Ht].
      rewrite fadd_tangent, Ht. reflexivity.
    + pose proof (fchord_back _ _ _ _ HA HB D Hx) as Hb.
      destruct (chord x1 y1 x2 y2) as [xs ys]. cbn [fst snd] in *.
      rewrite fadd_chord by exact Hx. rewrite Hb. reflexivity.
  - (* tangent *)
    rewrite fadd_tangent. simpl fneg.
    destruct (keqb_spec (fst (tangent x1 y1)) x1) as [Hx|Hx].
    + rewrite (ftangent_touch _ _ Hx), fadd_tangent.
      rewrite (ftangent_fneg _ _ HA), (ftangent_touch _ _ Hx). simpl.
      rewrite K_opp_opp. reflexivity.
    + pose proof (ftangent_back _ _ HA Hx) as Hb.
      destruct (tangent x1 y1) as [xd yd]. cbn [fst snd] in *.
      rewrite fadd_chord by exact Hx. rewrite Hb. reflexivity.
  - (* opposite points *)
    rewrite fadd_opposite by exact Y1. simpl. rewrite K_opp_opp. reflexivity.
Qed.

Lemma fadd_cancel (A B C : option (K * K)) :
  curve A -> curve B -> curve C -> add A B = add A C -> B = C.
Proof.
  intros HA HB HC H.
  rewrite <- (fadd_sub B A HB HA), <- (fadd_sub C A HC HA).
  rewrite (fadd_comm B A), (fadd_comm C A), H. reflexivity.
Qed.

(** [A + B = C] if and only if [A = C - B]. *)
Lemma fadd_shift (A B C : option (K * K)) :
  curve A -> curve B -> add A B = C -> A = add C (neg B).
Proof. intros HA HB <-. symmetry. apply fadd_sub; assumption. Qed.

Lemma fadd_unshift (A B C : option (K * K)) :
  curve B -> curve C -> add C (neg B) = A -> add A B = C.
Proof.
  intros HB HC <-. rewrite <- (fneg_involutive B) at 2.
  apply fadd_sub; [assumption|apply fneg_curve, HB].
Qed.

Lemma fadd_None_inv (A B : option (K * K)) :
  curve A -> curve B -> add A B = None -> B = neg A.
Proof.
  intros HA HB H.
  apply (fadd_cancel A); [assumption|assumption|apply fneg_curve, HA|].
  rewrite fadd_fneg by assumption. exact H.
Qed.

(** The three computations of associativity: two chords on each side,
    a tangent then a chord, and two tangents. *)
Lemma fchord_assoc (x1 y1 x2 y2 x3 y3 : K) :
  curve (Some (x1, y1)) -> curve (Some (x2, y2)) -> curve (Some (x3, y3)) ->
  x1 <> x2 -> x2 <> x3 ->
  let S := chord x1 y1 x2 y2 in
  let T := chord x2 y2 x3 y3 in
  fst S <> x3 -> x1 <> fst T ->
  chord (fst S) (snd S) x3 y3 = chord x1 y1 (fst T) (snd T).
Proof.
  intros H1 H2 H3 D12 D23 S T DS DT.
  apply K_sub_nz in D12, D23, DS, DT.
  unfold S, T, fchord in *. cbn [fst snd] in *. simpl in H1, H2, H3.
  f_equal; (field [H1 H2 H3]; nz).
Qed.

Lemma fchord_tangent (x1 y1 x3 y3 : K) :
  curve (Some (x1, y1)) -> curve (Some (x3, y3)) -> x1 <> x3 ->
  let D := tangent x1 y1 in
  let E := chord x1 y1 x3 y3 in
  fst D <> x3 -> x1 <> fst E ->
  chord (fst D) (snd D) x3 y3 = chord x1 y1 (fst E) (snd E).
Proof.
  intros H1 H3 D13 D E DD DE.
  pose proof (K_double_nz _ (fcurve_ordinate _ _ H1)) as Y.
  apply K_sub_nz in D13, DD, DE.
  unfold D, E, fchord, ftangent in *. cbn [fst snd] in *. simpl in H1, H3.
  f_equal; (field [H1 H3]; nz).
Qed.

Lemma ftangent_twice (x1 y1 : K) :
  curve (Some (x1, y1)) ->
  let D := tangent x1 y1 in
  let E := chord x1 y1 (fst D) (snd D) in
  x1 <> fst D -> x1 <> fst E ->
  tangent (fst D) (snd D) = chord x1 y1 (fst E) (snd E).
Proof.
  intros H1 D E DD DE.
  pose proof (K_double_nz _ (fcurve_ordinate _ _ H1)) as Y.
  assert (Yd : snd D + snd D <> 0).
  { apply K_double_nz, (fcurve_ordinate (fst D)).
    rewrite <- surjective_pairing. apply ftangent_curve, H1. }
  apply K_sub_nz in DD, DE.
  unfold E, D, fchord, ftangent in *. cbn [fst snd] in *. simpl in H1.
  f_equal; (field [H1]; nz).
Qed.

Lemma fadd_eq_l (A C : option (K * K)) :
  curve A -> curve C -> add A C = A -> C = None.
Proof.
  intros HA HC H. apply (fadd_cancel A); [assumption|assumption|exact I|].
  rewrite fadd_None_r. exact H.
Qed.

Lemma fadd_eq_neg (A C : option (K * K)) :
  curve A -> curve C -> add A C = neg A -> C = neg (add A A).
Proof.
  intros HA HC H. rewrite fadd_comm in H.
  apply fadd_shift in H; [|assumption|assumption].
  rewrite fneg_fadd by assumption. exact H.
Qed.

Lemma fadd_neg_double (A : option (K * K)) :
  curve A -> add A (neg (add A A)) = neg A.
Proof.
  intros HA. rewrite <- (fneg_involutive A) at 1.
  rewrite <- fneg_fadd by (try apply fneg_curve; try apply fadd_curve; assumption).
  f_equal. rewrite fadd_comm. apply fadd_sub; assumption.
Qed.

Lemma fadd_neg_l (A C : option (K * K)) :
  curve A -> curve C -> add A (add (neg A) C) = C.
Proof.
  intros HA HC. rewrite (fadd_comm (neg A)), fadd_comm.
  rewrite <- (fneg_involutive A) at 2.
  apply fadd_sub; [assumption|apply fneg_curve, HA].
Qed.

(** Doubling then adding is adding twice. *)
Lemma fadd_double (A C : option (K * K)) :
  curve A -> curve C -> add (add A A) C = add A (add A C).
Proof.
  intros HA HC.
  destruct A as [[x1 y1]|]; [|reflexivity].
  destruct C as [[x3 y3]|]; [|rewrite !fadd_None_r; reflexivity].
  pose proof (fcurve_ordinate _ _ HA) as Y1.
  destruct (fcurve_cases _ _ _ _ HA HC) as [D|[[-> ->]|[-> ->]]].
  - pose proof (fadd_curve _ _ HA HA) as HD.
    pose proof (fadd_curve _ _ HA HC) as HE.
    pose proof (fadd_eq_l _ _ HA HC) as NE1.
    pose proof (fadd_eq_neg _ _ HA HC) as NE2.
    pose proof (fadd_neg_double _ HA) as NE3.
    rewrite fadd_tangent in *. rewrite (fadd_chord x1 y1 x3 y3 D) in *.
    pose proof (fchord_tangent x1 y1 x3 y3 HA HC D) as G1.
    pose proof (ftangent_twice x1 y1 HA) as G2.
    cbv zeta in G1, G2.
    destruct (tangent x1 y1) as [xd yd] eqn:ED.
    cbn [fst snd] in G1, G2.
    pose proof (fcurve_ordinate _ _ HD) as Yd.
    destruct (fcurve_cases _ _ _ _ HD HC) as [DC|[[-> ->]|[-> ->]]].
    + (* the chord through [2A] and [C] *)
      rewrite (fadd_chord _ _ _ _ DC).
      destruct (chord x1 y1 x3 y3) as [xe ye] eqn:EE.
      cbn [fst snd] in G1.
      destruct (fcurve_cases _ _ _ _ HA HE) as [DE|[[-> ->]|[-> ->]]].
      * rewrite (fadd_chord _ _ _ _ DE). f_equal. apply G1; assumption.
      * discriminate (NE1 eq_refl).
      * specialize (NE2 eq_refl). injection NE2 as -> ->. contradiction.
    + (* [C = 2A] *)
      rewrite fadd_tangent.
      destruct (chord x1 y1 xd yd) as [xe ye] eqn:EE.
      cbn [fst snd] in G2.
      destruct (fcurve_cases _ _ _ _ HA HE) as [DE|[[-> ->]|[-> ->]]].
      * rewrite (fadd_chord _ _ _ _ DE). f_equal. apply G2; assumption.
      * discriminate (NE1 eq_refl).
      * specialize (NE2 eq_refl). injection NE2 as E.
        exfalso. apply (K_double_nz yd Yd). rewrite E at 1. ring.
    + (* [C = - 2A] *)
      rewrite (fadd_opposite xd yd Yd).
      simpl fneg in NE3. rewrite (fadd_chord x1 y1 xd (- yd) D) in NE3.
      rewrite NE3. symmetry. apply fadd_opposite, Y1.
  - apply fadd_comm.
  - rewrite (fadd_opposite x1 y1 Y1), fadd_None_r.
    apply (fadd_sub (Some (x1, y1)) (Some (x1, y1))); assumption.
Qed.

Lemma fadd_double_r (A B : option (K * K)) :
  curve A -> curve B -> add (add A B) B = add A (add B B).
Proof.
  intros HA HB.
  rewrite (fadd_comm A B), (fadd_comm (add B A) B), (fadd_comm A (add B B)).
  symmetry. apply fadd_double; assumption.
Qed.

Lemma fadd_to_neg (A B C : option (K * K)) :
  curve A -> curve B -> curve C ->
  add A B = neg C -> add A (add B C) = None.
Proof.
  intros HA HB HC H.
  apply fadd_shift in H; [|assumption|assumption].
  rewrite <- fneg_fadd, (fadd_comm C B) in H by assumption.
  rewrite H, fadd_comm. apply fadd_fneg, fadd_curve; assumption.
Qed.

Lemma fadd_square (A B : option (K * K)) :
  curve A -> curve B ->
  add (add A B) (add A B) = add A (add B (add A B)).
Proof.
  intros HA HB.
  pose proof (fadd_curve _ _ HA HB) as HS.
  pose proof (fadd_curve _ _ HB HS) as HU.
  set (S := add A B) in *. set (U := add B S) in *.
  symmetry. apply fadd_unshift; [assumption|apply fadd_curve; assumption|].
  rewrite fadd_double by (try apply fneg_curve; assumption).
  assert (E : add S (neg U) = neg B).
  { unfold U. rewrite fneg_fadd by assumption.
    rewrite (fadd_comm (neg B)).
    apply fadd_neg_l; [assumption|apply fneg_curve, HB]. }
  rewrite E. apply fadd_sub; assumption.
Qed.

(** Addition of the points of the curve is associative. *)
Theorem fadd_assoc (A B C : option (K * K)) :
  curve A -> curve B -> curve C -> add (add A B) C = add A (add B C).
Proof.
  intros HA HB HC.
  destruct A as [[x1 y1]|]; [|reflexivity].
  destruct B as [[x2 y2]|]; [|reflexivity].
  destruct C as [[x3 y3]|]; [|rewrite !fadd_None_r; reflexivity].
  destruct (fcurve_cases _ _ _ _ HA HB) as [D12|[[-> ->]|[-> ->]]].
  2: { apply fadd_double; assumption. }
  2: { rewrite (fadd_opposite x1 y1 (fcurve_ordinate _ _ HA)). symmetry.
       apply (fadd_neg_l (Some (x1, y1))); assumption. }
  destruct (fcurve_cases _ _ _ _ HB HC) as [D23|[[-> ->]|[-> ->]]].
  2: { apply fadd_double_r; assumption. }
  2: { rewrite (fadd_opposite x2 y2 (fcurve_ordinate _ _ HB)), fadd_None_r.
       apply (fadd_sub (Some (x1, y1)) (Some (x2, y2))); assumption. }
  pose proof (fadd_curve _ _ HA HB) as HS.
  pose proof (fadd_curve _ _ HB HC) as HT.
  pose proof (fadd_to_neg _ _ _ HA HB HC) as N1.
  pose proof (fadd_to_neg _ _ _ HC HB HA) as N2.
  pose proof (fadd_square _ _ HA HB) as Q1.
  pose proof (fadd_square _ _ HC HB) as Q2.
  rewrite (fadd_comm (Some (x3, y3)) (Some (x2, y2))) in N2, Q2.
  rewrite (fadd_comm (Some (x2, y2)) (Some (x1, y1))) in N2.
  rewrite (fadd_comm (Some (x3, y3))) in N2.
  rewrite (fadd_chord x1 y1 x2 y2 D12) in *.
  rewrite (fadd_chord x2 y2 x3 y3 D23) in *.
  pose proof (fchord_assoc x1 y1 x2 y2 x3 y3 HA HB HC D12 D23) as G.
  cbv zeta in G.
  destruct (chord x1 y1 x2 y2) as [xs ys] eqn:ES.
  destruct (chord x2 y2 x3 y3) as [xt yt] eqn:ET.
  cbn [fst snd] in G.
  destruct (fcurve_cases _ _ _ _ HS HC) as [DS|[[-> ->]|[-> ->]]].
  - destruct (fcurve_cases _ _ _ _ HA HT) as [DT|[[-> ->]|[-> ->]]].
    + rewrite (fadd_chord _ _ _ _ DS), (fadd_chord _ _ _ _ DT).
      f_equal. apply G; assumption.
    + rewrite Q2, (fadd_comm (Some (x2, y2))), (fadd_chord _ _ _ _ D12), ES.
      apply fadd_comm.
    + rewrite (fadd_opposite x1 y1 (fcurve_ordinate _ _ HA)).
      apply N2. reflexivity.
  - rewrite (fadd_chord _ _ _ _ D23), ET in Q1. exact Q1.
  - rewrite (fadd_opposite xs ys (fcurve_ordinate _ _ HS)).
    symmetry. apply N1. simpl. rewrite K_opp_opp. reflexivity.
Qed.

End GroupLaw.

(** ** The group of the curve *)

Section CurveGroup.
Import Crypto.

Local Abbreviation F := (Zmod P).
Local Abbreviation add := (fadd F Zmod.add Zmod.mul Zmod.sub Zmod.mdiv Zmod.eqb).
Local Abbreviation curve := (fcurve F Zmod.add Zmod.mul (Zmod.of_Z P 7)).

Lemma F_two_nz : Zmod.add Zmod.one Zmod.one <> (Zmod.zero : F).
Proof.
  intros H. apply (f_equal Zmod.to_Z) in H. vm_compute in H. discriminate.
Qed.

Lemma F_curve_nz (x : F) :
  Zmod.add (Zmod.mul (Zmod.mul x x) x) (Zmod.of_Z P 7) <> Zmod.zero.
Proof.
  intros H. apply (no_cube_root (Zmod.to_Z x)).
  pose proof P_pos as HP.
  apply Z.mod_divide; [lia|].
  rewrite <- (Zmod.of_Z_to_Z x), <- !Zmod.of_Z_mul, <- Zmod.of_Z_add in H.
  rewrite <- Zmod.of_Z_0 in H.
  apply Zmod.of_Z_inj in H. rewrite H. apply Z.mod_0_l. lia.
Qed.

(** Addition of the residues is associative. *)
Lemma residues_assoc (A B C : option (F * F)) :
  curve A -> curve B -> curve C -> add (add A B) C = add A (add B C).
Proof.
  apply (fadd_assoc F Zmod.zero Zmod.one Zmod.add Zmod.mul Zmod.sub Zmod.mdiv
           Zmod.opp Zmod.inv Zmod.eqb (Zmod.of_Z P 7)
           (Zmod.field_theory P P_prime) (@Zmod.eqb_spec P)
           F_two_nz F_curve_nz).
Qed.

Lemma of_Z_mod_ (a : Z) : Zmod.of_Z P (mod_ a P) = Zmod.of_Z P a.
Proof. rewrite mod_spec by apply P_pos. apply Zmod.of_Z_mod. Qed.

Lemma of_Z_modInverse (a : Z) :
  Zmod.of_Z P (modInverse a P) = Zmod.inv (Zmod.of_Z P a).
Proof.
  pose proof P_pos as HP. pose proof P_prime as Hp.
  destruct (Z.eq_dec (a mod P) 0) as [H0|Hn].
  - rewrite modInverse_zero by assumption.
    assert (E : Zmod.of_Z P a = Zmod.zero).
    { rewrite <- Zmod.of_Z_0. apply Zmod.of_Z_inj. rewrite H0. reflexivity. }
    rewrite E, Zmod.inv_0. apply Zmod.of_Z_0.
  - assert (Hz : Zmod.of_Z P a <> Zmod.zero).
    { apply Zmod.of_Z_nz. exact Hn. }
    apply (Zmod.mul_cancel_l_prime (Zmod.of_Z P a)); [exact Hp|exact Hz|].
    rewrite Zmod.mul_inv_same_r_prime by assumption.
    rewrite <- Zmod.of_Z_mul, <- Zmod.of_Z_1. apply Zmod.of_Z_inj.
    rewrite modInverse_correct; [reflexivity|apply Z.prime_ge_2, Hp|].
    rewrite Z.gcd_comm. apply Z.coprime_prime_l; [exact Hp|].
    intros Hd. apply Hn. apply Z.mod_divide in Hd; [exact Hd|lia].
Qed.

Lemma embed_curve (p : point) : on_curve p -> curve (embed p).
Proof.
  destruct p as [[x y]|]; [|trivial]. unfold on_curve, embed, fcurve.
  intros H. rewrite <- !Zmod.of_Z_mul, <- Zmod.of_Z_add.
  apply Zmod.of_Z_inj. exact H.
Qed.

Lemma embed_inj (p q : point) :
  reduced p -> reduced q -> embed p = embed q -> p = q.
Proof.
  destruct p as [[x y]|], q as [[x' y']|]; try discriminate; [|reflexivity].
  intros [Hx Hy] [Hx' Hy'] H.
  pose proof (f_equal (fun o : option (F * F) =>
                         match o with Some (a, _) => a | None => Zmod.zero end) H)
    as Ex.
  pose proof (f_equal (fun o : option (F * F) =>
                         match o with Some (_, c) => c | None => Zmod.zero end) H)
    as Ey.
  cbv beta iota in Ex, Ey.
  apply Zmod.of_Z_inj in Ex, Ey.
  rewrite !Z.mod_small in Ex, Ey by assumption. subst. reflexivity.
Qed.

Lemma eqb_of_Z (x y : Z) :
  0 <= x < P -> 0 <= y < P ->
  Zmod.eqb (Zmod.of_Z P x) (Zmod.of_Z P y) = (x =? y).
Proof.
  intros Hx Hy. unfold Zmod.eqb.
  rewrite !Zmod.to_Z_of_Z, !Z.mod_small by assumption. reflexivity.
Qed.

(** [pointAdd] is the addition of the residues. *)
Lemma embed_pointAdd (A B : point) :
  reduced A -> reduced B -> embed (pointAdd A B) = add (embed A) (embed B).
Proof.
  destruct A as [[x1 y1]|]; [|reflexivity].
  destruct B as [[x2 y2]|]; [|reflexivity].
  intros [Hx1 Hy1] [Hx2 Hy2]. unfold pointAdd, embed, fadd.
  rewrite !eqb_of_Z by assumption.
  destruct (x1 =? x2); cbn [andb].
  - destruct (y1 =? y2); [|reflexivity].
    cbv zeta. unfold ftangent. cbv zeta.
    set (s := mod_ (mod_ (3 * x1 * x1) P * modInverse (2 * y1) P) P).
    assert (Es : Zmod.of_Z P s
                 = Zmod.mdiv
                     (Zmod.add (Zmod.add (Zmod.mul (Zmod.of_Z P x1) (Zmod.of_Z P x1))
                                         (Zmod.mul (Zmod.of_Z P x1) (Zmod.of_Z P x1)))
                               (Zmod.mul (Zmod.of_Z P x1) (Zmod.of_Z P x1)))
                     (Zmod.add (Zmod.of_Z P y1) (Zmod.of_Z P y1))).
    { unfold s. rewrite of_Z_mod_, Zmod.of_Z_mul, of_Z_mod_, of_Z_modInverse.
      rewrite <- Zmod.mul_inv_r.
      replace (3 * x1 * x1) with (x1 * x1 + x1 * x1 + x1 * x1) by ring.
      replace (2 * y1) with (y1 + y1) by ring.
      rewrite !Zmod.of_Z_add, !Zmod.of_Z_mul. reflexivity. }
    rewrite <- Es.
    set (x3 := mod_ (s * s - 2 * x1) P).
    assert (Ex : Zmod.of_Z P x3
                 = Zmod.sub (Zmod.sub (Zmod.mul (Zmod.of_Z P s) (Zmod.of_Z P s))
                                      (Zmod.of_Z P x1)) (Zmod.of_Z P x1)).
    { unfold x3. rewrite of_Z_mod_.
      replace (s * s - 2 * x1) with (s * s - x1 - x1) by ring.
      rewrite !Zmod.of_Z_sub, Zmod.of_Z_mul. reflexivity. }
    rewrite <- Ex. do 2 f_equal.
    rewrite of_Z_mod_, !Zmod.of_Z_sub, Zmod.of_Z_mul, Zmod.of_Z_sub.
    reflexivity.
  - cbv zeta. unfold fchord. cbv zeta.
    set (s := mod_ (mod_ (y2 - y1) P * modInverse (mod_ (x2 - x1) P) P) P).
    assert (Es : Zmod.of_Z P s
                 = Zmod.mdiv (Zmod.sub (Zmod.of_Z P y2) (Zmod.of_Z P y1))
                             (Zmod.sub (Zmod.of_Z P x2) (Zmod.of_Z P x1))).
    { unfold s. rewrite of_Z_mod_, Zmod.of_Z_mul, of_Z_mod_, of_Z_modInverse.
      rewrite of_Z_mod_, <- Zmod.mul_inv_r, !Zmod.of_Z_sub. reflexivity. }
    rewrite <- Es.
    set (x3 := mod_ (s * s - x1 - x2) P).
    assert (Ex : Zmod.of_Z P x3
                 = Zmod.sub (Zmod.sub (Zmod.mul (Zmod.of_Z P s) (Zmod.of_Z P s))
                                      (Zmod.of_Z P x1)) (Zmod.of_Z P x2)).
    { unfold x3. rewrite of_Z_mod_, !Zmod.of_Z_sub, Zmod.of_Z_mul. reflexivity. }
    rewrite <- Ex. do 2 f_equal.
    rewrite of_Z_mod_, !Zmod.of_Z_sub, Zmod.of_Z_mul, Zmod.of_Z_sub.
    reflexivity.
Qed.

(** Addition of valid points is associative. *)
Lemma pointAdd_assoc (A B C : point) :
  valid_point A -> valid_point B -> valid_point C ->
  pointAdd (pointAdd A B) C = pointAdd A (pointAdd B C).
Proof.
  intros HA HB HC.
  pose proof (pointAdd_valid _ _ HA HB) as HS.
  pose proof (pointAdd_valid _ _ HB HC) as HT.
  apply embed_inj.
  - apply pointAdd_valid; assumption.
  - apply pointAdd_valid; assumption.
  - rewrite !embed_pointAdd by (first [apply HA|apply HB|apply HC|apply HS|apply HT]).
    apply residues_assoc; apply embed_curve;
      first [apply HA|apply HB|apply HC].
Qed.

(** Addition of valid points can be cancelled. *)
Lemma pointAdd_cancel (A B C : point) :
  valid_point A -> valid_point B -> valid_point C ->
  pointAdd A B = pointAdd A C -> B = C.
Proof.
  intros HA HB HC H.
  apply embed_inj; [apply HB|apply HC|].
  apply (f_equal embed) in H.
  rewrite !embed_pointAdd in H by (first [apply HA|apply HB|apply HC]).
  revert H.
  apply (fadd_cancel F Zmod.zero Zmod.one Zmod.add Zmod.mul Zmod.sub Zmod.mdiv
           Zmod.opp Zmod.inv Zmod.eqb (Zmod.of_Z P 7)
           (Zmod.field_theory P P_prime) (@Zmod.eqb_spec P)
           F_two_nz F_curve_nz);
    apply embed_curve; first [apply HA|apply HB|apply HC].
Qed.

(** The opposite of a finite point: same abscissa, ordinate [P - y]. *)
Lemma pointAdd_opposite (x y : Z) :
  valid_point (Some (x, y)) ->
  valid_point (Some (x, P - y)) /\ pointAdd (Some (x, y)) (Some (x, P - y)) = None.
Proof.
  intros [[Hx Hy] Hc]. pose proof P_pos as HP.
  pose proof (ordinate_nonzero x y Hy Hc) as Hn.
  assert (Hy0 : y <> 0).
  { intros ->. apply Hn. exists 0. reflexivity. }
  assert (Hy2 : y <> P - y).
  { intros E. apply Hn. exists 1. lia. }
  split; [split|].
  - split; [exact Hx|lia].
  - unfold on_curve in *. rewrite <- Hc.
    replace ((P - y) * (P - y)) with (y * y + (P - 2 * y) * P) by ring.
    apply Z_mod_plus_full.
  - unfold pointAdd. rewrite Z.eqb_refl.
    destruct (Z.eqb_spec y (P - y)); [contradiction|reflexivity].
Qed.

End CurveGroup.

(** ** Scalar multiples *)

Section Multiples.
Import Crypto.

Lemma pointAdd_None_r (p : point) : pointAdd p None = p.
Proof. destruct p as [[x y]|]; reflexivity. Qed.

Lemma times_valid (n : nat) (p : point) :
  valid_point p -> valid_point (times n p).
Proof.
  intros Hp. induction n as [|n IH]; cbn [times].
  - split; exact I.
  - apply pointAdd_valid; assumption.
Qed.

Lemma times_None (n : nat) : times n None = None.
Proof. induction n as [|n IH]; cbn [times]; [reflexivity|exact IH]. Qed.

Lemma times_add (a c : nat) (p : point) :
  valid_point p -> pointAdd (times a p) (times c p) = times (a + c) p.
Proof.
  intros Hp. induction a as [|a IH]; cbn [times Nat.add].
  - reflexivity.
  - rewrite pointAdd_assoc by (try apply times_valid; assumption).
    rewrite IH. reflexivity.
Qed.

Lemma times_mul (a c : nat) (p : point) :
  valid_point p -> times a (times c p) = times (a * c) p.
Proof.
  intros Hp. induction a as [|a IH]; cbn [times Nat.mul].
  - reflexivity.
  - rewrite IH. apply times_add, Hp.
Qed.

Lemma times_double (n : nat) (p : point) :
  valid_point p -> times n (pointAdd p p) = times (2 * n) p.
Proof.
  intros Hp.
  replace (pointAdd p p) with (times 2 p)
    by (cbn [times]; rewrite pointAdd_None_r; reflexivity).
  rewrite times_mul by assumption. f_equal. apply Nat.mul_comm.
Qed.

(** The loop of [pointMultiply] adds [k] times the addend to the result. *)
Lemma multiplyLoop_times (fuel : nat) :
  forall k result addend r,
    0 <= k -> valid_point result -> valid_point addend ->
    multiplyLoop fuel k result addend = Some r ->
    r = pointAdd result (times (Z.to_nat k) addend).
Proof.
  induction fuel as [|fuel IH]; intros k result addend r Hk Hr Ha H;
    cbn [multiplyLoop] in H.
  - destruct (Z.gtb_spec k 0); [discriminate|].
    replace k with 0 by lia. cbn [Z.to_nat times].
    rewrite pointAdd_None_r. congruence.
  - destruct (Z.gtb_spec k 0) as [Hpos|Hle].
    2: { replace k with 0 by lia. cbn [Z.to_nat times].
         rewrite pointAdd_None_r. congruence. }
    assert (Hh : Z.shiftr k 1 = k / 2)
      by (rewrite Z.shiftr_div_pow2 by lia; reflexivity).
    assert (Hb : Z.land k 1 = k mod 2)
      by (change 1 with (Z.ones 1) at 1; rewrite Z.land_ones by lia; reflexivity).
    rewrite Hh, Hb in H.
    pose proof (Z.div_mod k 2 ltac:(lia)) as Hdm.
    pose proof (Z.mod_pos_bound k 2 ltac:(lia)) as Hm.
    apply IH in H; [|apply Z.div_pos; lia| |apply pointAdd_valid; assumption].
    2: { destruct (negb (k mod 2 =? 0)); [apply pointAdd_valid|]; assumption. }
    rewrite times_double in H by assumption. subst r.
    destruct (Z.eqb_spec (k mod 2) 0) as [He|Ho]; cbn [negb].
    + f_equal. f_equal. lia.
    + rewrite pointAdd_assoc by (try apply times_valid; assumption).
      f_equal. change (pointAdd addend (times (2 * Z.to_nat (k / 2)) addend))
        with (times (S (2 * Z.to_nat (k / 2))) addend).
      f_equal. lia.
Qed.

(** [pointMultiply(k, p)] is [k] times [p]. *)
Lemma pointMultiply_times (k : Z) (p : point) :
  valid_point p -> pointMultiply k p = times (Z.to_nat k) p.
Proof.
  intros Hp. unfold pointMultiply.
  destruct (Z.le_gt_cases k 0) as [Hle|Hpos].
  - replace (Z.to_nat k) with 0%nat by lia. cbn [times].
    destruct (Z.to_nat (Z.log2 k)); cbn [multiplyLoop];
      destruct (Z.gtb_spec k 0); try lia; reflexivity.
  - destruct (multiplyLoop _ _ _ _) as [r|] eqn:H.
    + apply multiplyLoop_times in H; [exact H|lia|split; exact I|exact Hp].
    + exfalso. revert H. apply multiplyLoop_terminates.
      rewrite Nat2Z.inj_succ, Z2Nat.id by apply Z.log2_nonneg.
      apply Z.log2_spec. exact Hpos.
Qed.

(** [G] has order [N]: no multiple of [G] below [N] is the point at
    infinity. *)
Lemma pointMultiply_finite (k : Z) :
  1 <= k <= N - 1 -> pointMultiply k G <> None.
Proof.
  intros Hk HN. pose proof G_valid as HG.
  rewrite pointMultiply_times in HN by exact HG.
  pose proof N_times_G as HO. rewrite pointMultiply_times in HO by exact HG.
  assert (Hp : 0 < N) by reflexivity.
  assert (Hinv : (k * modInverse k N) mod N = 1).
  { apply modInverse_correct; [apply Z.prime_ge_2, N_prime|].
    rewrite Z.gcd_comm. apply Z.coprime_prime_small; [apply N_prime|lia]. }
  pose proof (modInverse_range k N Hp) as Hu.
  set (u := modInverse k N) in *.
  pose proof (Z.div_mod (k * u) N ltac:(lia)) as Hdm. rewrite Hinv in Hdm.
  assert (Hv : 0 <= k * u / N) by (apply Z.div_pos; nia).
  set (v := k * u / N) in *.
  assert (E : (Z.to_nat u * Z.to_nat k = 1 + Z.to_nat v * Z.to_nat N)%nat).
  { apply Nat2Z.inj. rewrite Nat2Z.inj_add, !Nat2Z.inj_mul, !Z2Nat.id by lia.
    change (Z.of_nat 1) with 1. lia. }
  assert (H1 : times (Z.to_nat u * Z.to_nat k) G = None).
  { rewrite <- times_mul by exact HG. rewrite HN. apply times_None. }
  rewrite E, <- times_add, <- times_mul, HO, times_None in H1 by exact HG.
  cbn [times] in H1. discriminate H1.
Qed.

(** Different scalars of [[1, N - 1]] give different multiples of [G]. *)
Lemma pointMultiply_inj (k1 k2 : Z) :
  1 <= k1 <= N - 1 -> 1 <= k2 <= N - 1 ->
  pointMultiply k1 G = pointMultiply k2 G -> k1 = k2.
Proof.
  assert (Hlt : forall a c, 1 <= a -> a < c -> c <= N - 1 ->
                  pointMultiply a G <> pointMultiply c G).
  { intros a c Ha Hac Hc H. pose proof G_valid as HG.
    apply (pointMultiply_finite (c - a)); [lia|].
    rewrite !pointMultiply_times in * by exact HG.
    replace (Z.to_nat c) with (Z.to_nat a + Z.to_nat (c - a))%nat in H by lia.
    rewrite <- times_add in H by exact HG.
    rewrite <- (pointAdd_None_r (times (Z.to_nat a) G)) in H at 1.
    apply pointAdd_cancel in H;
      [symmetry; exact H|apply times_valid, HG|split; exact I|apply times_valid, HG]. }
  intros H1 H2 H.
  destruct (Z.lt_trichotomy k1 k2) as [Hl|[He|Hg]]; [|exact He|].
  - exfalso. apply (Hlt k1 k2); [lia|exact Hl|lia|exact H].
  - exfalso. apply (Hlt k2 k1); [lia|exact Hg|lia|symmetry; exact H].
Qed.

End Multiples.

(** ** Hexadecimal marshalling *)

Section Hex.
Import JS Crypto.

Lemma below_16 (Q : Z -> Prop) :
  Q 0 -> Q 1 -> Q 2 -> Q 3 -> Q 4 -> Q 5 -> Q 6 -> Q 7 ->
  Q 8 -> Q 9 -> Q 10 -> Q 11 -> Q 12 -> Q 13 -> Q 14 -> Q 15 ->
  forall d, 0 <= d < 16 -> Q d.
Proof.
  intros. 
  assert (Hc : d = 0 \/ d = 1 \/ d = 2 \/ d = 3 \/ d = 4 \/ d = 5 \/ d = 6
               \/ d = 7 \/ d = 8 \/ d = 9 \/ d = 10 \/ d = 11 \/ d = 12
               \/ d = 13 \/ d = 14 \/ d = 15) by lia.
  repeat (destruct Hc as [->|Hc]; [assumption|]). subst d. assumption.
Qed.

Ltac by_digit d Hd tac :=
  revert d Hd; apply below_16; tac.

Lemma hexDigitValue_hexDigit d :
  0 <= d < 16 -> hexDigitValue (hexDigit d) = Some d.
Proof. intros Hd. by_digit d Hd reflexivity. Qed.

Lemma hexDigit_lower d : 0 <= d < 16 -> isLowerHex (hexDigit d).
Proof. intros Hd. by_digit d Hd ltac:(unfold isLowerHex, hexDigit; simpl; lia). Qed.

Lemma hexDigit_not_space d : 0 <= d < 16 -> isWhiteSpace (hexDigit d) = false.
Proof. intros Hd. by_digit d Hd reflexivity. Qed.

Lemma lower_is_hexDigit c :
  isLowerHex c -> exists d, 0 <= d < 16 /\ c = hexDigit d.
Proof.
  intros [H|H].
  - exists (c - 48). split; [lia|]. unfold hexDigit.
    destruct (Z.ltb_spec (c - 48) 10); lia.
  - exists (c - 87). split; [lia|]. unfold hexDigit.
    destruct (Z.ltb_spec (c - 87) 10); lia.
Qed.

(** [parseInt] of two hexadecimal digits, stored in a byte. *)
Lemma parse_pair a b :
  0 <= a < 16 -> 0 <= b < 16 ->
  toUint8 (parseInt16 [hexDigit a; hexDigit b]) = 16 * a + b.
Proof.
  intros Ha Hb.
  by_digit b Hb ltac:(by_digit a Ha reflexivity).
Qed.

(** *** Fixed-width digits *)

Lemma be_digits_length w k : forall n, length (be_digits w k n) = k.
Proof.
  induction k as [|k IH]; intros n; simpl; [reflexivity|].
  rewrite length_app, IH. simpl. lia.
Qed.

Lemma be_digits_groups w k :
  0 <= w -> forall n, groups w (be_digits w k n).
Proof.
  intros Hw. induction k as [|k IH]; intros n; simpl; [constructor|].
  apply Forall_app; split; [apply IH|].
  constructor; [|constructor].
  apply Z.mod_pos_bound. apply Z.pow_pos_nonneg; lia.
Qed.

Lemma be_digits_zero w k : be_digits w k 0 = repeat 0 k.
Proof.
  induction k as [|k IH]; simpl; [reflexivity|].
  rewrite Zdiv_0_l, Zmod_0_l, IH. symmetry. apply (repeat_cons k 0).
Qed.

(** Leading zeros. *)
Lemma be_digits_lead w m k :
  0 <= w ->
  forall n, 0 <= n < 2 ^ (w * Z.of_nat k) ->
            be_digits w (m + k) n = repeat 0 m ++ be_digits w k n.
Proof.
  intros Hw. pose proof (Z.pow_pos_nonneg 2 w ltac:(lia) Hw) as Hp.
  induction k as [|k IH]; intros n Hn.
  - rewrite Z.mul_0_r in Hn. change (2 ^ 0) with 1 in Hn.
    assert (n = 0) as -> by lia.
    rewrite Nat.add_0_r, be_digits_zero. simpl. rewrite app_nil_r. reflexivity.
  - rewrite Nat.add_succ_r. cbn [be_digits].
    rewrite IH, app_assoc; [reflexivity|].
    rewrite Nat2Z.inj_succ, Z.mul_succ_r, Z.pow_add_r in Hn by lia.
    split; [apply Z.div_pos; lia|].
    apply Z.div_lt_upper_bound; lia.
Qed.

Lemma val_be_digits w k :
  0 <= w -> forall n, val w (be_digits w k n) = n mod 2 ^ (w * Z.of_nat k).
Proof.
  intros Hw. pose proof (Z.pow_pos_nonneg 2 w ltac:(lia) Hw) as Hp.
  induction k as [|k IH]; intros n.
  - rewrite Z.mul_0_r. change (2 ^ 0) with 1. rewrite Z.mod_1_r. reflexivity.
  - cbn [be_digits]. rewrite val_snoc, IH.
    rewrite Nat2Z.inj_succ, Z.mul_succ_r, Z.pow_add_r by lia.
    rewrite (Z.mul_comm (2 ^ (w * Z.of_nat k))).
    rewrite Z.rem_mul_r by (try apply Z.pow_pos_nonneg; lia).
    lia.
Qed.

Lemma be_digits_val w l :
  0 < w -> groups w l -> be_digits w (length l) (val w l) = l.
Proof.
  intros Hw Hg. pose proof (Z.pow_pos_nonneg 2 w ltac:(lia) ltac:(lia)) as Hp.
  induction l as [|x l IH] using rev_ind; [reflexivity|].
  apply Forall_app in Hg as [Hg Hx]. inversion Hx as [|? ? Hx' _]; subst.
  rewrite length_app, Nat.add_comm. cbn [length Nat.add be_digits].
  rewrite val_snoc. unfold push.
  rewrite Z.div_add_l, Z.div_small, Z.add_0_r by lia.
  rewrite Z.add_comm, Z_mod_plus_full, Z.mod_small by lia.
  rewrite IH by assumption. reflexivity.
Qed.

(** *** [toString(16)] and [padStart] *)

Lemma digits16_spec fuel :
  forall n acc,
    (1 <= fuel)%nat -> 0 <= n < 16 ^ Z.of_nat fuel ->
    exists k,
      (1 <= k)%nat /\ (k = 1%nat \/ 16 ^ (Z.of_nat k - 1) <= n) /\
      n < 16 ^ Z.of_nat k /\
      digits16 fuel n acc = map hexDigit (be_digits 4 k n) ++ acc.
Proof.
  induction fuel as [|fuel IH]; intros n acc Hf Hn; [lia|].
  cbn [digits16]. destruct (Z.ltb_spec n 16) as [Hlt|Hge].
  - exists 1%nat. split; [lia|]. split; [left; reflexivity|].
    split; [simpl; lia|]. reflexivity.
  - rewrite Nat2Z.inj_succ, Z.pow_succ_r in Hn by lia.
    assert (Hq : 1 <= n / 16) by (apply Z.div_le_lower_bound; lia).
    assert (Hq' : n / 16 < 16 ^ Z.of_nat fuel)
      by (apply Z.div_lt_upper_bound; lia).
    assert (Hfuel : (1 <= fuel)%nat).
    { destruct fuel; [simpl in Hq'; lia|lia]. }
    destruct (IH (n / 16) (hexDigit (n mod 16) :: acc) Hfuel ltac:(lia))
      as (k & Hk1 & Hmin & Hlt & Hd).
    exists (S k). split; [lia|]. split; [|split].
    + right. rewrite Nat2Z.inj_succ.
      replace (Z.succ (Z.of_nat k) - 1) with (Z.succ (Z.of_nat k - 1)) by lia.
      rewrite Z.pow_succ_r by lia.
      pose proof (Z.div_mod n 16 ltac:(lia)).
      pose proof (Z.mod_pos_bound n 16 ltac:(lia)).
      destruct Hmin as [->|Hmin]; [simpl; lia|lia].
    + rewrite Nat2Z.inj_succ, Z.pow_succ_r by lia.
      pose proof (Z.div_mod n 16 ltac:(lia)).
      pose proof (Z.mod_pos_bound n 16 ltac:(lia)). lia.
    + rewrite Hd. cbn [be_digits]. change (2 ^ 4) with 16.
      rewrite map_app, <- app_assoc. reflexivity.
Qed.

Lemma toString16_padStart K n :
  (1 <= K)%nat -> 0 <= n < 16 ^ Z.of_nat K ->
  padStart K (toString16 n) = map hexDigit (be_digits 4 K n).
Proof.
  intros HK Hn. unfold toString16.
  destruct (Z.ltb_spec n 0); [lia|].
  destruct (digits16_spec (S (Z.to_nat (Z.log2 n))) n [] ltac:(lia))
    as (k & Hk1 & Hmin & Hlt & Hd).
  { split; [lia|]. rewrite Nat2Z.inj_succ, Z2Nat.id by apply Z.log2_nonneg.
    destruct (Z.eq_dec n 0) as [->|]; [simpl; lia|].
    apply Z.lt_le_trans with (2 ^ Z.succ (Z.log2 n)).
    - apply Z.log2_spec. lia.
    - apply Z.pow_le_mono_l. pose proof (Z.log2_nonneg n). lia. }
  rewrite Hd, app_nil_r. unfold padStart.
  rewrite length_map, be_digits_length.
  assert (HkK : (k <= K)%nat).
  { destruct Hmin as [->|Hmin]; [lia|].
    assert (16 ^ (Z.of_nat k - 1) < 16 ^ Z.of_nat K) by lia.
    apply Z.pow_lt_mono_r_iff in H0; lia. }
  replace (repeat 48 (K - k)) with (map hexDigit (repeat 0 (K - k)))
    by apply map_repeat.
  rewrite <- map_app. f_equal.
  rewrite <- be_digits_lead.
  - f_equal. lia.
  - lia.
  - split; [lia|]. rewrite Z.pow_mul_r by lia. exact Hlt.
Qed.

(** The two hexadecimal digits of a byte. *)
Lemma byte_digits b :
  0 <= b < 256 -> padStart 2 (toString16 b) = map hexDigit (be_digits 4 2 b).
Proof. intros Hb. apply toString16_padStart; [lia|simpl; lia]. Qed.

Lemma bytesToHex_digits bytes :
  groups 8 bytes ->
  bytesToHex bytes = map hexDigit (concat (map (be_digits 4 2) bytes)).
Proof.
  unfold bytesToHex. induction 1 as [|b r Hb _ IH]; [reflexivity|].
  cbn [map concat]. rewrite map_app, IH, byte_digits; [reflexivity|].
  simpl in Hb. lia.
Qed.

(** Base 16 and base 256 digits. *)
Lemma be_digits_4_8 k :
  forall n, be_digits 4 (2 * k) n = concat (map (be_digits 4 2) (be_digits 8 k n)).
Proof.
  induction k as [|k IH]; intros n; [reflexivity|].
  replace (2 * S k)%nat with (S (S (2 * k))) by lia.
  cbn [be_digits]. rewrite map_app, concat_app. cbn [map concat be_digits].
  change (2 ^ 4) with 16. change (2 ^ 8) with 256.
  rewrite IH, app_nil_r, <- !app_assoc. cbn [app].
  rewrite Z.div_div by lia. change (16 * 16) with 256.
  assert (E1 : (n mod 256) / 16 mod 16 = (n / 16) mod 16)
    by (Z.div_mod_to_equations; lia).
  assert (E2 : (n mod 256) mod 16 = n mod 16) by (Z.div_mod_to_equations; lia).
  rewrite E1, E2. reflexivity.
Qed.

Lemma fold_push_byte b A :
  0 <= b < 256 -> fold_left (push 4) (be_digits 4 2 b) A = push 8 A b.
Proof.
  intros Hb. cbn. unfold push. change (2 ^ 4) with 16. change (2 ^ 8) with 256.
  Z.div_mod_to_equations. lia.
Qed.

Lemma val_hex_digits bytes :
  groups 8 bytes -> val 4 (concat (map (be_digits 4 2) bytes)) = val 8 bytes.
Proof.
  intros Hg. unfold val. generalize 0.
  induction Hg as [|b r Hb _ IH]; intros A; [reflexivity|].
  cbn [map concat]. rewrite fold_left_app, fold_push_byte by (simpl in Hb; lia).
  apply IH.
Qed.

(** *** [hexToBytes] and [bytesToHex] are inverse on bytes *)

Lemma odd_hex_length bytes :
  Nat.odd (length (map hexDigit (concat (map (be_digits 4 2) bytes)))) = false.
Proof.
  rewrite length_map.
  induction bytes as [|b r IH]; [reflexivity|].
  cbn [map concat]. rewrite length_app, be_digits_length.
  cbn [Nat.add]. rewrite Nat.odd_succ_succ. exact IH.
Qed.

Lemma be_digits_byte b : be_digits 4 2 b = [(b / 16) mod 16; b mod 16].
Proof. reflexivity. Qed.

Lemma hexToBytes_digits bytes :
  groups 8 bytes ->
  hexToBytes (map hexDigit (concat (map (be_digits 4 2) bytes))) = bytes.
Proof.
  intros Hg. unfold hexToBytes. rewrite odd_hex_length.
  induction Hg as [|b r Hb _ IH]; [reflexivity|].
  cbn [map concat]. rewrite be_digits_byte. cbn [app map pairs]. rewrite IH.
  change (2 ^ 8) with 256 in Hb.
  rewrite parse_pair by (apply Z.mod_pos_bound; lia).
  f_equal. Z.div_mod_to_equations. lia.
Qed.

Lemma hexToBytes_bytesToHex bytes :
  groups 8 bytes -> hexToBytes (bytesToHex bytes) = bytes.
Proof.
  intros Hg. rewrite bytesToHex_digits by assumption.
  apply hexToBytes_digits. assumption.
Qed.

Lemma lower_hex_digits h :
  Forall isLowerHex h -> exists ds, groups 4 ds /\ h = map hexDigit ds.
Proof.
  induction 1 as [|c r Hc _ (ds & Hds & ->)].
  - exists []. split; constructor.
  - destruct (lower_is_hexDigit c Hc) as (d & Hd & ->).
    exists (d :: ds). split; [|reflexivity].
    constructor; [simpl; lia|assumption].
Qed.

(** A string of [2 * k] lower-case hexadecimal digits is the image of
    [k] bytes. *)
Lemma hex_string_bytes h k :
  Forall isLowerHex h -> length h = (2 * k)%nat ->
  exists bytes,
    groups 8 bytes /\ length bytes = k /\
    h = bytesToHex bytes /\ hexToBytes h = bytes.
Proof.
  intros Hh Hlen. destruct (lower_hex_digits h Hh) as (ds & Hds & ->).
  rewrite length_map in Hlen.
  exists (be_digits 8 k (val 4 ds)).
  pose proof (be_digits_groups 8 k ltac:(lia) (val 4 ds)) as Hg.
  assert (Hd : ds = concat (map (be_digits 4 2) (be_digits 8 k (val 4 ds)))).
  { rewrite <- be_digits_4_8, <- Hlen. symmetry.
    apply be_digits_val; [lia|assumption]. }
  split; [exact Hg|]. split; [apply be_digits_length|].
  rewrite bytesToHex_digits by exact Hg. rewrite <- Hd.
  split; [reflexivity|].
  rewrite Hd at 1. apply hexToBytes_digits. exact Hg.
Qed.

(** *** The string to BigInt conversion *)

Lemma trimEnd_digits ds :
  groups 4 ds -> trimEnd (map hexDigit ds) = map hexDigit ds.
Proof.
  intros Hg. unfold trimEnd.
  destruct ds as [|d0 ds0] using rev_ind; [reflexivity|].
  apply Forall_app in Hg as [_ Hd]. inversion Hd as [|? ? Hd' _]; subst.
  rewrite map_app, rev_app_distr. cbn [map rev app trimStart].
  rewrite hexDigit_not_space by (simpl in Hd'; lia).
  cbn [rev]. rewrite rev_involutive. reflexivity.
Qed.

Lemma hexAll_digits ds :
  groups 4 ds ->
  forall acc, hexAll (map hexDigit ds) acc = Some (fold_left (push 4) ds acc).
Proof.
  induction 1 as [|d r Hd _ IH]; intros acc; [reflexivity|].
  cbn [map hexAll fold_left].
  rewrite hexDigitValue_hexDigit by (simpl in Hd; lia).
  apply IH.
Qed.

Lemma bigIntOfHex_digits ds :
  groups 4 ds -> ds <> [] -> bigIntOfHex (map hexDigit ds) = Ok (val 4 ds).
Proof.
  intros Hg Hne. unfold bigIntOfHex.
  rewrite trimEnd_digits by assumption.
  destruct ds as [|d r]; [contradiction|].
  pose proof (hexAll_digits (d :: r) Hg 0) as H.
  cbn [map] in *. rewrite H. reflexivity.
Qed.

(** [bytesToBigInt] reads a non-empty byte array as a big-endian number. *)
Lemma bytesToBigInt_val bytes :
  groups 8 bytes -> bytes <> [] -> bytesToBigInt bytes = Ok (val 8 bytes).
Proof.
  intros Hg Hne. unfold bytesToBigInt.
  rewrite bytesToHex_digits by assumption.
  rewrite bigIntOfHex_digits.
  - rewrite val_hex_digits by assumption. reflexivity.
  - apply Forall_concat. apply Forall_map.
    eapply Forall_impl; [|exact Hg]. intros b _.
    apply be_digits_groups. lia.
  - destruct bytes as [|b r]; [contradiction|].
    cbn [map concat]. rewrite be_digits_byte. discriminate.
Qed.

(** [padStart(2 * k)] of [toString(16)] writes the [k] big-endian bytes. *)
Lemma padStart_bytes k n :
  (1 <= k)%nat -> 0 <= n < 256 ^ Z.of_nat k ->
  padStart (2 * k) (toString16 n) = bytesToHex (be_digits 8 k n).
Proof.
  intros Hk Hn.
  rewrite toString16_padStart, be_digits_4_8, bytesToHex_digits.
  - reflexivity.
  - apply be_digits_groups. lia.
  - lia.
  - rewrite Nat2Z.inj_mul, Z.pow_mul_r by lia. exact Hn.
Qed.

End Hex.

(** ** Key generation *)

Section KeyGeneration.
Import JS Crypto.

Lemma val_nonneg w l : 0 <= w -> groups w l -> 0 <= val w l.
Proof.
  intros Hw Hg. unfold val.
  assert (H : forall A, 0 <= A -> 0 <= fold_left (push w) l A); [|apply H; lia].
  induction Hg as [|x r Hx _ IH]; intros A HA; [exact HA|].
  cbn [fold_left]. apply IH. unfold push.
  pose proof (Z.pow_pos_nonneg 2 w ltac:(lia) Hw). nia.
Qed.

Lemma val_bound w l : 0 <= w -> groups w l -> val w l < 2 ^ (w * Z.of_nat (length l)).
Proof.
  intros Hw Hg. pose proof (Z.pow_pos_nonneg 2 w ltac:(lia) Hw) as Hp.
  induction l as [|x l IH] using rev_ind.
  - simpl. rewrite Z.mul_0_r. reflexivity.
  - apply Forall_app in Hg as [Hg Hx]. inversion Hx as [|? ? Hx' _]; subst.
    specialize (IH Hg).
    rewrite val_snoc, length_app, Nat2Z.inj_add. cbn [length].
    rewrite Z.mul_add_distr_l, Z.pow_add_r by lia.
    change (w * Z.of_nat 1) with (w * 1). rewrite Z.mul_1_r. nia.
Qed.

(** What [bytesToHex] writes. *)
Lemma bytesToHex_props bytes :
  groups 8 bytes ->
  length (bytesToHex bytes) = (2 * length bytes)%nat /\
  Forall isLowerHex (bytesToHex bytes) /\
  hexAll (bytesToHex bytes) 0 = Some (val 8 bytes).
Proof.
  intros Hg. rewrite bytesToHex_digits by assumption.
  assert (Hd : groups 4 (concat (map (be_digits 4 2) bytes))).
  { apply Forall_concat. apply Forall_map.
    eapply Forall_impl; [|exact Hg]. intros b _.
    apply be_digits_groups. lia. }
  split; [|split].
  - rewrite length_map. clear Hg Hd.
    induction bytes as [|b r IH]; [reflexivity|].
    cbn [map concat length]. rewrite length_app, be_digits_length, IH. lia.
  - apply Forall_map. eapply Forall_impl; [|exact Hd].
    intros d Hdr. apply hexDigit_lower. simpl in Hdr. lia.
  - rewrite hexAll_digits by exact Hd.
    rewrite fold_push_val.
    rewrite val_hex_digits by assumption. reflexivity.
Qed.

(** [bigIntToBytes(key, 32)] for a key below [2^256]. *)
Lemma bigIntToBytes_32 key :
  0 <= key < 2 ^ 256 -> bigIntToBytes key 32 = be_digits 8 32 key.
Proof.
  intros Hk. unfold bigIntToBytes.
  change (32 * 2)%nat with (2 * 32)%nat.
  rewrite padStart_bytes by (try lia; exact Hk).
  apply hexToBytes_bytesToHex. apply be_digits_groups. lia.
Qed.

Variable random : nat -> list Z.
Hypothesis random_bytes :
  forall i, length (random i) = 32%nat /\ groups 8 (random i).

(** The [i]-th draw denotes a key of [[1, N - 1]]. *)

Lemma draw_value i : bytesToBigInt (random i) = Ok (val 8 (random i)).
Proof.
  destruct (random_bytes i) as [Hl Hg].
  apply bytesToBigInt_val; [exact Hg|].
  intros H. rewrite H in Hl. discriminate.
Qed.

Lemma draw_range i : 0 <= val 8 (random i) < 2 ^ 256.
Proof.
  destruct (random_bytes i) as [Hl Hg]. split.
  - apply val_nonneg; [lia|exact Hg].
  - pose proof (val_bound 8 (random i) ltac:(lia) Hg) as H.
    rewrite Hl in H. exact H.
Qed.

(** The loop returns the first accepted draw, if it returns. *)
Lemma redraw_sound fuel :
  forall i key,
    (forall j, (j < i)%nat -> ~ accepted random j) ->
    redraw fuel random i (val 8 (random i)) = Ok key ->
    exists i', key = val 8 (random i') /\ accepted random i' /\
               forall j, (j < i')%nat -> ~ accepted random j.
Proof.
  induction fuel as [|fuel IH]; intros i key Hprev H; cbn [redraw] in H.
  - destruct (Z.geb_spec (val 8 (random i)) N) as [Hge|Hlt]; cbn [orb] in H;
      [discriminate|].
    destruct (Z.eqb_spec (val 8 (random i)) 0) as [H0|Hn0]; [discriminate|].
    inversion H; subst key. exists i.
    pose proof (draw_range i). unfold accepted. repeat split; try lia. exact Hprev.
  - destruct (Z.geb_spec (val 8 (random i)) N) as [Hge|Hlt]; cbn [orb] in H.
    + rewrite draw_value in H. cbn [bind] in H.
      apply IH in H; [exact H|].
      intros j Hj. destruct (Nat.eq_dec j i) as [->|Hne].
      * unfold accepted. lia.
      * apply Hprev. lia.
    + destruct (Z.eqb_spec (val 8 (random i)) 0) as [H0|Hn0].
      * rewrite draw_value in H. cbn [bind] in H.
        apply IH in H; [exact H|].
        intros j Hj. destruct (Nat.eq_dec j i) as [->|Hne].
        -- unfold accepted. lia.
        -- apply Hprev. lia.
      * inversion H; subst key. exists i.
        pose proof (draw_range i). unfold accepted.
        repeat split; try lia. exact Hprev.
Qed.

(** The loop returns as soon as a draw is accepted. *)
Lemma redraw_returns m :
  forall fuel i,
    (m <= fuel)%nat ->
    (forall j, (i <= j < i + m)%nat -> ~ accepted random j) ->
    accepted random (i + m) ->
    redraw fuel random i (val 8 (random i)) = Ok (val 8 (random (i + m))).
Proof.
  induction m as [|m IH]; intros fuel i Hf Hrej Hacc.
  - rewrite Nat.add_0_r in *. unfold accepted in Hacc.
    destruct fuel; cbn [redraw];
      destruct (Z.geb_spec (val 8 (random i)) N); try lia;
      destruct (Z.eqb_spec (val 8 (random i)) 0); try lia; reflexivity.
  - destruct fuel as [|fuel]; [lia|]. cbn [redraw].
    assert (Hi : ~ accepted random i) by (apply Hrej; lia).
    pose proof (draw_range i) as Hr. unfold accepted in Hi.
    assert (Hcond : (val 8 (random i) >=? N) || (val 8 (random i) =? 0) = true).
    { destruct (Z.geb_spec (val 8 (random i)) N); [reflexivity|].
      destruct (Z.eqb_spec (val 8 (random i)) 0); [reflexivity|lia]. }
    rewrite Hcond, draw_value. cbn [bind].
    replace (i + S m)%nat with (S i + m)%nat in * by lia.
    apply IH; [lia| |exact Hacc].
    intros j Hj. apply Hrej. lia.
Qed.

Lemma N_below_2_256 : N < 2 ^ 256.
Proof. reflexivity. Qed.

(** C4.  For every sequence of 32-byte draws of the random source: every
    string [generatePrivateKey] returns is the hexadecimal form of the
    first draw that denotes a key of [[1, N - 1]], earlier draws being
    redrawn; it is 64 lower-case hexadecimal digits long and denotes that
    key.  And [generatePrivateKey] returns as soon as a draw is accepted. *)
Theorem generatePrivateKey_range :
  (forall fuel s,
      generatePrivateKey random fuel = Ok s ->
      exists i,
        accepted random i /\ (forall j, (j < i)%nat -> ~ accepted random j) /\
        s = bytesToHex (random i) /\
        length s = 64%nat /\ Forall isLowerHex s /\
        hexAll s 0 = Some (val 8 (random i))) /\
  (forall i fuel,
      accepted random i -> (forall j, (j < i)%nat -> ~ accepted random j) ->
      (i <= fuel)%nat ->
      generatePrivateKey random fuel = Ok (bytesToHex (random i))).
Proof.
  assert (Hhex : forall i, accepted random i ->
                   bytesToHex (bigIntToBytes (val 8 (random i)) 32)
                   = bytesToHex (random i)).
  { intros i Hacc. destruct (random_bytes i) as [Hl Hg].
    rewrite bigIntToBytes_32 by apply draw_range.
    rewrite <- Hl, be_digits_val by (lia || exact Hg). reflexivity. }
  split.
  - intros fuel s H. unfold generatePrivateKey in H.
    rewrite draw_value in H. cbn [bind] in H.
    destruct (redraw fuel random 0 (val 8 (random 0))) as [key| |] eqn:Hr;
      cbn [bind] in H; try discriminate.
    apply redraw_sound in Hr; [|intros j Hj; lia].
    destruct Hr as (i & -> & Hacc & Hfirst).
    inversion H; subst s. rewrite Hhex by exact Hacc.
    exists i. destruct (random_bytes i) as [Hl Hg].
    destruct (bytesToHex_props (random i) Hg) as (Hlen & Hlow & Hval).
    rewrite Hl in Hlen.
    split; [exact Hacc|]. split; [exact Hfirst|]. split; [reflexivity|].
    split; [exact Hlen|]. split; assumption.
  - intros i fuel Hacc Hfirst Hf. unfold generatePrivateKey.
    rewrite draw_value. cbn [bind].
    rewrite (redraw_returns i fuel 0%nat); cbn [Nat.add bind].
    + rewrite Hhex by exact Hacc. reflexivity.
    + exact Hf.
    + intros j Hj. apply Hfirst. lia.
    + exact Hacc.
Qed.

End KeyGeneration.

Lemma generatePrivateKey_range_witness :
  let random := fun i : nat =>
    match i with
    | O => repeat 255 32
    | S O => repeat 0 32
    | _ => repeat 0 31 ++ [7]
    end in
  Crypto.generatePrivateKey random 5
  = Ok (Crypto.bytesToHex (random 2%nat)).
Proof.
  intros random.
  assert (Hbytes : forall i, length (random i) = 32%nat /\ groups 8 (random i)).
  { intros [|[|i]]; (split; [reflexivity|]);
      unfold random, groups; repeat (constructor; [simpl; lia|]); constructor. }
  apply (proj2 (generatePrivateKey_range random Hbytes) 2%nat 5%nat).
  - unfold accepted. vm_compute. split; discriminate.
  - intros [|[|j]] Hj; [| |lia]; unfold accepted; vm_compute;
      intros [H1 H2]; [apply H2|apply H1]; reflexivity.
  - lia.
Defined.

(** ** Signing *)

Section Signing.
Import JS Crypto.

Lemma N_pos : 0 < N.
Proof. reflexivity. Qed.

Lemma reduced_pointAdd A B : reduced A -> reduced B -> reduced (pointAdd A B).
Proof.
  pose proof P_pos as HP.
  destruct A as [[x1 y1]|]; [|intros _ H; exact H].
  destruct B as [[x2 y2]|]; [|intros H _; exact H].
  intros _ _. unfold pointAdd.
  destruct ((x1 =? x2) && (y1 =? y2)).
  - split; apply mod_range; assumption.
  - destruct (x1 =? x2); [exact I|].
    split; apply mod_range; assumption.
Qed.

Lemma reduced_multiplyLoop fuel :
  forall k r a r',
    reduced r -> reduced a -> multiplyLoop fuel k r a = Some r' -> reduced r'.
Proof.
  induction fuel as [|fuel IH]; intros k r a r' Hr Ha H; cbn [multiplyLoop] in H.
  - destruct (k >? 0); [discriminate|]. inversion H; subst; assumption.
  - destruct (k >? 0); [|inversion H; subst; assumption].
    eapply IH; [| |exact H].
    + destruct (negb (Z.land k 1 =? 0)); [apply reduced_pointAdd|]; assumption.
    + apply reduced_pointAdd; assumption.
Qed.

Lemma reduced_pointMultiply k x y :
  pointMultiply k G = Some (x, y) -> 0 <= x < P.
Proof.
  unfold pointMultiply.
  destruct (multiplyLoop _ _ _ _) as [r|] eqn:H; [|discriminate].
  intros ->. apply reduced_multiplyLoop in H; [apply H|exact I|].
  apply G_valid.
Qed.


Variable digest : list Z -> list Z.
Hypothesis digest_bytes :
  forall data, length (digest data) = 32%nat /\ groups 8 (digest data).

Lemma generateK_nonce privKey msgHash :
  generateK digest privKey msgHash = Ok (nonce digest privKey msgHash).
Proof.
  unfold generateK, nonce, sha256. cbv zeta.
  destruct (digest_bytes (utf8 (toString16 privKey ++ toString16 msgHash)))
    as [Hl Hg].
  rewrite bytesToBigInt_val; [|exact Hg|].
  - cbn [bind]. rewrite mod_spec by apply N_pos. reflexivity.
  - intros H. rewrite H in Hl. discriminate.
Qed.

Lemma nonce_range privKey msgHash : 1 <= nonce digest privKey msgHash <= N - 1.
Proof.
  unfold nonce. cbv zeta.
  set (v := val 8 _).
  pose proof (Z.mod_pos_bound v N N_pos) as Hb.
  destruct (Z.eqb_spec (v mod N) 0); [|lia].
  split; [lia|]. vm_compute. discriminate.
Qed.

(** [BigInt("0x" + hex)] of the hexadecimal form of a byte array. *)
Lemma bigIntOfHex_bytes bytes :
  groups 8 bytes -> bytes <> [] ->
  bigIntOfHex (bytesToHex bytes) = Ok (val 8 bytes).
Proof. exact (bytesToBigInt_val bytes). Qed.

Lemma key_string_value privKey :
  1 <= privKey <= N - 1 ->
  bigIntOfHex (bytesToHex (be_digits 8 32 privKey)) = Ok privKey.
Proof.
  intros Hk. pose proof N_below_2_256.
  rewrite bigIntOfHex_bytes.
  - rewrite val_be_digits by lia. rewrite Z.mod_small; [reflexivity|].
    assert (E : 2 ^ (8 * Z.of_nat 32) = 2 ^ 256) by reflexivity.
    rewrite E. lia.
  - apply be_digits_groups. lia.
  - intros H0. apply (f_equal (@length Z)) in H0.
    rewrite be_digits_length in H0. simpl in H0. lia.
Qed.

Lemma key_form_value privKey a :
  1 <= privKey <= N - 1 -> key_form privKey a ->
  match a with
  | KeyString hex => bigIntOfHex hex
  | KeyBigInt k => Ok k
  end = Ok privKey.
Proof.
  intros Hk [Ha|Ha]; subst a; cbv beta iota.
  - reflexivity.
  - apply key_string_value. exact Hk.
Qed.



End Signing.


(** ** The checksum *)

Section Polymod.
Import JS Bech32.

Lemma lxor_range n a b :
  0 <= n -> 0 <= a < 2 ^ n -> 0 <= b < 2 ^ n -> 0 <= Z.lxor a b < 2 ^ n.
Proof.
  intros Hn Ha Hb.
  assert (H0 : 0 <= Z.lxor a b) by (apply Z.lxor_nonneg; lia).
  split; [exact H0|].
  destruct (Z.eq_dec (Z.lxor a b) 0) as [->|Hne]; [lia|].
  apply Z.log2_lt_pow2; [lia|].
  pose proof (Z.log2_lxor a b ltac:(lia) ltac:(lia)) as Hl.
  assert (Hla : Z.log2 a < n).
  { destruct (Z.eq_dec a 0) as [->|]; [|apply Z.log2_lt_pow2; lia].
    destruct (Z.eq_dec n 0) as [->|]; [|simpl; lia].
    exfalso. apply Hne. assert (b = 0) as -> by (simpl in Hb; lia). reflexivity. }
  assert (Hlb : Z.log2 b < n).
  { destruct (Z.eq_dec b 0) as [->|]; [|apply Z.log2_lt_pow2; lia].
    destruct (Z.eq_dec n 0) as [->|]; [|simpl; lia].
    exfalso. apply Hne. assert (a = 0) as -> by (simpl in Ha; lia). reflexivity. }
  lia.
Qed.

Lemma land_lxor_distr a b m :
  Z.land (Z.lxor a b) m = Z.lxor (Z.land a m) (Z.land b m).
Proof.
  apply Z.bits_inj'; intros i Hi.
  rewrite !Z.land_spec, !Z.lxor_spec, !Z.land_spec.
  destruct (Z.testbit a i), (Z.testbit b i), (Z.testbit m i); reflexivity.
Qed.

(** The 32-bit operators on small non-negative numbers. *)
Lemma small_int32 a : 0 <= a < 2 ^ 31 -> toInt32 a = a.
Proof. intros H. apply toInt32_id. lia. Qed.

Lemma bxor_small a b :
  0 <= a < 2 ^ 31 -> 0 <= b < 2 ^ 31 -> bxor a b = Z.lxor a b.
Proof. intros Ha Hb. unfold bxor. rewrite !small_int32 by assumption. reflexivity. Qed.

Lemma band_small a b :
  0 <= a < 2 ^ 31 -> 0 <= b < 2 ^ 31 -> band a b = Z.land a b.
Proof. intros Ha Hb. unfold band. rewrite !small_int32 by assumption. reflexivity. Qed.

Lemma sar_small a k :
  0 <= a < 2 ^ 31 -> 0 <= k < 32 -> sar a k = Z.shiftr a k.
Proof.
  intros Ha Hk. unfold sar.
  rewrite small_int32 by assumption. rewrite Z.mod_small by lia. reflexivity.
Qed.

Lemma shl_small a k :
  0 <= a -> 0 <= k < 32 -> a * 2 ^ k < 2 ^ 31 -> shl a k = Z.shiftl a k.
Proof.
  intros Ha Hk Hb. unfold shl.
  pose proof (Z.pow_pos_nonneg 2 k ltac:(lia) ltac:(lia)).
  rewrite (small_int32 a) by nia.
  rewrite Z.mod_small by lia.
  apply small_int32. rewrite Z.shiftl_mul_pow2 by lia. nia.
Qed.

Lemma in30_31 x : in30 x -> 0 <= x < 2 ^ 31.
Proof. unfold in30. lia. Qed.

Lemma GEN_in30 n : in30 (nth n GEN 0).
Proof.
  unfold in30.
  do 5 (destruct n as [|n]; [simpl; lia|]). destruct n; simpl; lia.
Qed.

Lemma polymodStep_genStep chk value :
  polymodStep chk value
  = fold_left (genStep (sar chk 25)) [0; 1; 2; 3; 4]
              (bxor (shl (band chk 0x1ffffff) 5) value).
Proof. reflexivity. Qed.

Lemma genStep_lxor top i y z :
  in30 y -> in30 z ->
  in30 (genStep top y i) /\
  genStep top (Z.lxor y z) i = Z.lxor (genStep top y i) z.
Proof.
  intros Hy Hz. unfold genStep.
  pose proof (GEN_in30 (Z.to_nat i)) as Hg.
  pose proof (lxor_range 30 y z ltac:(lia) Hy Hz) as Hyz.
  pose proof (lxor_range 30 y _ ltac:(lia) Hy Hg) as Hyg.
  destruct (negb (band (sar top i) 1 =? 0)); [|split; [exact Hy|reflexivity]].
  rewrite !bxor_small by (apply in30_31; assumption).
  split; [exact Hyg|].
  rewrite !Z.lxor_assoc. f_equal. apply Z.lxor_comm.
Qed.

Lemma genFold_lxor top l :
  forall y z,
    in30 y -> in30 z ->
    in30 (fold_left (genStep top) l y) /\
    fold_left (genStep top) l (Z.lxor y z)
    = Z.lxor (fold_left (genStep top) l y) z.
Proof.
  induction l as [|i l IH]; intros y z Hy Hz; [split; [exact Hy|reflexivity]|].
  cbn [fold_left].
  destruct (genStep_lxor top i y z Hy Hz) as [Hs ->].
  apply IH; assumption.
Qed.

Lemma masked_shift chk :
  in30 chk ->
  shl (band chk 0x1ffffff) 5 = Z.shiftl (Z.land chk (Z.ones 25)) 5 /\
  in30 (Z.shiftl (Z.land chk (Z.ones 25)) 5).
Proof.
  intros Hc. pose proof (in30_31 _ Hc).
  change 0x1ffffff with (Z.ones 25).
  rewrite band_small by (assumption || (change (Z.ones 25) with 33554431; lia)).
  rewrite Z.land_ones by lia.
  pose proof (Z.mod_pos_bound chk (2 ^ 25) ltac:(lia)) as Hm.
  rewrite shl_small by lia.
  split; [reflexivity|].
  unfold in30. rewrite Z.shiftl_mul_pow2 by lia. lia.
Qed.

Lemma polymodStep_in30 chk v : in30 chk -> in30 v -> in30 (polymodStep chk v).
Proof.
  intros Hc Hv. rewrite polymodStep_genStep.
  destruct (masked_shift chk Hc) as [-> HA].
  rewrite bxor_small by (apply in30_31; assumption).
  pose proof (lxor_range 30 _ _ ltac:(lia) HA Hv) as Hav.
  assert (H0 : in30 0) by (unfold in30; lia).
  exact (proj1 (genFold_lxor _ _ _ 0 Hav H0)).
Qed.

(** [polymod] is affine in each symbol... *)
Lemma polymodStep_value chk v :
  in30 chk -> in30 v -> polymodStep chk v = Z.lxor (polymodStep chk 0) v.
Proof.
  intros Hc Hv. rewrite !polymodStep_genStep.
  destruct (masked_shift chk Hc) as [-> HA].
  rewrite !bxor_small by (apply in30_31; (assumption || (unfold in30; lia))).
  rewrite Z.lxor_0_r.
  exact (proj2 (genFold_lxor _ _ _ _ HA Hv)).
Qed.

(** ... and in the low 25 bits of its state. *)
Lemma polymodStep_state chk b v :
  in30 chk -> 0 <= b < 2 ^ 25 -> in30 v ->
  polymodStep (Z.lxor chk b) v = Z.lxor (polymodStep chk v) (Z.shiftl b 5).
Proof.
  intros Hc Hb Hv.
  assert (Hb30 : in30 b) by (unfold in30; lia).
  pose proof (lxor_range 30 chk b ltac:(lia) Hc Hb30) as Hcb.
  rewrite !polymodStep_genStep.
  destruct (masked_shift chk Hc) as [-> HA].
  destruct (masked_shift _ Hcb) as [-> HA'].
  assert (Htop : sar (Z.lxor chk b) 25 = sar chk 25).
  { rewrite !sar_small by (unfold in30 in *; lia).
    rewrite Z.shiftr_lxor.
    rewrite (Z.shiftr_div_pow2 b), Z.div_small, Z.lxor_0_r by lia.
    reflexivity. }
  rewrite Htop.
  assert (Hsh : in30 (Z.shiftl b 5)).
  { unfold in30. rewrite Z.shiftl_mul_pow2 by lia. lia. }
  assert (HA2 : Z.shiftl (Z.land (Z.lxor chk b) (Z.ones 25)) 5
                = Z.lxor (Z.shiftl (Z.land chk (Z.ones 25)) 5) (Z.shiftl b 5)).
  { rewrite land_lxor_distr, Z.shiftl_lxor.
    rewrite (Z.land_ones b), (Z.mod_small b) by lia. reflexivity. }
  rewrite HA2.
  pose proof (lxor_range 30 _ _ ltac:(lia) HA Hsh) as HAs.
  rewrite !bxor_small by (unfold in30 in *; lia).
  replace (Z.lxor (Z.lxor (Z.shiftl (Z.land chk (Z.ones 25)) 5) (Z.shiftl b 5)) v)
    with (Z.lxor (Z.lxor (Z.shiftl (Z.land chk (Z.ones 25)) 5) v) (Z.shiftl b 5))
    by (rewrite !Z.lxor_assoc; f_equal; apply Z.lxor_comm).
  pose proof (lxor_range 30 _ _ ltac:(lia) HA Hv) as Hav.
  exact (proj2 (genFold_lxor _ _ _ _ Hav Hsh)).
Qed.

Lemma polymod_in30 values :
  Forall in30 values -> forall chk, in30 chk -> in30 (fold_left polymodStep values chk).
Proof.
  induction 1 as [|v r Hv _ IH]; intros chk Hc; [exact Hc|].
  cbn [fold_left]. apply IH. apply polymodStep_in30; assumption.
Qed.

Lemma shift_xor_add b c :
  0 <= c < 32 -> Z.lxor (Z.shiftl b 5) c = push 5 b c.
Proof.
  intros Hc. unfold push. change (2 ^ 5) with 32.
  assert (Hl : Z.land (Z.shiftl b 5) c = 0).
  { apply Z.bits_inj'; intros i Hi.
    rewrite Z.land_spec, Z.bits_0.
    destruct (Z.ltb_spec i 5).
    - rewrite Z.shiftl_spec_low by lia. reflexivity.
    - rewrite (Z.bits_above_log2 c i), andb_false_r; [reflexivity|lia|].
      destruct (Z.eq_dec c 0) as [->|]; [simpl; lia|].
      apply Z.lt_le_trans with 5; [|lia].
      apply Z.log2_lt_pow2; simpl; lia. }
  rewrite Z.lxor_lor by exact Hl.
  pose proof (Z.add_lor_land (Z.shiftl b 5) c) as Ha.
  set (L := Z.lor (Z.shiftl b 5) c) in *.
  rewrite Hl, Z.shiftl_mul_pow2 in Ha by lia. change (2 ^ 5) with 32 in Ha. lia.
Qed.

(** Feeding the symbols [cs] instead of zeros xors the packed symbols
    into the result. *)
Lemma polymod_tail cs :
  forall S b,
    in30 S -> (length cs <= 6)%nat ->
    0 <= b < 2 ^ (30 - 5 * Z.of_nat (length cs)) -> groups 5 cs ->
    fold_left polymodStep cs (Z.lxor S b)
    = Z.lxor (fold_left polymodStep (repeat 0 (length cs)) S)
             (fold_left (push 5) cs b).
Proof.
  induction cs as [|c r IH]; intros S b HS Hlen Hb Hg.
  - reflexivity.
  - inversion Hg as [|? ? Hc Hr]; subst.
    cbn [length] in *. cbn [fold_left repeat].
    rewrite Nat2Z.inj_succ in Hb.
    assert (Hb25 : 0 <= b < 2 ^ 25).
    { split; [lia|]. apply Z.lt_le_trans with (2 ^ (30 - 5 * Z.succ (Z.of_nat (length r)))); [lia|].
      apply Z.pow_le_mono_r; lia. }
    assert (Hc30 : in30 c).
    { unfold in30. change (2 ^ 5) with 32 in Hc. lia. }
    rewrite polymodStep_state by assumption.
    rewrite polymodStep_value by assumption.
    rewrite Z.lxor_assoc, (Z.lxor_comm c), shift_xor_add
      by (change (2 ^ 5) with 32 in Hc; lia).
    apply IH; try assumption; try lia.
    + apply polymodStep_in30; [assumption|unfold in30; lia].
    + unfold push. change (2 ^ 5) with 32 in *.
      replace (30 - 5 * Z.of_nat (length r))
        with (30 - 5 * Z.succ (Z.of_nat (length r)) + 5) by lia.
      rewrite Z.pow_add_r by lia. change (2 ^ 5) with 32. lia.
Qed.

Lemma digit_at X s :
  in30 X -> 0 <= s < 32 -> band (sar X s) 31 = (X / 2 ^ s) mod 32.
Proof.
  intros HX Hs. pose proof (in30_31 _ HX) as H31.
  rewrite sar_small by assumption.
  rewrite Z.shiftr_div_pow2 by lia.
  pose proof (Z.pow_pos_nonneg 2 s ltac:(lia) ltac:(lia)) as Hp.
  assert (0 <= X / 2 ^ s <= X).
  { split; [apply Z.div_pos; lia|].
    apply Z.div_le_upper_bound; [lia|]. nia. }
  rewrite band_small by lia.
  change 31 with (Z.ones 5). rewrite Z.land_ones by lia. reflexivity.
Qed.

Lemma groups5_in30 l : groups 5 l -> Forall in30 l.
Proof.
  intros H. eapply Forall_impl; [|exact H].
  intros x Hx. cbv beta in Hx. change (2 ^ 5) with 32 in Hx.
  unfold in30. lia.
Qed.

(** The checksum symbols are the six base-32 digits of [polymod ^ 1]. *)
Lemma createChecksum_digits hrp data :
  Forall in30 (hrpExpand hrp) -> groups 5 data ->
  let M := polymod (hrpExpand hrp ++ data ++ [0; 0; 0; 0; 0; 0]) in
  in30 M /\ createChecksum hrp data = be_digits 5 6 (Z.lxor M 1).
Proof.
  intros Hh Hd M.
  assert (HM : in30 M).
  { apply polymod_in30; [|unfold in30; lia].
    apply Forall_app; split; [exact Hh|].
    apply Forall_app; split; [apply groups5_in30; exact Hd|].
    repeat constructor; lia. }
  split; [exact HM|].
  assert (H1 : in30 1) by (unfold in30; lia).
  pose proof (lxor_range 30 M 1 ltac:(lia) HM H1) as HX.
  unfold createChecksum. fold M. cbv zeta.
  rewrite bxor_small by (unfold in30 in *; lia).
  set (X := Z.lxor M 1) in *.
  cbn [map]. rewrite !digit_at by (assumption || lia).
  cbn [be_digits app]. change (2 ^ 5) with 32.
  rewrite !Z.div_div by lia.
  change (2 ^ (5 * (5 - 5))) with 1. rewrite Z.div_1_r.
  reflexivity.
Qed.

(** The checksum that [encode] appends verifies. *)
Lemma verifyChecksum_encoded hrp data :
  Forall in30 (hrpExpand hrp) -> groups 5 data ->
  verifyChecksum hrp (data ++ createChecksum hrp data) = true.
Proof.
  intros Hh Hd.
  destruct (createChecksum_digits hrp data Hh Hd) as [HM Hcs].
  set (M := polymod (hrpExpand hrp ++ data ++ [0; 0; 0; 0; 0; 0])) in *.
  unfold verifyChecksum, polymod.
  rewrite !app_assoc, fold_left_app, Hcs.
  set (S := fold_left polymodStep (hrpExpand hrp ++ data) 1).
  assert (HS : in30 S).
  { apply polymod_in30; [|unfold in30; lia].
    apply Forall_app; split; [exact Hh|].
    apply groups5_in30; exact Hd. }
  assert (H1 : in30 1) by (unfold in30; lia).
  pose proof (lxor_range 30 M 1 ltac:(lia) HM H1) as HX.
  rewrite <- (Z.lxor_0_r S) at 1.
  rewrite polymod_tail.
  - rewrite be_digits_length.
    rewrite fold_push_val.
    rewrite val_be_digits by lia.
    change (2 ^ (5 * Z.of_nat 6)) with (2 ^ 30).
    rewrite Z.mod_small by exact HX.
    replace (fold_left polymodStep (repeat 0 6) S) with M.
    + rewrite <- Z.lxor_assoc, Z.lxor_nilpotent. reflexivity.
    + unfold M, polymod, S. rewrite !app_assoc, fold_left_app. reflexivity.
  - exact HS.
  - rewrite be_digits_length. lia.
  - rewrite be_digits_length. simpl. lia.
  - apply be_digits_groups. lia.
Qed.

End Polymod.

(** ** Encoding and decoding *)

Section Codec.
Import JS Bech32.

Lemma below_32 (f : Z -> bool) :
  forallb f (map Z.of_nat (seq 0 32)) = true ->
  forall d, 0 <= d < 32 -> f d = true.
Proof.
  intros H d Hd. rewrite forallb_forall in H. apply H.
  apply in_map_iff. exists (Z.to_nat d). split; [lia|].
  apply in_seq. lia.
Qed.

Lemma charset_length : length charset = 32%nat.
Proof. reflexivity. Qed.

(** Each symbol has its own character, none of them the separator. *)
Lemma charset_index d : 0 <= d < 32 -> indexOf charset (charOf d) = d.
Proof.
  intros Hd. apply Z.eqb_eq. revert d Hd.
  apply (below_32 (fun d => indexOf charset (charOf d) =? d)).
  vm_compute. reflexivity.
Qed.

Lemma charset_not_separator d : 0 <= d < 32 -> charOf d <> 49.
Proof.
  intros Hd. apply Z.eqb_neq. apply negb_true_iff. revert d Hd.
  apply (below_32 (fun d => negb (charOf d =? 49))).
  vm_compute. reflexivity.
Qed.

Lemma index_charset d : 0 <= d < 32 -> index charset d = Some (charOf d).
Proof.
  intros Hd. unfold index. rewrite charset_length.
  destruct (Z.leb_spec 0 d); [|lia].
  destruct (Z.ltb_spec d (Z.of_nat 32)); [|lia].
  cbn [andb]. apply nth_error_nth'. rewrite charset_length. lia.
Qed.

Lemma charOf_in d : 0 <= d < 32 -> In (charOf d) charset.
Proof. intros Hd. apply nth_In. rewrite charset_length. lia. Qed.

Lemma groups5_symbols l : groups 5 l <-> Forall (fun d => 0 <= d < 32) l.
Proof. reflexivity. Qed.

(** The loop of [encode] appends one character of the alphabet per
    symbol. *)
Lemma encode_chars l :
  Forall (fun d => 0 <= d < 32) l ->
  forall acc,
    fold_left (fun result d => appendIndexed result (index charset d)) l acc
    = acc ++ map charOf l.
Proof.
  induction 1 as [|d r Hd _ IH]; intros acc; cbn [fold_left map].
  - rewrite app_nil_r. reflexivity.
  - rewrite IH. unfold appendIndexed. rewrite index_charset by assumption.
    rewrite <- app_assoc. reflexivity.
Qed.

Lemma createChecksum_range hrp data :
  Forall (fun d => 0 <= d <= 31) (createChecksum hrp data).
Proof.
  unfold createChecksum. cbv zeta. cbn [map].
  repeat (constructor; [apply (band_ones_range _ 5); lia|]). constructor.
Qed.

Lemma encode_spec hrp data :
  Forall (fun d => 0 <= d < 32) data ->
  encode hrp data = hrp ++ [49] ++ map charOf (data ++ createChecksum hrp data).
Proof.
  intros Hd. unfold encode. cbv zeta. rewrite encode_chars.
  - rewrite <- app_assoc. reflexivity.
  - apply Forall_app. split; [exact Hd|].
    eapply Forall_impl; [|apply createChecksum_range]. simpl. intros; lia.
Qed.

(** [indexOf] finds exactly the units of the string. *)
Lemma indexOfFrom_notin s c :
  ~ In c s -> forall i, indexOfFrom s c i = -1.
Proof.
  induction s as [|x r IH]; intros Hn i; [reflexivity|].
  cbn [indexOfFrom]. destruct (Z.eqb_spec x c) as [->|Hne].
  - exfalso. apply Hn. left. reflexivity.
  - apply IH. intros Hin. apply Hn. right. exact Hin.
Qed.

Lemma indexOfFrom_in s c :
  In c s -> forall i, i <= indexOfFrom s c i.
Proof.
  induction s as [|x r IH]; intros Hin i; [contradiction|].
  cbn [indexOfFrom]. destruct (Z.eqb_spec x c) as [->|Hne]; [lia|].
  destruct Hin as [Hx|Hin]; [contradiction|].
  specialize (IH Hin (i + 1)). lia.
Qed.

(** The loop of [decode]: it stops at the first unit outside the
    alphabet. *)
Lemma decodeChars_ok units :
  Forall (fun c => In c charset) units ->
  forall acc, decodeChars units acc = Ok (acc ++ map (indexOf charset) units).
Proof.
  induction 1 as [|c r Hc _ IH]; intros acc; cbn [decodeChars map].
  - rewrite app_nil_r. reflexivity.
  - pose proof (indexOfFrom_in charset c Hc 0) as Hi. fold (indexOf charset c) in Hi.
    destruct (Z.eqb_spec (indexOf charset c) (-1)); [lia|].
    rewrite IH, <- app_assoc. reflexivity.
Qed.

Lemma decodeChars_bad units :
  Exists (fun c => ~ In c charset) units ->
  forall acc, decodeChars units acc = Throw "Invalid bech32 character".
Proof.
  induction units as [|c r IH]; intros Hex acc; [inversion Hex|].
  cbn [decodeChars].
  destruct (in_dec Z.eq_dec c charset) as [Hin|Hnin].
  - pose proof (indexOfFrom_in charset c Hin 0) as Hi. fold (indexOf charset c) in Hi.
    destruct (Z.eqb_spec (indexOf charset c) (-1)); [lia|].
    apply IH. inversion Hex; [contradiction|assumption].
  - unfold indexOf. rewrite indexOfFrom_notin by assumption. reflexivity.
Qed.

(** The last separator of [l1 ++ "1" ++ l2] when [l2] has none. *)
Lemma lastIndexOfFrom_notin l c :
  ~ In c l -> forall i found, lastIndexOfFrom l c i found = found.
Proof.
  induction l as [|x r IH]; intros Hn i found; [reflexivity|].
  cbn [lastIndexOfFrom]. destruct (Z.eqb_spec x c) as [->|Hne].
  - exfalso. apply Hn. left. reflexivity.
  - apply IH. intros Hin. apply Hn. right. exact Hin.
Qed.

Lemma lastIndexOfFrom_app l1 l2 c :
  ~ In c l2 ->
  forall i found,
    lastIndexOfFrom (l1 ++ c :: l2) c i found = i + Z.of_nat (length l1).
Proof.
  intros Hn. induction l1 as [|x r IH]; intros i found.
  - cbn [app lastIndexOfFrom length]. rewrite Z.eqb_refl.
    rewrite lastIndexOfFrom_notin by assumption. simpl. lia.
  - cbn [app lastIndexOfFrom length]. rewrite IH. lia.
Qed.

Lemma firstn_prefix {A} (l1 l2 : list A) : firstn (length l1) (l1 ++ l2) = l1.
Proof.
  induction l1 as [|x r IH]; [reflexivity|].
  cbn [length app firstn]. rewrite IH. reflexivity.
Qed.

Lemma skipn_separator {A} (l1 l2 : list A) c :
  skipn (length l1 + 1) (l1 ++ c :: l2) = l2.
Proof.
  induction l1 as [|x r IH]; [reflexivity|].
  cbn [length app Nat.add skipn]. exact IH.
Qed.

(** Decoding what [encode] wrote gives back the prefix and the symbols. *)
Lemma decode_encode hrp data :
  hrp <> [] -> Forall in30 (hrpExpand hrp) -> groups 5 data ->
  decode (encode hrp data) = Ok (hrp, data).
Proof.
  intros Hne Hh Hd.
  rewrite encode_spec by exact Hd.
  set (symbols := data ++ createChecksum hrp data).
  assert (Hsym : Forall (fun d => 0 <= d < 32) symbols).
  { apply Forall_app. split; [exact Hd|].
    eapply Forall_impl; [|apply createChecksum_range]. simpl. intros; lia. }
  assert (Hnosep : ~ In 49 (map charOf symbols)).
  { intros Hin. apply in_map_iff in Hin as (d & Heq & Hin).
    rewrite Forall_forall in Hsym.
    apply (charset_not_separator d); auto. }
  assert (Hlen : length symbols = (length data + 6)%nat).
  { unfold symbols. rewrite length_app. reflexivity. }
  unfold decode. cbv zeta. unfold lastIndexOf.
  cbn [app]. rewrite lastIndexOfFrom_app by exact Hnosep.
  rewrite Z.add_0_l.
  assert (Hpos : (1 <= length hrp)%nat).
  { destruct hrp; [contradiction|simpl; lia]. }
  rewrite length_app. cbn [length]. rewrite length_map, Hlen.
  destruct (Z.ltb_spec (Z.of_nat (length hrp)) 1); [lia|].
  destruct (Z.gtb_spec (Z.of_nat (length hrp) + 7)
                       (Z.of_nat (length hrp + S (length data + 6)))); [lia|].
  cbn [orb]. unfold substring0, unitsFrom.
  rewrite Nat2Z.id.
  replace (Z.to_nat (Z.of_nat (length hrp) + 1)) with (length hrp + 1)%nat by lia.
  rewrite skipn_separator, firstn_prefix.
  rewrite decodeChars_ok.
  - cbn [app bind]. rewrite map_map.
    assert (Hmap : map (fun d => indexOf charset (charOf d)) symbols = symbols).
    { rewrite <- (map_id symbols) at 2. apply map_ext_in.
      intros d Hin. rewrite Forall_forall in Hsym. apply charset_index. auto. }
    rewrite Hmap. unfold symbols at 1.
    rewrite verifyChecksum_encoded by assumption. cbn [negb].
    unfold sliceDropLast. rewrite Hlen.
    replace (length data + 6 - 6)%nat with (length data) by lia.
    unfold symbols. rewrite firstn_prefix. reflexivity.
  - apply Forall_map. eapply Forall_impl; [|exact Hsym].
    intros d Hdr. apply charOf_in. exact Hdr.
Qed.

End Codec.

(** ** The properties of the codec *)

Section CodecClaims.
Import JS Crypto Bech32.

(** [hexToBytes] returns bytes for every string. *)
Lemma toUint8_range v : 0 <= toUint8 v <= 255.
Proof.
  destruct v as [n|]; simpl; [|lia].
  pose proof (Z.mod_pos_bound n 256 ltac:(lia)). lia.
Qed.

Lemma hexToBytes_range hex : Forall (fun b => 0 <= b <= 255) (hexToBytes hex).
Proof.
  unfold hexToBytes. apply Forall_map. apply Forall_forall.
  intros p _. apply toUint8_range.
Qed.



Lemma bytes_groups l : Forall (fun b => 0 <= b <= 255) l <-> groups 8 l.
Proof.
  unfold groups. change (2 ^ 8) with 256.
  split; intros H; (eapply Forall_impl; [|exact H]); simpl; intros; lia.
Qed.

Lemma symbols_groups l : Forall (fun d => 0 <= d <= 2 ^ 5 - 1) l -> groups 5 l.
Proof.
  intros H. eapply Forall_impl; [|exact H]. simpl. intros; lia.
Qed.

Lemma uint8_bytes l :
  groups 8 l -> map (fun b => toUint8 (Some b)) l = l.
Proof.
  induction 1 as [|b r Hb _ IH]; [reflexivity|].
  cbn [map]. rewrite IH. unfold toUint8.
  rewrite Z.mod_small; [reflexivity|]. simpl in Hb. lia.
Qed.

(** The round trip under any prefix that is not empty. *)
Lemma roundtrip_under hrp h :
  hrp <> [] -> Forall in30 (hrpExpand hrp) ->
  length h = 64%nat -> Forall isLowerHex h ->
  exists words,
    convertBits (hexToBytes h) 8 5 true = Ok words /\
    decode (encode hrp words) = Ok (hrp, words) /\
    convertBits words 5 8 false = Ok (hexToBytes h) /\
    bytesToHex (map (fun b => toUint8 (Some b)) (hexToBytes h)) = h.
Proof.
  intros Hne Hh Hlen Hlow.
  destruct (hex_string_bytes h 32 Hlow Hlen) as (bytes & Hg & _ & Hhex & Hbytes).
  rewrite Hbytes.
  destruct (convertBits_roundtrip bytes) as (words & Hw & Hback).
  { apply bytes_groups. exact Hg. }
  exists words. split; [exact Hw|].
  pose proof (convertBits_in_range 5 ltac:(lia) _ _ _ _ Hw) as Hr.
  apply symbols_groups in Hr.
  split; [apply decode_encode; assumption|].
  split; [exact Hback|].
  rewrite uint8_bytes by exact Hg. symmetry. exact Hhex.
Qed.

Lemma npub_in30 : Forall in30 (hrpExpand (lit "npub")).
Proof. repeat constructor; vm_compute; discriminate. Qed.

Lemma nsec_in30 : Forall in30 (hrpExpand (lit "nsec")).
Proof. repeat constructor; vm_compute; discriminate. Qed.

(** C1.  For every key [h] of 64 lower-case hexadecimal digits,
    [decodePubkey(encodePubkey(h))] returns [h], and
    [decodePrivkey(encodePrivkey(h))] returns [h]; no call raises. *)
Theorem key_roundtrip (h : jsstring) :
  length h = 64%nat -> Forall isLowerHex h ->
  (exists npub, encodePubkey h = Ok npub /\ decodePubkey npub = Ok h) /\
  (exists nsec, encodePrivkey h = Ok nsec /\ decodePrivkey nsec = Ok h).
Proof.
  intros Hlen Hlow. split.
  - destruct (roundtrip_under (lit "npub") h) as (words & Hw & Hd & Hb & Hh);
      try assumption; [discriminate|apply npub_in30|].
    exists (encode (lit "npub") words). unfold encodePubkey, decodePubkey.
    rewrite Hw. cbn [bind]. split; [reflexivity|].
    rewrite Hd. cbn [bind]. rewrite Hb. cbn [bind]. rewrite Hh. reflexivity.
  - destruct (roundtrip_under (lit "nsec") h) as (words & Hw & Hd & Hb & Hh);
      try assumption; [discriminate|apply nsec_in30|].
    exists (encode (lit "nsec") words). unfold encodePrivkey, decodePrivkey.
    rewrite Hw. cbn [bind]. split; [reflexivity|].
    rewrite Hd. cbn [bind]. rewrite Hb. cbn [bind]. rewrite Hh. reflexivity.
Qed.

(** C10.  Every group [convertBits] returns for [0 < toBits <= 30] lies in
    [[0, 2^toBits - 1]]; every checksum symbol lies in [[0, 31]]; so when
    [encode] is given the 5-bit groups of [convertBits] every index it uses
    is inside the alphabet, it appends one character of the alphabet per
    symbol and never ["undefined"]; [encodePubkey] and [encodePrivkey] do so
    for every string. *)
Theorem symbols_within_alphabet :
  (forall data fromBits toBits pad ret,
      0 < toBits <= 30 ->
      convertBits data fromBits toBits pad = Ok ret ->
      Forall (fun x => 0 <= x <= 2 ^ toBits - 1) ret) /\
  (forall hrp data, Forall (fun d => 0 <= d <= 31) (createChecksum hrp data)) /\
  (forall hrp data fromBits pad words,
      convertBits data fromBits 5 pad = Ok words ->
      Forall (fun d => index charset d = Some (charOf d) /\ In (charOf d) charset)
             (words ++ createChecksum hrp words) /\
      encode hrp words
      = hrp ++ lit "1" ++ map charOf (words ++ createChecksum hrp words)) /\
  (forall hex,
      exists words,
        groups 5 words /\
        encodePubkey hex
        = Ok (lit "npub1"
              ++ map charOf (words ++ createChecksum (lit "npub") words)) /\
        encodePrivkey hex
        = Ok (lit "nsec1"
              ++ map charOf (words ++ createChecksum (lit "nsec") words))).
Proof.
  split; [|split; [|split]].
  - intros data fromBits toBits pad ret Ht H.
    eapply convertBits_in_range; eassumption.
  - apply createChecksum_range.
  - intros hrp data fromBits pad words H.
    pose proof (convertBits_in_range 5 ltac:(lia) _ _ _ _ H) as Hr.
    apply symbols_groups in Hr.
    split; [|apply encode_spec; exact Hr].
    apply Forall_app. split.
    + eapply Forall_impl; [|exact Hr]. intros d Hd.
      split; [apply index_charset|apply charOf_in]; exact Hd.
    + eapply Forall_impl; [|apply createChecksum_range]. intros d Hd.
      split; [apply index_charset|apply charOf_in]; simpl in Hd; lia.
  - intros hex.
    destruct (convertBits_roundtrip (hexToBytes hex) (hexToBytes_range hex))
      as (words & Hw & _).
    pose proof (convertBits_in_range 5 ltac:(lia) _ _ _ _ Hw) as Hr.
    apply symbols_groups in Hr.
    exists words. split; [exact Hr|].
    unfold encodePubkey, encodePrivkey. rewrite Hw. cbn [bind].
    rewrite !encode_spec by exact Hr. split; reflexivity.
Qed.

Lemma symbols_within_alphabet_witness :
  Forall (fun x => 0 <= x <= 2 ^ 5 - 1) [31; 28; 0; 10; 22].
Proof.
  apply (proj1 symbols_within_alphabet [255; 0; 171] 8 5 true).
  - lia.
  - vm_compute. reflexivity.
Defined.


End CodecClaims.

Lemma key_roundtrip_witness :
  let h := JS.lit "79be667ef9dcbbac55a06295ce870b07029bfcdb2dce28d959f2815b16f81798" in
  (exists npub, Bech32.encodePubkey h = Ok npub /\ Bech32.decodePubkey npub = Ok h) /\
  (exists nsec, Bech32.encodePrivkey h = Ok nsec /\ Bech32.decodePrivkey nsec = Ok h).
Proof.
  intros h. apply (key_roundtrip h); [reflexivity|].
  let l := eval vm_compute in h in change h with l.
  repeat (apply Forall_cons; [unfold isLowerHex; lia|]). apply Forall_nil.
Defined.



(** ** Modular exponentiation *)

(** A property of each element of a list given in full. *)
Ltac each_element :=
  unfold codeUnits, groups;
  match goal with
  | |- Forall _ ?l => let l' := eval vm_compute in l in change l with l'
  end;
  repeat (apply Forall_cons;
          [unfold isHex, isLowerHex, in30; simpl; lia|]);
  apply Forall_nil.

Section PowMod.
Import Crypto.

Lemma pow_step b e :
  0 < e -> b ^ e = b ^ (e mod 2) * (b * b) ^ (e / 2).
Proof.
  intros He.
  assert (H2 : 0 <= e mod 2 < 2) by (apply Z.mod_pos_bound; lia).
  assert (Hq : 0 <= e / 2) by (apply Z.div_pos; lia).
  rewrite <- Z.pow_2_r, <- Z.pow_mul_r, <- Z.pow_add_r by lia.
  f_equal. pose proof (Z.div_mod e 2). lia.
Qed.

(** The loop returns, with [result * base ^ exponent] reduced. *)
Lemma powLoop_spec m fuel :
  0 < m ->
  forall r b e,
    0 <= r < m -> 0 <= e < 2 ^ Z.of_nat fuel ->
    powLoop fuel r b e m = Some ((r * b ^ e) mod m).
Proof.
  intros Hm. induction fuel as [|fuel IH]; intros r b e Hr He.
  - assert (e = 0) by (simpl in He; lia). subst e. simpl.
    rewrite Z.mul_1_r, Z.mod_small by lia. reflexivity.
  - cbn [powLoop]. destruct (Z.gtb_spec e 0) as [Hpos|Hz].
    + rewrite Z.rem_mod_nonneg by lia.
      rewrite Z.shiftr_div_pow2, Z.pow_1_r by lia.
      rewrite !mod_spec by exact Hm.
      assert (H2 : 0 <= e mod 2 < 2) by (apply Z.mod_pos_bound; lia).
      assert (Hq : 0 <= e / 2 < 2 ^ Z.of_nat fuel).
      { split; [apply Z.div_pos; lia|].
        apply Z.div_lt_upper_bound; [lia|].
        rewrite Nat2Z.inj_succ, Z.pow_succ_r in He by lia. lia. }
      rewrite (pow_step b e) by lia.
      destruct (Z.eqb_spec (e mod 2) 1) as [H1|H1].
      * rewrite IH by (try apply Z.mod_pos_bound; lia).
        f_equal. rewrite H1, Z.pow_1_r.
        rewrite Z.mul_mod, Z.mod_mod, Z.mod_pow_l, <- Z.mul_mod by lia.
        f_equal. ring.
      * rewrite IH by lia.
        f_equal. assert (H0 : e mod 2 = 0) by lia.
        rewrite H0, Z.pow_0_r, Z.mul_1_l.
        rewrite Z.mul_mod, Z.mod_pow_l, <- Z.mul_mod by lia. reflexivity.
    + assert (e = 0) by lia. subst e.
      rewrite Z.pow_0_r, Z.mul_1_r, Z.mod_small by lia. reflexivity.
Qed.

Lemma powLoop_terminates m fuel r b e :
  0 < m -> 0 <= r < m -> e < 2 ^ Z.of_nat fuel ->
  powLoop fuel r b e m <> None.
Proof.
  intros Hm Hr He. destruct (Z.le_gt_cases 0 e) as [H0|H0].
  - rewrite (powLoop_spec m fuel Hm) by lia. discriminate.
  - destruct fuel; simpl; destruct (Z.gtb_spec e 0); try lia; discriminate.
Qed.

Lemma exponent_fuel e : 0 <= e -> e < 2 ^ Z.of_nat (S (Z.to_nat (Z.log2 e))).
Proof.
  intros He. rewrite Nat2Z.inj_succ, Z2Nat.id by apply Z.log2_nonneg.
  destruct (Z.eq_dec e 0) as [->|Hne]; [simpl; lia|].
  apply Z.log2_spec. lia.
Qed.

Lemma powMod_pow b e m : 1 <= m -> 0 <= e -> powMod b e m = b ^ e mod m.
Proof.
  intros Hm He. unfold powMod. destruct (Z.eqb_spec m 1) as [->|Hne].
  - rewrite Z.mod_1_r. reflexivity.
  - rewrite (powLoop_spec m)
      by (try (split; [lia|apply exponent_fuel; lia]); lia).
    rewrite Z.mul_1_l, mod_spec, Z.mod_pow_l by lia. reflexivity.
Qed.

(** X1.  For every modulus [m >= 1] and every base: [powMod(b, e, m)] is
    [b ^ e mod m], a value of [[0, m)], when [e >= 0], whatever the sign of
    [b]; and on a negative exponent [powMod] computes no inverse, it
    returns [1] (and [0] when [m = 1]). *)
Theorem powMod_spec (base exponent modulus : Z) :
  1 <= modulus ->
  (0 <= exponent ->
   powMod base exponent modulus = base ^ exponent mod modulus /\
   0 <= powMod base exponent modulus < modulus) /\
  (exponent < 0 ->
   powMod base exponent modulus = if modulus =? 1 then 0 else 1).
Proof.
  intros Hm. split.
  - intros He. rewrite powMod_pow by lia.
    split; [reflexivity|]. apply Z.mod_pos_bound. lia.
  - intros He. unfold powMod. destruct (modulus =? 1); [reflexivity|].
    cbn [powLoop]. destruct (Z.gtb_spec exponent 0); [lia|reflexivity].
Qed.

Lemma powMod_spec_witness :
  (powMod (-3) 5 7 = (-3) ^ 5 mod 7 /\ 0 <= powMod (-3) 5 7 < 7) /\
  powMod 2 (-1) 7 = 1.
Proof.
  split.
  - apply (powMod_spec (-3) 5 7); lia.
  - apply (powMod_spec 2 (-1) 7); lia.
Defined.

(** X2.  Over the field prime, the power [P - 2] is the inverse:
    [powMod(a, P - 2, P) = modInverse(a, P)] for every integer [a], both
    being [0] on the multiples of [P]. *)
Theorem powMod_inverse (a : Z) : powMod a (P - 2) P = modInverse a P.
Proof.
  pose proof P_pos as HP. pose proof P_prime as Hprime.
  assert (HP2 : 2 < P) by (unfold P; lia).
  rewrite powMod_pow by lia.
  destruct (Z.eq_dec (a mod P) 0) as [Hz|Hnz].
  - rewrite (modInverse_zero a P HP Hz).
    rewrite <- Z.mod_pow_l, Hz, Z.pow_0_l by lia. apply Z.mod_0_l. lia.
  - symmetry. apply modInverse_unique; [apply Z.mod_pos_bound; lia|].
    rewrite Z.mul_mod_idemp_r by lia.
    replace (a * a ^ (P - 2)) with (a ^ (P - 1)).
    + apply Z.fermat_nz; assumption.
    + replace (P - 1) with (Z.succ (P - 2)) by lia.
      rewrite Z.pow_succ_r by lia. reflexivity.
Qed.

End PowMod.

(** ** Marshalling between bytes, hexadecimal strings and BigInts *)

Section Marshalling.
Import JS Crypto.

Lemma padEven_length h : Nat.odd (length (padEven h)) = false.
Proof.
  unfold padEven. destruct (Nat.odd (length h)) eqn:Ho; [|exact Ho].
  cbn [length]. rewrite Nat.odd_succ, <- Nat.negb_odd, Ho. reflexivity.
Qed.

Lemma hexToBytes_padEven h : hexToBytes (padEven h) = hexToBytes h.
Proof.
  unfold hexToBytes at 1. rewrite padEven_length. reflexivity.
Qed.

Lemma even_length_half {A} (l : list A) :
  Nat.odd (length l) = false -> exists k, length l = (2 * k)%nat.
Proof.
  intros Ho. rewrite <- Nat.negb_even in Ho.
  apply negb_false_iff, Nat.even_spec in Ho. exact Ho.
Qed.

Lemma padEven_lower h : Forall isLowerHex h -> Forall isLowerHex (padEven h).
Proof.
  intros Hh. unfold padEven. destruct (Nat.odd (length h)); [|exact Hh].
  constructor; [left; lia|exact Hh].
Qed.

Lemma bytesToHex_hexToBytes h :
  Forall isLowerHex h -> bytesToHex (hexToBytes h) = padEven h.
Proof.
  intros Hh. rewrite <- hexToBytes_padEven.
  destruct (even_length_half _ (padEven_length h)) as [k Hk].
  destruct (hex_string_bytes _ k (padEven_lower h Hh) Hk)
    as (bytes & _ & _ & Hb & Hb').
  rewrite Hb', <- Hb. reflexivity.
Qed.

(** The hexadecimal digits of a number. *)
Lemma toString16_digits n :
  0 <= n ->
  exists k,
    (1 <= k)%nat /\ n < 16 ^ Z.of_nat k /\
    toString16 n = map hexDigit (be_digits 4 k n).
Proof.
  intros Hn. unfold toString16. destruct (Z.ltb_spec n 0); [lia|].
  destruct (digits16_spec (S (Z.to_nat (Z.log2 n))) n [] ltac:(lia))
    as (k & Hk1 & _ & Hlt & Hd).
  { split; [lia|]. rewrite Nat2Z.inj_succ, Z2Nat.id by apply Z.log2_nonneg.
    destruct (Z.eq_dec n 0) as [->|]; [simpl; lia|].
    apply Z.lt_le_trans with (2 ^ Z.succ (Z.log2 n)).
    - apply Z.log2_spec. lia.
    - apply Z.pow_le_mono_l. pose proof (Z.log2_nonneg n). lia. }
  exists k. rewrite Hd, app_nil_r. auto.
Qed.

(** The padded digits: at least [K] of them, and all those of [n]. *)
Lemma padStart_digits K n :
  0 <= n ->
  exists k,
    (1 <= k)%nat /\ (K <= k)%nat /\ n < 16 ^ Z.of_nat k /\
    padStart K (toString16 n) = map hexDigit (be_digits 4 k n).
Proof.
  intros Hn. destruct (toString16_digits n Hn) as (k & Hk & Hlt & Hd).
  destruct (Nat.le_gt_cases K k) as [Hle|Hgt].
  - exists k. repeat split; try assumption.
    unfold padStart. rewrite Hd, length_map, be_digits_length.
    replace (K - k)%nat with 0%nat by lia. reflexivity.
  - exists K. repeat split; try lia.
    + apply Z.lt_le_trans with (16 ^ Z.of_nat k); [exact Hlt|].
      apply Z.pow_le_mono_r; lia.
    + apply toString16_padStart; [lia|]. split; [lia|].
      apply Z.lt_le_trans with (16 ^ Z.of_nat k); [exact Hlt|].
      apply Z.pow_le_mono_r; lia.
Qed.

Lemma hexToBytes_be_digits k n :
  0 <= n < 16 ^ Z.of_nat k ->
  exists K,
    (k <= 2 * K)%nat /\ (2 * K <= k + 1)%nat /\
    hexToBytes (map hexDigit (be_digits 4 k n)) = be_digits 8 K n.
Proof.
  intros Hn. rewrite <- hexToBytes_padEven. unfold padEven.
  rewrite length_map, be_digits_length.
  assert (Hg : forall K, groups 8 (be_digits 8 K n))
    by (intros K; apply be_digits_groups; lia).
  destruct (Nat.odd k) eqn:Ho.
  - assert (Hk : exists K, (k + 1 = 2 * K)%nat).
    { apply Nat.odd_spec in Ho. destruct Ho as [m ->]. exists (S m). lia. }
    destruct Hk as [K HK]. exists K. repeat split; try lia.
    change (48 :: map hexDigit (be_digits 4 k n))
      with (map hexDigit (repeat 0 1 ++ be_digits 4 k n)).
    rewrite <- be_digits_lead by (try lia; rewrite Z.pow_mul_r by lia; exact Hn).
    replace (1 + k)%nat with (2 * K)%nat by lia.
    rewrite be_digits_4_8. apply hexToBytes_digits, Hg.
  - destruct (even_length_half (repeat tt k)) as [K HK];
      [rewrite repeat_length; exact Ho|].
    rewrite repeat_length in HK. exists K. repeat split; try lia.
    rewrite HK, be_digits_4_8. apply hexToBytes_digits, Hg.
Qed.

Lemma bigIntToBytes_digits n len :
  0 <= n ->
  exists K,
    (1 <= K)%nat /\ (len <= K)%nat /\ n < 256 ^ Z.of_nat K /\
    bigIntToBytes n len = be_digits 8 K n.
Proof.
  intros Hn. unfold bigIntToBytes.
  destruct (padStart_digits (len * 2) n Hn) as (k & Hk1 & Hk & Hlt & ->).
  destruct (hexToBytes_be_digits k n ltac:(lia)) as (K & H1 & H2 & ->).
  exists K. repeat split; try lia.
  apply Z.lt_le_trans with (16 ^ Z.of_nat k); [exact Hlt|].
  change 256 with (16 ^ 2). rewrite <- Z.pow_mul_r by lia.
  apply Z.pow_le_mono_r; lia.
Qed.

(** X3.  [hexToBytes] undoes [bytesToHex] on every array of bytes, whose
    hexadecimal form has two lower-case digits per byte; and on a string
    of lower-case hexadecimal digits [bytesToHex] undoes [hexToBytes], up
    to the ["0"] that [hexToBytes] reads in front of a string of odd
    length. *)
Theorem hex_bytes_roundtrip :
  (forall bytes,
      groups 8 bytes ->
      hexToBytes (bytesToHex bytes) = bytes /\
      length (bytesToHex bytes) = (2 * length bytes)%nat /\
      Forall isLowerHex (bytesToHex bytes)) /\
  (forall h,
      Forall isLowerHex h ->
      bytesToHex (hexToBytes h)
      = if Nat.odd (length h) then lit "0" ++ h else h).
Proof.
  split.
  - intros bytes Hb. split; [apply hexToBytes_bytesToHex, Hb|].
    destruct (bytesToHex_props bytes Hb) as (Hl & Hh & _). auto.
  - intros h Hh. apply bytesToHex_hexToBytes, Hh.
Qed.

Lemma hex_bytes_roundtrip_witness :
  hexToBytes (bytesToHex [0; 10; 255]) = [0; 10; 255] /\
  bytesToHex (hexToBytes (lit "abc")) = lit "0abc".
Proof.
  split.
  - apply (proj1 hex_bytes_roundtrip [0; 10; 255]).
    repeat constructor; simpl; lia.
  - apply (proj2 hex_bytes_roundtrip (lit "abc")).
    let l := eval vm_compute in (lit "abc") in change (lit "abc") with l.
    repeat (apply Forall_cons; [unfold isLowerHex; lia|]).
    apply Forall_nil.
Defined.

(** X4.  [bigIntToBytes] never truncates: for every [num >= 0] it returns
    the big-endian bytes of [num], at least [length] of them and at least
    one, exactly [length] when [num < 256^length], and [bytesToBigInt]
    reads [num] back.  In the other direction [bytesToBigInt] returns the
    big-endian value of every non-empty array of bytes, which
    [bigIntToBytes] writes back with the same length; on the empty array
    it raises a [SyntaxError]. *)
Theorem bigInt_bytes_roundtrip :
  (forall num length,
      0 <= num ->
      let bytes := bigIntToBytes num length in
      groups 8 bytes /\ val 8 bytes = num /\
      (length <= List.length bytes)%nat /\ (1 <= List.length bytes)%nat /\
      ((1 <= length)%nat -> num < 256 ^ Z.of_nat length ->
       bytes = be_digits 8 length num) /\
      bytesToBigInt bytes = Ok num) /\
  (forall bytes,
      groups 8 bytes -> bytes <> [] ->
      bytesToBigInt bytes = Ok (val 8 bytes) /\
      bigIntToBytes (val 8 bytes) (List.length bytes) = bytes) /\
  bytesToBigInt [] = Throw "SyntaxError".
Proof.
  assert (Hexact : forall num length,
             (1 <= length)%nat -> 0 <= num < 256 ^ Z.of_nat length ->
             bigIntToBytes num length = be_digits 8 length num).
  { intros num len Hlen Hn. unfold bigIntToBytes.
    rewrite (Nat.mul_comm len 2), padStart_bytes by assumption.
    apply hexToBytes_bytesToHex, be_digits_groups. lia. }
  split; [|split].
  - intros num len Hn bytes.
    destruct (bigIntToBytes_digits num len Hn) as (K & HK1 & HK & Hlt & HB).
    assert (Hg : groups 8 bytes)
      by (unfold bytes; rewrite HB; apply be_digits_groups; lia).
    assert (Hv : val 8 bytes = num).
    { unfold bytes. rewrite HB, val_be_digits by lia.
      change 256 with (2 ^ 8) in Hlt. rewrite <- Z.pow_mul_r in Hlt by lia.
      apply Z.mod_small. lia. }
    assert (Hl : List.length bytes = K)
      by (unfold bytes; rewrite HB; apply be_digits_length).
    split; [exact Hg|]. split; [exact Hv|].
    split; [lia|]. split; [lia|]. split.
    + intros Hlen Hnum. apply Hexact; [exact Hlen|lia].
    + rewrite bytesToBigInt_val, Hv; [reflexivity|exact Hg|].
      intros He. rewrite He in Hl. simpl in Hl. lia.
  - intros bytes Hg Hne. split; [apply bytesToBigInt_val; assumption|].
    rewrite Hexact.
    + apply be_digits_val; [lia|exact Hg].
    + destruct bytes; [congruence|simpl; lia].
    + split; [apply val_nonneg; [lia|exact Hg]|].
      pose proof (val_bound 8 bytes ltac:(lia) Hg) as Hb.
      change 256 with (2 ^ 8). rewrite <- Z.pow_mul_r by lia. exact Hb.
  - reflexivity.
Qed.

Lemma bigInt_bytes_roundtrip_witness :
  bytesToBigInt (bigIntToBytes 258 1) = Ok 258 /\
  bigIntToBytes (val 8 [0; 1; 2]) 3 = [0; 1; 2].
Proof.
  split.
  - apply (proj1 bigInt_bytes_roundtrip 258 1%nat). lia.
  - apply (proj1 (proj2 bigInt_bytes_roundtrip) [0; 1; 2]).
    + repeat constructor; simpl; lia.
    + discriminate.
Defined.

End Marshalling.

(** ** Public keys *)

Section PublicKey.
Import JS Crypto.

Lemma P_below_2_256 : P < 2 ^ 256.
Proof. reflexivity. Qed.

Lemma land_one_even y : (Z.land y 1 =? 0) = Z.even y.
Proof.
  change 1 with (Z.ones 1). rewrite Z.land_ones by lia.
  rewrite Z.pow_1_r, Zeven_mod. reflexivity.
Qed.

(** The compressed form of a finite point with a 32-byte abscissa. *)
Lemma encodePoint_finite x y :
  0 <= x < 2 ^ 256 ->
  encodePoint (Some (x, y))
  = (if Z.even y then 2 else 3) :: be_digits 8 32 x.
Proof.
  intros Hx. unfold encodePoint. rewrite land_one_even, bigIntToBytes_32 by exact Hx.
  apply uint8_bytes. constructor.
  - destruct (Z.even y); simpl; lia.
  - apply be_digits_groups. lia.
Qed.

Lemma be_digits_inj k x1 x2 :
  0 <= x1 < 2 ^ (8 * Z.of_nat k) -> 0 <= x2 < 2 ^ (8 * Z.of_nat k) ->
  be_digits 8 k x1 = be_digits 8 k x2 -> x1 = x2.
Proof.
  intros H1 H2 He. apply (f_equal (val 8)) in He.
  rewrite !val_be_digits, !Z.mod_small in He by lia. exact He.
Qed.

Lemma cons_inj {A} (a b : A) l1 l2 :
  a :: l1 = b :: l2 -> a = b /\ l1 = l2.
Proof. intros H. injection H. auto. Qed.

(** Two ordinates for one abscissa are equal or opposite. *)
Lemma ordinates x y1 y2 :
  0 <= y1 < P -> 0 <= y2 < P ->
  on_curve (Some (x, y1)) -> on_curve (Some (x, y2)) ->
  y1 = y2 \/ y1 + y2 = P.
Proof.
  intros H1 H2 Hc1 Hc2. apply on_curve_divide in Hc1, Hc2.
  assert (Hd : (P | (y1 - y2) * (y1 + y2))).
  { replace ((y1 - y2) * (y1 + y2))
      with ((y1 * y1 - (x * x * x + 7)) - (y2 * y2 - (x * x * x + 7))) by ring.
    apply Z.divide_sub_r; assumption. }
  apply (Z.divide_prime_mul _ _ _ P_prime) in Hd. destruct Hd as [Hd|Hd].
  - left. apply divide_P_eq; assumption.
  - destruct Hd as [q Hq].
    assert (q = 0 \/ q = 1) as [->| ->] by nia; [left|right]; lia.
Qed.

(** X5.  The compressed encoding determines the point: two valid points
    (the point at infinity, or a pair of field elements on the curve) with
    the same [encodePoint] bytes are equal.  The bytes are 33 zeros for
    the point at infinity, and for a finite point the byte [2] or [3], by
    the parity of the ordinate, before the 32 big-endian bytes of the
    abscissa. *)
Theorem encodePoint_injective (A B : point) :
  valid_point A -> valid_point B ->
  length (encodePoint A) = 33%nat /\
  match A with
  | None => encodePoint A = repeat 0 33
  | Some (x, y) =>
      encodePoint A = (if Z.even y then 2 else 3) :: be_digits 8 32 x
  end /\
  (encodePoint A = encodePoint B -> A = B).
Proof.
  pose proof P_below_2_256 as HP.
  assert (Hfin : forall x y, reduced (Some (x, y)) ->
                   encodePoint (Some (x, y))
                   = (if Z.even y then 2 else 3) :: be_digits 8 32 x).
  { intros x y [Hx _]. apply encodePoint_finite. lia. }
  intros [HrA HcA] [HrB HcB]. split; [|split].
  - destruct A as [[x y]|]; [|reflexivity].
    rewrite Hfin by exact HrA. cbn [length]. rewrite be_digits_length. reflexivity.
  - destruct A as [[x y]|]; [apply Hfin; exact HrA|reflexivity].
  - destruct A as [[x1 y1]|], B as [[x2 y2]|]; try reflexivity.
    + rewrite !Hfin by assumption. intros He.
      apply cons_inj in He as [Hpar Hx].
      destruct HrA as [Hx1 Hy1], HrB as [Hx2 Hy2].
      apply be_digits_inj in Hx; [|simpl Z.of_nat; lia..]. subst x2.
      destruct (ordinates x1 y1 y2 Hy1 Hy2 HcA HcB) as [->|Hsum];
        [reflexivity|exfalso].
      rewrite !Zeven_mod in Hpar.
      pose proof (Z.div_mod y1 2 ltac:(lia)).
      pose proof (Z.div_mod y2 2 ltac:(lia)).
      pose proof (Z.mod_pos_bound y1 2 ltac:(lia)).
      pose proof (Z.mod_pos_bound y2 2 ltac:(lia)).
      unfold P in Hsum.
      destruct (Z.eqb_spec (y1 mod 2) 0), (Z.eqb_spec (y2 mod 2) 0);
        try discriminate Hpar; lia.
    + rewrite Hfin by assumption. destruct (Z.even y1); discriminate.
    + rewrite Hfin by assumption. destruct (Z.even y2); discriminate.
Qed.

Lemma encodePoint_injective_witness :
  length (encodePoint G) = 33%nat /\
  encodePoint G = 2 :: be_digits 8 32 Gx.
Proof.
  destruct (encodePoint_injective G G G_valid G_valid) as (H1 & H2 & _).
  split; [exact H1|exact H2].
Defined.

Lemma bytesToHex_cons b bytes :
  bytesToHex (b :: bytes) = padStart 2 (toString16 b) ++ bytesToHex bytes.
Proof. reflexivity. Qed.

(** The public key of a BigInt private key. *)
Lemma getPublicKey_bigint k :
  exists pub,
    getPublicKey (KeyBigInt k) = Ok pub /\
    length pub = 66%nat /\ Forall isLowerHex pub /\
    hexToBytes pub = encodePoint (pointMultiply k G) /\
    match pointMultiply k G with
    | None => pub = repeat 48 66
    | Some (x, y) =>
        valid_point (Some (x, y)) /\
        pub = (if Z.even y then lit "02" else lit "03")
              ++ bytesToHex (be_digits 8 32 x)
    end.
Proof.
  pose proof P_below_2_256 as HP.
  pose proof (pointMultiply_valid k G G_valid) as Hv.
  unfold getPublicKey. cbn [bind].
  exists (bytesToHex (encodePoint (pointMultiply k G))).
  split; [reflexivity|].
  assert (Hg : groups 8 (encodePoint (pointMultiply k G))).
  { destruct (pointMultiply k G) as [[x y]|].
    - destruct Hv as [[Hx _] _]. rewrite encodePoint_finite by lia.
      constructor; [destruct (Z.even y); simpl; lia|].
      apply be_digits_groups. lia.
    - unfold encodePoint. apply Forall_forall. intros b Hb.
      apply repeat_spec in Hb. subst b. simpl. lia. }
  destruct (bytesToHex_props _ Hg) as (Hl & Hh & _).
  split.
  { rewrite Hl. destruct (pointMultiply k G) as [[x y]|]; [|reflexivity].
    destruct Hv as [[Hx _] _]. rewrite encodePoint_finite by lia.
    cbn [length]. rewrite be_digits_length. reflexivity. }
  split; [exact Hh|]. split; [apply hexToBytes_bytesToHex, Hg|].
  destruct (pointMultiply k G) as [[x y]|]; [|reflexivity].
  split; [exact Hv|]. destruct Hv as [[Hx _] _].
  rewrite encodePoint_finite by lia. rewrite bytesToHex_cons.
  destruct (Z.even y); reflexivity.
Qed.

Lemma pointMultiply_nonpositive k p : k <= 0 -> pointMultiply k p = None.
Proof.
  intros Hk. unfold pointMultiply. cbn [multiplyLoop].
  destruct (Z.gtb_spec k 0); [lia|reflexivity].
Qed.

(** X6.  [getPublicKey] raises on no BigInt key: it returns 66 lower-case
    hexadecimal digits, the hexadecimal form of [encodePoint] of the
    multiple of [G]: ["02"] or ["03"], by the parity of the ordinate,
    before the 64 digits of the abscissa.  When the multiple is the point
    at infinity, as for a key that is zero, negative or the group order
    [N], the result is 66 zeros and no error. *)
Theorem getPublicKey_format (k : Z) :
  exists pub,
    getPublicKey (KeyBigInt k) = Ok pub /\
    length pub = 66%nat /\ Forall isLowerHex pub /\
    hexToBytes pub = encodePoint (pointMultiply k G) /\
    match pointMultiply k G with
    | None => pub = repeat 48 66
    | Some (x, y) =>
        valid_point (Some (x, y)) /\
        pub = (if Z.even y then lit "02" else lit "03")
              ++ bytesToHex (be_digits 8 32 x)
    end /\
    (k <= 0 \/ k = N -> pub = repeat 48 66).
Proof.
  destruct (getPublicKey_bigint k) as (pub & H1 & H2 & H3 & H4 & H5).
  exists pub. repeat (split; [assumption|]).
  intros Hk.
  assert (Hn : pointMultiply k G = None).
  { destruct Hk as [Hk| ->]; [apply pointMultiply_nonpositive, Hk|].
    apply N_times_G. }
  rewrite Hn in H5. exact H5.
Qed.

Lemma getPublicKey_format_witness :
  exists pub,
    getPublicKey (KeyBigInt 0) = Ok pub /\ pub = repeat 48 66.
Proof.
  destruct (getPublicKey_format 0) as (pub & H1 & _ & _ & _ & _ & H6).
  exists pub. split; [exact H1|]. apply H6. left. lia.
Defined.

End PublicKey.

(** ** Keys given as hexadecimal strings *)

Section HexKeys.
Import JS Crypto Bech32.

Lemma hex_enum c : isHex c <-> In c hexChars.
Proof.
  unfold isHex, isLowerHex, hexChars. simpl. lia.
Qed.

Lemma hex_all (f : Z -> bool) :
  forallb f hexChars = true -> forall c, isHex c -> f c = true.
Proof.
  intros Hf c Hc. rewrite forallb_forall in Hf. apply Hf, hex_enum, Hc.
Qed.

Lemma hex_pairs (f : Z -> Z -> bool) :
  forallb (fun a => forallb (f a) hexChars) hexChars = true ->
  forall a b, isHex a -> isHex b -> f a b = true.
Proof.
  intros Hf a b Ha Hb.
  apply (hex_all (f a)); [|exact Hb].
  apply (hex_all (fun a => forallb (f a) hexChars)); assumption.
Qed.

Lemma toLowerHex_lower c : isHex c -> isLowerHex (toLowerHex c).
Proof.
  unfold isHex, isLowerHex, toLowerHex. intros H.
  destruct (Z.leb_spec 65 c), (Z.leb_spec c 70); cbn [andb]; lia.
Qed.

Lemma toLowerHex_id c : isLowerHex c -> toLowerHex c = c.
Proof.
  unfold isLowerHex, toLowerHex. intros H.
  destruct (Z.leb_spec 65 c), (Z.leb_spec c 70); cbn [andb]; lia.
Qed.

Lemma hexDigitValue_lower c :
  isHex c -> hexDigitValue (toLowerHex c) = hexDigitValue c.
Proof.
  intros Hc.
  assert (H : (match hexDigitValue (toLowerHex c), hexDigitValue c with
               | Some u, Some v => u =? v
               | _, _ => false
               end) = true).
  { revert c Hc. apply hex_all. vm_compute. reflexivity. }
  destruct (hexDigitValue (toLowerHex c)), (hexDigitValue c);
    try discriminate H.
  apply Z.eqb_eq in H. congruence.
Qed.

Lemma hex_not_space c : isHex c -> isWhiteSpace c = false.
Proof.
  intros Hc. apply negb_true_iff. revert c Hc. apply hex_all.
  vm_compute. reflexivity.
Qed.

Lemma parse_pair_lower a b :
  isHex a -> isHex b ->
  toUint8 (parseInt16 [toLowerHex a; toLowerHex b])
  = toUint8 (parseInt16 [a; b]).
Proof.
  intros Ha Hb. apply Z.eqb_eq. revert a b Ha Hb.
  apply (hex_pairs (fun a b =>
           toUint8 (parseInt16 [toLowerHex a; toLowerHex b])
           =? toUint8 (parseInt16 [a; b]))).
  vm_compute. reflexivity.
Qed.

Lemma pairs_lower h :
  Forall isHex h -> Nat.odd (length h) = false ->
  map (fun p => toUint8 (parseInt16 p)) (pairs (map toLowerHex h))
  = map (fun p => toUint8 (parseInt16 p)) (pairs h).
Proof.
  intros Hh Ho. destruct (even_length_half h Ho) as [k Hk].
  revert h Hh Ho Hk. induction k as [|k IH]; intros h Hh Ho Hk.
  - destruct h; [reflexivity|discriminate Hk].
  - destruct h as [|a [|b r]]; try (simpl in Hk; lia).
    inversion Hh as [|? ? Ha Hr]; subst.
    inversion Hr as [|? ? Hb Hr']; subst.
    cbn [map pairs]. rewrite parse_pair_lower by assumption. f_equal.
    apply IH; [exact Hr'|exact Ho|simpl in Hk; lia].
Qed.

Lemma hexToBytes_lower h :
  Forall isHex h -> hexToBytes (map toLowerHex h) = hexToBytes h.
Proof.
  intros Hh. rewrite <- (hexToBytes_padEven h), <- (hexToBytes_padEven (map _ h)).
  assert (Hp : padEven (map toLowerHex h) = map toLowerHex (padEven h)).
  { unfold padEven. rewrite length_map.
    destruct (Nat.odd (length h)); reflexivity. }
  rewrite Hp. unfold hexToBytes.
  rewrite length_map, padEven_length. apply pairs_lower.
  - unfold padEven. destruct (Nat.odd (length h)); [|exact Hh].
    constructor; [left; left; lia|exact Hh].
  - apply padEven_length.
Qed.

Lemma hexAll_lower h :
  Forall isHex h -> forall acc, hexAll (map toLowerHex h) acc = hexAll h acc.
Proof.
  induction 1 as [|c r Hc _ IH]; intros acc; [reflexivity|].
  cbn [map hexAll]. rewrite hexDigitValue_lower by exact Hc.
  destruct (hexDigitValue c); [apply IH|reflexivity].
Qed.

Lemma trimEnd_hex h : Forall isHex h -> trimEnd h = h.
Proof.
  intros Hh. unfold trimEnd.
  destruct h as [|c r _] using rev_ind; [reflexivity|].
  apply Forall_app in Hh as [_ Hc]. inversion Hc as [|? ? Hc' _]; subst.
  rewrite rev_app_distr. cbn [rev app trimStart].
  rewrite hex_not_space by exact Hc'.
  cbn [rev]. rewrite rev_involutive. reflexivity.
Qed.

Lemma lower_hex h : Forall isHex h -> Forall isLowerHex (map toLowerHex h).
Proof.
  intros Hh. apply Forall_map. eapply Forall_impl; [|exact Hh].
  apply toLowerHex_lower.
Qed.

Lemma lower_is_hex h : Forall isLowerHex h -> Forall isHex h.
Proof. apply Forall_impl. intros c Hc. left. exact Hc. Qed.

Lemma bigIntOfHex_lower h :
  Forall isHex h -> bigIntOfHex (map toLowerHex h) = bigIntOfHex h.
Proof.
  intros Hh. unfold bigIntOfHex.
  rewrite (trimEnd_hex h Hh), (trimEnd_hex _ (lower_is_hex _ (lower_hex h Hh))).
  pose proof (hexAll_lower h Hh 0) as E.
  destruct h as [|c r]; [reflexivity|].
  cbn [map] in E |- *. rewrite E. reflexivity.
Qed.

(** X7.  Hexadecimal input is read without regard to case: on a string
    [h] of hexadecimal digits of either case, [hexToBytes], the public key
    and the signature of the key [h], and the bech32 encodings of [h] are
    those of the lower-case form of [h]; and [bytesToHex(hexToBytes(h))]
    is that lower-case form, after a ["0"] when the length is odd. *)
Theorem hex_case_insensitive (h : jsstring) :
  Forall isHex h ->
  let l := map toLowerHex h in
  Forall isLowerHex l /\
  hexToBytes h = hexToBytes l /\
  bytesToHex (hexToBytes h) = (if Nat.odd (length h) then lit "0" ++ l else l) /\
  getPublicKey (KeyString h) = getPublicKey (KeyString l) /\
  (forall digest messageHash,
      sign digest (KeyString h) messageHash
      = sign digest (KeyString l) messageHash) /\
  encodePubkey h = encodePubkey l /\
  encodePrivkey h = encodePrivkey l.
Proof.
  intros Hh l. pose proof (lower_hex h Hh) as Hl.
  pose proof (hexToBytes_lower h Hh) as Hb. fold l in Hb.
  pose proof (bigIntOfHex_lower h Hh) as Hk. fold l in Hk.
  split; [exact Hl|]. split; [symmetry; exact Hb|]. split.
  { rewrite <- Hb, bytesToHex_hexToBytes by exact Hl.
    unfold padEven, l. rewrite length_map. reflexivity. }
  split; [unfold getPublicKey; rewrite Hk; reflexivity|].
  split; [intros digest messageHash; unfold sign; rewrite Hk; reflexivity|].
  unfold encodePubkey, encodePrivkey. rewrite Hb. split; reflexivity.
Qed.

Lemma hex_case_insensitive_witness :
  hexToBytes (lit "0AfF") = hexToBytes (map toLowerHex (lit "0AfF")) /\
  bytesToHex (hexToBytes (lit "0AfF")) = lit "0aff".
Proof.
  assert (H : Forall isHex (lit "0AfF")).
  { let l := eval vm_compute in (lit "0AfF") in change (lit "0AfF") with l.
    repeat (apply Forall_cons; [unfold isHex, isLowerHex; lia|]).
    apply Forall_nil. }
  destruct (hex_case_insensitive (lit "0AfF") H) as (_ & H2 & H3 & _).
  split; [exact H2|exact H3].
Defined.

Lemma hexAll_bad s :
  Exists (fun c => hexDigitValue c = None) s ->
  forall acc, hexAll s acc = None.
Proof.
  induction 1 as [c r Hc|c r _ IH]; intros acc; cbn [hexAll].
  - rewrite Hc. reflexivity.
  - destruct (hexDigitValue c); [apply IH|reflexivity].
Qed.

Lemma trimStart_keeps s c :
  In c s -> isWhiteSpace c = false -> In c (trimStart s).
Proof.
  induction s as [|x r IH]; intros Hin Hc; [destruct Hin|].
  cbn [trimStart]. destruct (isWhiteSpace x) eqn:Hx; [|exact Hin].
  destruct Hin as [->|Hin]; [congruence|]. apply IH; assumption.
Qed.

Lemma bigIntOfHex_bad s :
  Exists (fun c => hexDigitValue c = None /\ isWhiteSpace c = false) s ->
  bigIntOfHex s = Throw "SyntaxError".
Proof.
  intros He. apply Exists_exists in He as (c & Hin & Hv & Hw).
  assert (Hin' : In c (trimEnd s)).
  { unfold trimEnd. apply in_rev. rewrite rev_involutive.
    apply trimStart_keeps; [apply in_rev in Hin; exact Hin|exact Hw]. }
  unfold bigIntOfHex. destruct (trimEnd s) as [|x t] eqn:Ht; [reflexivity|].
  rewrite hexAll_bad; [reflexivity|].
  apply Exists_exists. exists c. auto.
Qed.

(** X8.  A key given as a non-empty string of lower-case hexadecimal
    digits, of any length, is the key given as the BigInt it denotes, for
    [getPublicKey] and for [sign]; the empty string and a string with a
    unit that is neither a hexadecimal digit nor white space make both
    raise a [SyntaxError]. *)
Theorem string_keys :
  (forall ds,
      groups 4 ds -> ds <> [] ->
      let h := map hexDigit ds in
      getPublicKey (KeyString h) = getPublicKey (KeyBigInt (val 4 ds)) /\
      forall digest messageHash,
        sign digest (KeyString h) messageHash
        = sign digest (KeyBigInt (val 4 ds)) messageHash) /\
  (forall h,
      h = [] \/
      Exists (fun c => hexDigitValue c = None /\ isWhiteSpace c = false) h ->
      getPublicKey (KeyString h) = Throw "SyntaxError" /\
      forall digest messageHash,
        sign digest (KeyString h) messageHash = Throw "SyntaxError").
Proof.
  split.
  - intros ds Hg Hne h. pose proof (bigIntOfHex_digits ds Hg Hne) as Hk.
    fold h in Hk. split.
    + unfold getPublicKey. rewrite Hk. reflexivity.
    + intros digest messageHash. unfold sign. rewrite Hk. reflexivity.
  - intros h Hbad.
    assert (Hk : bigIntOfHex h = Throw "SyntaxError").
    { destruct Hbad as [->|Hbad]; [reflexivity|apply bigIntOfHex_bad, Hbad]. }
    split.
    + unfold getPublicKey. rewrite Hk. reflexivity.
    + intros digest messageHash. unfold sign. rewrite Hk. reflexivity.
Qed.

Lemma string_keys_witness :
  getPublicKey (KeyString (map hexDigit [0; 3])) = getPublicKey (KeyBigInt 3) /\
  getPublicKey (KeyString (lit "0g")) = Throw "SyntaxError".
Proof.
  split.
  - apply (proj1 string_keys [0; 3]).
    + repeat constructor; simpl; lia.
    + discriminate.
  - apply (proj2 string_keys (lit "0g")). right.
    apply Exists_cons_tl, Exists_cons_hd. split; reflexivity.
Defined.

End HexKeys.

(** ** The bech32 checksum *)

Section Checksum.
Import JS Bech32.

(** The generator terms selected by the five bits above bit 25. *)
Let gen (top : Z) : Z := fold_left (genStep top) [0; 1; 2; 3; 4] 0.

Lemma codeUnits_in30 hrp : codeUnits hrp -> Forall in30 (hrpExpand hrp).
Proof.
  intros Hh. unfold hrpExpand.
  apply Forall_app; split; [|apply Forall_app; split].
  - apply Forall_map. eapply Forall_impl; [|exact Hh].
    intros c Hc. cbv beta in Hc. rewrite sar_small by lia.
    rewrite Z.shiftr_div_pow2 by lia. unfold in30.
    split; [apply Z.div_pos; lia|].
    apply Z.div_lt_upper_bound; lia.
  - repeat constructor; lia.
  - apply Forall_map. eapply Forall_impl; [|exact Hh].
    intros c Hc. cbv beta in Hc. rewrite band_small by lia.
    change 31 with (Z.ones 5). rewrite Z.land_ones by lia.
    pose proof (Z.mod_pos_bound c (2 ^ 5) ltac:(lia)). unfold in30. lia.
Qed.

Lemma in30_zero : in30 0.
Proof. unfold in30. lia. Qed.

Lemma lxor_cancel_r a b v : Z.lxor a v = Z.lxor b v -> a = b.
Proof.
  intros H. apply (f_equal (fun x => Z.lxor x v)) in H.
  rewrite !Z.lxor_assoc, Z.lxor_nilpotent, !Z.lxor_0_r in H. exact H.
Qed.

Lemma lxor_cancel_l a v w : Z.lxor a v = Z.lxor a w -> v = w.
Proof.
  rewrite !(Z.lxor_comm a). apply lxor_cancel_r.
Qed.

(** One turn of [polymod] on a zero symbol: the shifted low bits and the
    generator terms. *)
Lemma polymodStep_zero chk :
  in30 chk ->
  polymodStep chk 0
  = Z.lxor (gen (Z.shiftr chk 25)) (Z.shiftl (Z.land chk (Z.ones 25)) 5).
Proof.
  intros Hc. rewrite polymodStep_genStep.
  destruct (masked_shift chk Hc) as [-> HA].
  rewrite bxor_small by (pose proof in30_zero; unfold in30 in *; lia).
  rewrite Z.lxor_0_r, sar_small by (unfold in30 in Hc; lia).
  rewrite <- (Z.lxor_0_l (Z.shiftl _ 5)) at 1.
  exact (proj2 (genFold_lxor _ _ _ _ in30_zero HA)).
Qed.

Lemma top_range chk : in30 chk -> 0 <= Z.shiftr chk 25 < 32.
Proof.
  intros Hc. unfold in30 in Hc. rewrite Z.shiftr_div_pow2 by lia.
  split; [apply Z.div_pos; lia|]. apply Z.div_lt_upper_bound; lia.
Qed.

(** The low five bits of the generator terms tell the five bits apart. *)
Lemma gen_low_inj t1 t2 :
  0 <= t1 < 32 -> 0 <= t2 < 32 ->
  Z.land (gen t1) 31 = Z.land (gen t2) 31 -> t1 = t2.
Proof.
  intros H1 H2 He. apply Z.eqb_eq.
  pose (f := fun a b => implb (Z.land (gen a) 31 =? Z.land (gen b) 31) (a =? b)).
  assert (Hf : f t1 t2 = true).
  { apply (below_32 (f t1)); [|exact H2].
    apply (below_32 (fun a => forallb (f a) (map Z.of_nat (seq 0 32))));
      [|exact H1].
    vm_compute. reflexivity. }
  unfold f in Hf. apply Z.eqb_eq in He. rewrite He in Hf. exact Hf.
Qed.

Lemma low_bits_shift a : Z.land (Z.shiftl a 5) 31 = 0.
Proof.
  apply Z.bits_inj'; intros i Hi. rewrite Z.land_spec, Z.bits_0.
  destruct (Z.ltb_spec i 5).
  - rewrite Z.shiftl_spec_low by lia. reflexivity.
  - change 31 with (Z.ones 5). rewrite Z.ones_spec_high by lia.
    apply andb_false_r.
Qed.

(** A turn of [polymod] loses nothing of the state... *)
Lemma polymodStep_inj chk chk' v :
  in30 chk -> in30 chk' -> in30 v ->
  polymodStep chk v = polymodStep chk' v -> chk = chk'.
Proof.
  intros Hc Hc' Hv He.
  rewrite (polymodStep_value chk), (polymodStep_value chk') in He by assumption.
  apply lxor_cancel_r in He.
  rewrite !polymodStep_zero in He by assumption.
  assert (Ht : Z.shiftr chk 25 = Z.shiftr chk' 25).
  { apply gen_low_inj; try (apply top_range; assumption).
    apply (f_equal (fun x => Z.land x 31)) in He.
    rewrite !land_lxor_distr, !low_bits_shift, !Z.lxor_0_r in He. exact He. }
  rewrite Ht in He. apply lxor_cancel_l in He.
  rewrite !Z.shiftl_mul_pow2, !Z.land_ones in He by lia.
  rewrite !Z.shiftr_div_pow2 in Ht by lia.
  rewrite (Z.div_mod chk (2 ^ 25)), (Z.div_mod chk' (2 ^ 25)) by lia.
  lia.
Qed.

(** ... and nothing of the symbol. *)
Lemma polymodStep_inj_value chk v v' :
  in30 chk -> in30 v -> in30 v' ->
  polymodStep chk v = polymodStep chk v' -> v = v'.
Proof.
  intros Hc Hv Hv' He.
  rewrite (polymodStep_value chk v), (polymodStep_value chk v') in He
    by assumption.
  apply lxor_cancel_l in He. exact He.
Qed.

Lemma polymod_inj values :
  Forall in30 values ->
  forall chk chk',
    in30 chk -> in30 chk' ->
    fold_left polymodStep values chk = fold_left polymodStep values chk' ->
    chk = chk'.
Proof.
  induction 1 as [|v r Hv _ IH]; intros chk chk' Hc Hc' He; [exact He|].
  cbn [fold_left] in He. apply IH in He; try (apply polymodStep_in30; assumption).
  apply polymodStep_inj in He; assumption.
Qed.

Lemma in30_one : in30 1.
Proof. unfold in30. lia. Qed.

Lemma expand_state hrp l :
  codeUnits hrp -> groups 5 l ->
  in30 (fold_left polymodStep (hrpExpand hrp ++ l) 1).
Proof.
  intros Hh Hl. apply polymod_in30; [|apply in30_one].
  apply Forall_app; split; [apply codeUnits_in30, Hh|apply groups5_in30, Hl].
Qed.

(** The six symbols that verify after [data] are those of
    [createChecksum]. *)
Lemma checksum_unique hrp data cks :
  codeUnits hrp -> groups 5 data -> groups 5 cks -> length cks = 6%nat ->
  verifyChecksum hrp (data ++ cks) = true -> cks = createChecksum hrp data.
Proof.
  intros Hh Hd Hc Hlen Hv.
  destruct (createChecksum_digits hrp data (codeUnits_in30 hrp Hh) Hd)
    as [HM ->].
  set (M := polymod (hrpExpand hrp ++ data ++ [0; 0; 0; 0; 0; 0])) in *.
  unfold verifyChecksum, polymod in Hv. apply Z.eqb_eq in Hv.
  rewrite !app_assoc, fold_left_app in Hv.
  pose proof (expand_state hrp data Hh Hd) as HS.
  set (S := fold_left polymodStep (hrpExpand hrp ++ data) 1) in *.
  rewrite <- (Z.lxor_0_r S) in Hv.
  rewrite polymod_tail in Hv
    by (try assumption; rewrite ?Hlen; simpl; lia).
  rewrite Hlen, fold_push_val in Hv.
  replace (fold_left polymodStep (repeat 0 6) S) with M in Hv
    by (unfold M, polymod, S; rewrite !app_assoc, fold_left_app; reflexivity).
  assert (Hval : val 5 cks = Z.lxor M 1).
  { apply (lxor_cancel_l M). rewrite Hv.
    rewrite <- Z.lxor_assoc, Z.lxor_nilpotent. reflexivity. }
  rewrite <- Hval, <- Hlen. symmetry. apply be_digits_val; [lia|exact Hc].
Qed.

(** X9.  For every prefix and every list of 5-bit symbols the checksum of
    [createChecksum] verifies, and it is the only one: six 5-bit symbols
    after [data] pass [verifyChecksum] if and only if they are the six
    symbols [createChecksum] returns. *)
Theorem checksum_verifies_uniquely (hrp : jsstring) (data cks : list Z) :
  codeUnits hrp -> groups 5 data ->
  length (createChecksum hrp data) = 6%nat /\
  groups 5 (createChecksum hrp data) /\
  (groups 5 cks -> length cks = 6%nat ->
   (verifyChecksum hrp (data ++ cks) = true <-> cks = createChecksum hrp data)).
Proof.
  intros Hh Hd. split; [reflexivity|]. split.
  - apply groups5_symbols. eapply Forall_impl; [|apply createChecksum_range].
    intros d Hr. cbv beta in Hr. lia.
  - intros Hc Hlen. split.
    + apply checksum_unique; assumption.
    + intros ->. apply verifyChecksum_encoded; [apply codeUnits_in30, Hh|exact Hd].
Qed.

Lemma checksum_verifies_uniquely_witness :
  verifyChecksum (lit "npub") ([0; 0] ++ [21; 26; 16; 29; 10; 9]) = true
  <-> [21; 26; 16; 29; 10; 9] = createChecksum (lit "npub") [0; 0].
Proof.
  assert (H1 : codeUnits (lit "npub")) by each_element.
  assert (H2 : groups 5 [0; 0]) by each_element.
  destruct (checksum_verifies_uniquely
              (lit "npub") [0; 0] [21; 26; 16; 29; 10; 9] H1 H2) as (_ & _ & H).
  apply H; [each_element|reflexivity].
Defined.

Lemma fold_left_cons {A B} (f : A -> B -> A) x l a :
  fold_left f (x :: l) a = fold_left f l (f a x).
Proof. reflexivity. Qed.

(** Two states that differ stay different over the same symbols. *)
Lemma substitution_state hrp pre v v' post :
  codeUnits hrp -> groups 5 (pre ++ v :: post) -> 0 <= v' < 32 -> v' <> v ->
  polymod (hrpExpand hrp ++ pre ++ v' :: post)
  <> polymod (hrpExpand hrp ++ pre ++ v :: post).
Proof.
  intros Hh Hg Hv' Hne He.
  apply Forall_app in Hg as [Hpre Hg]. inversion Hg as [|? ? Hv Hpost]; subst.
  unfold polymod in He.
  rewrite !app_assoc, !(fold_left_app polymodStep (hrpExpand hrp ++ pre)) in He.
  rewrite !fold_left_cons in He.
  pose proof (expand_state hrp pre Hh Hpre) as HS.
  revert HS He. generalize (fold_left polymodStep (hrpExpand hrp ++ pre) 1).
  intros S HS He.
  assert (H1 : in30 v) by (unfold in30; change (2 ^ 5) with 32 in Hv; lia).
  assert (H2 : in30 v') by (unfold in30; lia).
  apply polymod_inj in He;
    [|apply groups5_in30; exact Hpost|apply polymodStep_in30; assumption..].
  apply polymodStep_inj_value in He; try assumption. contradiction.
Qed.

(** X10.  The checksum detects every substitution of one symbol: when a
    list of 5-bit symbols passes [verifyChecksum], the list with one symbol
    replaced by a different 5-bit symbol does not. *)
Theorem substitution_detected (hrp : jsstring) (pre post : list Z) (v v' : Z) :
  codeUnits hrp -> groups 5 (pre ++ v :: post) -> 0 <= v' < 32 -> v' <> v ->
  verifyChecksum hrp (pre ++ v :: post) = true ->
  verifyChecksum hrp (pre ++ v' :: post) = false.
Proof.
  intros Hh Hg Hv' Hne Hv. unfold verifyChecksum in *.
  apply Z.eqb_eq in Hv. apply Z.eqb_neq. rewrite <- Hv.
  apply substitution_state; assumption.
Qed.

Lemma substitution_detected_witness :
  verifyChecksum (lit "npub") ([0] ++ 7 :: [21; 26; 16; 29; 10; 9]) = false.
Proof.
  apply (substitution_detected (lit "npub") [0] [21; 26; 16; 29; 10; 9] 0 7).
  - each_element.
  - each_element.
  - lia.
  - lia.
  - vm_compute. reflexivity.
Defined.

End Checksum.

(** ** [decode] against [encode] *)

Section Decode.
Import JS Bech32.

Lemma lastIndexOfFrom_spec s c :
  forall i found,
    (~ In c s /\ lastIndexOfFrom s c i found = found) \/
    (exists l1 l2,
        s = l1 ++ c :: l2 /\ ~ In c l2 /\
        lastIndexOfFrom s c i found = i + Z.of_nat (length l1)).
Proof.
  induction s as [|x r IH]; intros i found; [left; split; [intros []|reflexivity]|].
  cbn [lastIndexOfFrom].
  destruct (IH (i + 1) (if x =? c then i else found))
    as [[Hn He]|(l1 & l2 & -> & Hn & He)].
  - destruct (Z.eqb_spec x c) as [->|Hne].
    + right. exists [], r. cbn [app length]. rewrite He. split; [reflexivity|].
      split; [exact Hn|lia].
    + left. rewrite He. split; [|reflexivity].
      intros [Hx|Hin]; [congruence|contradiction].
  - right. exists (x :: l1), l2. rewrite He. cbn [app length].
    split; [reflexivity|]. split; [exact Hn|lia].
Qed.

(** [decode] on a string cut at its last separator. *)
Lemma decode_parse hrp units :
  ~ In 49 units ->
  decode (hrp ++ 49 :: units)
  = if (Z.of_nat (length hrp) <? 1) || (Z.of_nat (length units) <? 6)
    then Throw "Invalid bech32 string"
    else
      data <- decodeChars units [] ;;
      if negb (verifyChecksum hrp data) then Throw "Invalid bech32 checksum"
      else Ok (hrp, sliceDropLast data 6).
Proof.
  intros Hn. unfold decode. cbv zeta. unfold lastIndexOf.
  rewrite lastIndexOfFrom_app by exact Hn. rewrite Z.add_0_l.
  rewrite length_app. cbn [length].
  assert (Hc : (Z.of_nat (length hrp) + 7
                >? Z.of_nat (length hrp + S (length units)))
               = (Z.of_nat (length units) <? 6)).
  { destruct (Z.gtb_spec (Z.of_nat (length hrp) + 7)
                         (Z.of_nat (length hrp + S (length units)))),
             (Z.ltb_spec (Z.of_nat (length units)) 6); lia. }
  rewrite Hc.
  destruct ((Z.of_nat (length hrp) <? 1) || (Z.of_nat (length units) <? 6));
    [reflexivity|].
  unfold substring0, unitsFrom. rewrite Nat2Z.id.
  replace (Z.to_nat (Z.of_nat (length hrp) + 1)) with (length hrp + 1)%nat by lia.
  rewrite skipn_separator, firstn_prefix. reflexivity.
Qed.

(** A string [decode] does not refuse for its shape has a separator. *)
Lemma decode_shape s :
  decode s = Throw "Invalid bech32 string" \/
  exists hrp units, s = hrp ++ 49 :: units /\ ~ In 49 units.
Proof.
  destruct (lastIndexOfFrom_spec s 49 0 (-1)) as [[_ He]|(l1 & l2 & Hs & Hn & _)].
  - left. unfold decode. cbv zeta. unfold lastIndexOf. rewrite He. reflexivity.
  - right. exists l1, l2. auto.
Qed.

Lemma in_charset_dec c : {In c charset} + {~ In c charset}.
Proof. apply in_dec, Z.eq_dec. Qed.

Lemma decodeChars_inv units :
  forall acc r,
    decodeChars units acc = Ok r ->
    Forall (fun c => In c charset) units /\
    r = acc ++ map (indexOf charset) units.
Proof.
  intros acc r H. destruct (Forall_Exists_dec (fun c => In c charset) in_charset_dec units)
    as [Hall|Hex].
  - rewrite decodeChars_ok in H by exact Hall. split; [exact Hall|congruence].
  - rewrite decodeChars_bad in H by exact Hex. discriminate H.
Qed.

Lemma charOf_indexOf c :
  In c charset -> charOf (indexOf charset c) = c /\ 0 <= indexOf charset c < 32.
Proof.
  intros Hc.
  assert (H : forallb (fun c => (charOf (indexOf charset c) =? c)
                                && (0 <=? indexOf charset c)
                                && (indexOf charset c <? 32)) charset = true)
    by (vm_compute; reflexivity).
  rewrite forallb_forall in H. specialize (H c Hc).
  apply andb_prop in H as [H H3]. apply andb_prop in H as [H1 H2]. lia.
Qed.

Lemma separator_not_in_charset : ~ In 49 charset.
Proof.
  intros H. apply charOf_indexOf in H as [H _]. vm_compute in H. discriminate H.
Qed.

Lemma symbols_of_units units :
  Forall (fun c => In c charset) units ->
  map charOf (map (indexOf charset) units) = units /\
  Forall (fun d => 0 <= d < 32) (map (indexOf charset) units).
Proof.
  induction 1 as [|c r Hc _ [IH1 IH2]]; [split; [reflexivity|constructor]|].
  destruct (charOf_indexOf c Hc) as [H1 H2]. cbn [map].
  rewrite H1, IH1. split; [reflexivity|]. constructor; assumption.
Qed.

(** What an accepted string is made of. *)
Lemma decode_ok_inv s hrp data :
  decode s = Ok (hrp, data) ->
  exists syms,
    s = hrp ++ 49 :: map charOf syms /\
    hrp <> [] /\ (6 <= length syms)%nat /\
    Forall (fun d => 0 <= d < 32) syms /\
    verifyChecksum hrp syms = true /\ data = sliceDropLast syms 6.
Proof.
  intros H. destruct (decode_shape s) as [He|(l1 & units & -> & Hn)];
    [rewrite He in H; discriminate H|].
  rewrite decode_parse in H by exact Hn.
  destruct (Z.ltb_spec (Z.of_nat (length l1)) 1); [discriminate H|].
  destruct (Z.ltb_spec (Z.of_nat (length units)) 6); [discriminate H|].
  cbn [orb] in H.
  destruct (decodeChars units []) as [syms| |] eqn:Hd; try discriminate H.
  cbn [bind] in H.
  destruct (verifyChecksum l1 syms) eqn:Hv; [|discriminate H].
  cbn [negb] in H. injection H as -> <-.
  apply decodeChars_inv in Hd as [Hall ->]. cbn [app] in *.
  destruct (symbols_of_units units Hall) as [Hu Hr].
  exists (map (indexOf charset) units). rewrite Hu, length_map.
  repeat split; try assumption; try lia.
  intros ->. simpl in *. lia.
Qed.

Lemma charOf_no_separator syms :
  Forall (fun d => 0 <= d < 32) syms -> ~ In 49 (map charOf syms).
Proof.
  intros Hs Hin. apply in_map_iff in Hin as (d & Heq & Hin).
  rewrite Forall_forall in Hs. apply (charset_not_separator d); auto.
Qed.

Lemma decodeChars_symbols syms :
  Forall (fun d => 0 <= d < 32) syms ->
  decodeChars (map charOf syms) [] = Ok syms.
Proof.
  intros Hs. rewrite decodeChars_ok.
  - cbn [app]. rewrite map_map. f_equal.
    rewrite <- (map_id syms) at 2. apply map_ext_in.
    intros d Hin. rewrite Forall_forall in Hs. apply charset_index. auto.
  - apply Forall_map. eapply Forall_impl; [|exact Hs].
    intros d Hd. apply charOf_in, Hd.
Qed.

(** [decode] on a prefix, the separator and the characters of symbols. *)
Lemma decode_symbols hrp syms :
  hrp <> [] -> (6 <= length syms)%nat ->
  Forall (fun d => 0 <= d < 32) syms ->
  decode (hrp ++ 49 :: map charOf syms)
  = if verifyChecksum hrp syms then Ok (hrp, sliceDropLast syms 6)
    else Throw "Invalid bech32 checksum".
Proof.
  intros Hne Hlen Hs.
  rewrite decode_parse by (apply charOf_no_separator, Hs).
  rewrite length_map.
  destruct (Z.ltb_spec (Z.of_nat (length hrp)) 1);
    [destruct hrp; [contradiction|simpl in *; lia]|].
  destruct (Z.ltb_spec (Z.of_nat (length syms)) 6); [lia|].
  cbn [orb]. rewrite decodeChars_symbols by exact Hs. cbn [bind].
  destruct (verifyChecksum hrp syms); reflexivity.
Qed.

Lemma split_last6 {A} (l : list A) :
  (6 <= length l)%nat ->
  l = sliceDropLast l 6 ++ skipn (length l - 6) l /\
  length (skipn (length l - 6) l) = 6%nat.
Proof.
  intros Hl. unfold sliceDropLast. rewrite firstn_skipn, length_skipn.
  split; [reflexivity|lia].
Qed.

(** An accepted string is what [encode] returns for the result. *)
Lemma decode_canonical s hrp data :
  codeUnits s -> decode s = Ok (hrp, data) ->
  hrp <> [] /\ codeUnits hrp /\ groups 5 data /\ s = encode hrp data.
Proof.
  intros Hs H. apply decode_ok_inv in H
    as (syms & -> & Hne & Hlen & Hsym & Hv & ->).
  destruct (split_last6 syms Hlen) as [Hsplit Hl6].
  set (data := sliceDropLast syms 6) in *.
  set (cks := skipn (length syms - 6) syms) in *.
  assert (Hh : codeUnits hrp) by (apply Forall_app in Hs as [Hs _]; exact Hs).
  rewrite Hsplit in Hsym. apply Forall_app in Hsym as [Hd Hc].
  apply groups5_symbols in Hd, Hc.
  split; [exact Hne|]. split; [exact Hh|]. split; [exact Hd|].
  rewrite encode_spec by (apply groups5_symbols; exact Hd).
  rewrite Hsplit in Hv.
  rewrite <- (checksum_unique hrp data cks Hh Hd Hc Hl6 Hv).
  rewrite <- Hsplit. reflexivity.
Qed.

Lemma encode_decoded hrp data :
  hrp <> [] -> codeUnits hrp -> groups 5 data ->
  decode (encode hrp data) = Ok (hrp, data).
Proof.
  intros Hne Hh Hd. apply decode_encode; try assumption.
  apply codeUnits_in30, Hh.
Qed.

(** X11.  [decode] is the inverse of [encode], and of nothing else: a
    string of code units is accepted by [decode], with the result
    [{hrp, data}], if and only if [hrp] is not empty, [data] is a list of
    5-bit symbols and the string is [encode(hrp, data)].  What [encode]
    returns for the empty prefix is refused. *)
Theorem decode_inverse_of_encode (s hrp : jsstring) (data : list Z) :
  codeUnits s ->
  (decode s = Ok (hrp, data)
   <-> hrp <> [] /\ groups 5 data /\ s = encode hrp data) /\
  (groups 5 data ->
   decode (encode [] data) = Throw "Invalid bech32 string").
Proof.
  intros Hs. split; [split|].
  - intros H. destruct (decode_canonical s hrp data Hs H) as (H1 & _ & H2 & H3).
    auto.
  - intros (Hne & Hd & ->). apply encode_decoded; try assumption.
    rewrite encode_spec in Hs by (apply groups5_symbols; exact Hd).
    apply Forall_app in Hs as [Hs _]. exact Hs.
  - intros Hd. rewrite encode_spec by (apply groups5_symbols; exact Hd).
    assert (Hn : ~ In 49 (map charOf (data ++ createChecksum [] data))).
    { apply charOf_no_separator. apply Forall_app. split.
      - apply groups5_symbols; exact Hd.
      - eapply Forall_impl; [|apply createChecksum_range].
        intros d Hr. cbv beta in Hr. lia. }
    exact (decode_parse [] _ Hn).
Qed.

Lemma decode_inverse_of_encode_witness :
  decode (lit "npub1qq46sa2f") = Ok (lit "npub", [0; 0])
  <-> lit "npub" <> [] /\ groups 5 [0; 0] /\
      lit "npub1qq46sa2f" = encode (lit "npub") [0; 0].
Proof.
  apply (decode_inverse_of_encode (lit "npub1qq46sa2f") (lit "npub") [0; 0]).
  each_element.
Defined.

End Decode.

(** ** What the checksum rejects *)

Section Tamper.
Import JS Bech32.

Lemma symbols_split syms (a' b : jsstring) x :
  map charOf syms = a' ++ x :: b ->
  exists pre v post,
    syms = pre ++ v :: post /\ map charOf pre = a' /\ charOf v = x /\
    map charOf post = b.
Proof.
  intros H. apply map_eq_app in H as (pre & rest & -> & Hp & Hr).
  apply map_eq_cons in Hr as (v & post & -> & Hv & Hq).
  exists pre, v, post. auto.
Qed.

(** X12.  [decode] refuses every accepted string in which one character
    after the separator has been replaced by another character of the
    alphabet: it raises ["Invalid bech32 checksum"]. *)
Theorem substituted_character_rejected
        (a b hrp : jsstring) (x c : Z) (data : list Z) :
  codeUnits (a ++ x :: b) ->
  decode (a ++ x :: b) = Ok (hrp, data) ->
  (length hrp < length a)%nat -> In c charset -> c <> x ->
  decode (a ++ c :: b) = Throw "Invalid bech32 checksum".
Proof.
  intros Hs Hd Hpos Hc Hne.
  apply decode_ok_inv in Hd as (syms & Heq & Hnil & Hlen & Hsym & Hv & _).
  assert (Hh : codeUnits hrp).
  { rewrite Heq in Hs. apply Forall_app in Hs as [Hs _]. exact Hs. }
  apply app_eq_app in Heq as [l [[Ha Hl]|[Ha Hl]]].
  - destruct l as [|y a'].
    + rewrite app_nil_r in Ha. subst a. lia.
    + cbn [app] in Hl. apply cons_inj in Hl as [<- Hu].
      apply symbols_split in Hu as (pre & v & post & -> & <- & <- & <-).
      destruct (charOf_indexOf c Hc) as [Hc' Hr].
      remember (indexOf charset c) as v' eqn:Ev. clear Ev.
      assert (Hv' : v' <> v) by (intros ->; apply Hne; symmetry; exact Hc').
      assert (Hs' : Forall (fun d => 0 <= d < 32) (pre ++ v' :: post)).
      { apply Forall_app in Hsym as [H1 H2]. inversion H2; subst.
        apply Forall_app. split; [exact H1|]. constructor; assumption. }
      subst a. rewrite <- Hc', <- app_assoc. cbn [app].
      change (map charOf pre ++ charOf v' :: map charOf post)
        with (map charOf pre ++ map charOf (v' :: post)).
      rewrite <- map_app.
      rewrite decode_symbols; try assumption.
      * assert (Hf : verifyChecksum hrp (pre ++ v' :: post) = false).
        { unfold verifyChecksum in *. apply Z.eqb_eq in Hv. apply Z.eqb_neq.
          rewrite <- Hv.
          apply substitution_state; try assumption; apply groups5_symbols, Hsym. }
        rewrite Hf. reflexivity.
      * rewrite length_app in *. cbn [length] in *. exact Hlen.
  - subst hrp. rewrite length_app in Hpos. lia.
Qed.

Lemma substituted_character_rejected_witness :
  decode (lit "npub1q" ++ code "p" :: lit "46sa2f")
  = Throw "Invalid bech32 checksum".
Proof.
  apply (substituted_character_rejected
           (lit "npub1q") (lit "46sa2f") (lit "npub") (code "q") (code "p") [0; 0]).
  - each_element.
  - vm_compute. reflexivity.
  - simpl. lia.
  - vm_compute. tauto.
  - vm_compute. discriminate.
Defined.

Lemma lower_alpha_parts c :
  isLowerAlpha c -> sar c 5 = 3 /\ band c 31 = c - 96.
Proof.
  unfold isLowerAlpha. intros Hc.
  rewrite sar_small, band_small by lia.
  rewrite Z.shiftr_div_pow2 by lia. change 31 with (Z.ones 5).
  rewrite Z.land_ones by lia. change (2 ^ 5) with 32. split.
  - symmetry. apply (Z.div_unique c 32 3 (c - 96)); lia.
  - symmetry. apply (Z.mod_unique c 32 3 (c - 96)); lia.
Qed.

Lemma lower_alpha_expand p :
  Forall isLowerAlpha p ->
  map (fun c => sar c 5) p = repeat 3 (length p) /\
  groups 5 (map (fun c => band c 31) p) /\ codeUnits p.
Proof.
  induction 1 as [|c r Hc _ (IH1 & IH2 & IH3)];
    [repeat split; constructor|].
  destruct (lower_alpha_parts c Hc) as [H1 H2]. cbn [map length repeat].
  rewrite H1, H2, IH1. unfold isLowerAlpha in Hc.
  split; [reflexivity|]. split; constructor; try assumption; simpl; lia.
Qed.

Lemma lower_alpha_low_inj p1 :
  Forall isLowerAlpha p1 ->
  forall p2,
    Forall isLowerAlpha p2 ->
    map (fun c => band c 31) p1 = map (fun c => band c 31) p2 -> p1 = p2.
Proof.
  induction 1 as [|c r Hc _ IH]; intros p2 H2 He.
  - destruct p2; [reflexivity|discriminate He].
  - destruct p2 as [|c2 r2]; [discriminate He|].
    inversion H2 as [|? ? Hc2 Hr2]; subst. cbn [map] in He.
    apply cons_inj in He as [Hb Hr].
    rewrite (proj2 (lower_alpha_parts c Hc)),
            (proj2 (lower_alpha_parts c2 Hc2)) in Hb.
    f_equal; [lia|]. apply IH; assumption.
Qed.

Lemma hrpExpand_app p r :
  hrpExpand (p ++ r)
  = (map (fun c => sar c 5) p ++ map (fun c => sar c 5) r ++ [0])
      ++ map (fun c => band c 31) p ++ map (fun c => band c 31) r.
Proof.
  unfold hrpExpand. rewrite !map_app, <- !app_assoc. reflexivity.
Qed.

(** Two prefixes of lower-case letters that differ give different
    checksum states, whatever follows them. *)
Lemma prefix_state p1 p2 r syms :
  Forall isLowerAlpha p1 -> Forall isLowerAlpha p2 ->
  length p1 = length p2 -> (length p1 <= 6)%nat -> p1 <> p2 ->
  codeUnits r -> groups 5 syms ->
  polymod (hrpExpand (p1 ++ r) ++ syms) <> polymod (hrpExpand (p2 ++ r) ++ syms).
Proof.
  intros H1 H2 Hlen H6 Hne Hr Hs He.
  destruct (lower_alpha_expand p1 H1) as (Hhi1 & Hlo1 & Hu1).
  destruct (lower_alpha_expand p2 H2) as (Hhi2 & Hlo2 & Hu2).
  unfold polymod in He. rewrite !hrpExpand_app, Hhi1, Hhi2, <- Hlen in He.
  rewrite <- !app_assoc in He.
  rewrite !(fold_left_app polymodStep (repeat 3 (length p1))) in He.
  rewrite !(fold_left_app polymodStep (map (fun c => sar c 5) r)) in He.
  rewrite !(fold_left_app polymodStep [0]) in He.
  assert (HS : in30 (fold_left polymodStep [0]
                       (fold_left polymodStep (map (fun c => sar c 5) r)
                          (fold_left polymodStep (repeat 3 (length p1)) 1)))).
  { pose proof (codeUnits_in30 r Hr) as Hexp. unfold hrpExpand in Hexp.
    apply Forall_app in Hexp as [Hhi _].
    apply polymod_in30; [repeat constructor; lia|].
    apply polymod_in30; [exact Hhi|].
    apply polymod_in30; [|apply in30_one].
    apply Forall_forall. intros x Hx. apply repeat_spec in Hx. subst x.
    unfold in30. lia. }
  revert HS He.
  generalize (fold_left polymodStep [0]
                (fold_left polymodStep (map (fun c => sar c 5) r)
                   (fold_left polymodStep (repeat 3 (length p1)) 1))).
  intros S HS He.
  rewrite !(fold_left_app polymodStep (map (fun c => band c 31) _)
                          (map (fun c => band c 31) r ++ syms)) in He.
  assert (Hrest : Forall in30 (map (fun c => band c 31) r ++ syms)).
  { pose proof (codeUnits_in30 r Hr) as Hexp. unfold hrpExpand in Hexp.
    apply Forall_app in Hexp as [_ Hlo]. apply Forall_app in Hlo as [_ Hlo].
    apply Forall_app. split; [exact Hlo|apply groups5_in30, Hs]. }
  apply polymod_inj in He; try assumption;
    try (apply polymod_in30; [apply groups5_in30|]; assumption).
  rewrite <- (Z.lxor_0_r S) in He.
  rewrite (polymod_tail (map (fun c => band c 31) p1) S 0) in He;
    [|exact HS|rewrite length_map; lia
     |rewrite length_map; split; [lia|apply Z.pow_pos_nonneg; lia]
     |exact Hlo1].
  rewrite (polymod_tail (map (fun c => band c 31) p2) S 0) in He;
    [|exact HS|rewrite length_map; lia
     |rewrite length_map; split; [lia|apply Z.pow_pos_nonneg; lia]
     |exact Hlo2].
  rewrite !length_map, <- Hlen in He. apply lxor_cancel_l in He.
  rewrite !fold_push_val in He.
  apply val_inj in He; try assumption; try lia.
  - apply Hne. apply lower_alpha_low_inj; assumption.
  - rewrite !length_map. exact Hlen.
Qed.

(** X13.  The checksum binds the prefix: when [decode] accepts a string
    that starts with a prefix of at most six lower-case letters, it
    refuses, with ["Invalid bech32 checksum"], the string in which that
    prefix is replaced by different lower-case letters, as many; so an
    ["npub1..."] string with ["nsec"] written over its prefix is
    refused. *)
Theorem prefix_bound (p1 p2 t hrp : jsstring) (data : list Z) :
  Forall isLowerAlpha p1 -> Forall isLowerAlpha p2 ->
  length p1 = length p2 -> (length p1 <= 6)%nat -> p1 <> p2 ->
  codeUnits t ->
  decode (p1 ++ t) = Ok (hrp, data) ->
  decode (p2 ++ t) = Throw "Invalid bech32 checksum".
Proof.
  intros H1 H2 Hlen H6 Hne Ht Hd.
  apply decode_ok_inv in Hd as (syms & Heq & Hnil & Hl & Hsym & Hv & _).
  assert (Hno : ~ In 49 p1).
  { intros Hin. rewrite Forall_forall in H1. apply H1 in Hin.
    unfold isLowerAlpha in Hin. lia. }
  assert (Hr : exists r, hrp = p1 ++ r /\ t = r ++ 49 :: map charOf syms).
  { apply app_eq_app in Heq as [l [[Ha Hb]|[Ha Hb]]].
    - destruct l as [|y l].
      + exists []. rewrite app_nil_r in *. cbn [app] in Hb.
        split; symmetry; assumption.
      + cbn [app] in Hb. apply cons_inj in Hb as [<- _].
        exfalso. apply Hno. rewrite Ha. apply in_or_app. right. left. reflexivity.
    - exists l. auto. }
  destruct Hr as (r & -> & ->).
  assert (Hcr : codeUnits r) by (apply Forall_app in Ht as [Ht _]; exact Ht).
  rewrite app_assoc. rewrite decode_symbols; try assumption.
  - assert (Hf : verifyChecksum (p2 ++ r) syms = false).
    { unfold verifyChecksum in *. apply Z.eqb_eq in Hv. apply Z.eqb_neq.
      rewrite <- Hv. apply not_eq_sym.
      apply prefix_state; try assumption; apply groups5_symbols, Hsym. }
    rewrite Hf. reflexivity.
  - destruct p2; [|discriminate].
    destruct p1; [contradiction|discriminate Hlen].
Qed.

Lemma prefix_bound_witness :
  decode (lit "nsec" ++ lit "1qq46sa2f") = Throw "Invalid bech32 checksum".
Proof.
  apply (prefix_bound (lit "npub") (lit "nsec") (lit "1qq46sa2f")
                      (lit "npub") [0; 0]).
  - unfold isLowerAlpha. each_element.
  - unfold isLowerAlpha. each_element.
  - reflexivity.
  - simpl. lia.
  - vm_compute. discriminate.
  - each_element.
  - vm_compute. reflexivity.
Defined.

End Tamper.

(** ** [convertBits]: the two directions, and the data it refuses *)

Section Regroup.
Import JS Bech32.

Variables fromBits toBits : Z.
Hypothesis fromBits_range : 0 < fromBits <= 30.
Hypothesis toBits_range : 0 < toBits <= 30.
Hypothesis widths : fromBits + toBits <= 32.

(** What an accepted regrouping without padding denotes. *)
Lemma convertBits_nopad_inv w b :
  groups fromBits w ->
  convertBits w fromBits toBits false = Ok b ->
  groups toBits b /\
  exists p,
    0 <= p < fromBits /\ p < toBits /\
    val fromBits w = val toBits b * 2 ^ p /\
    fromBits * Z.of_nat (length w) = toBits * Z.of_nat (length b) + p.
Proof.
  intros Hw Hc.
  destruct (convertBits_spec fromBits toBits ltac:(lia) ltac:(lia) widths
                             w Hw ltac:(lia))
    as (acc & bits & ret & (Ha & Hb & Hv & Hg & Hn) & Hspec).
  rewrite Hspec in Hc. cbv zeta in Hc.
  set (A := val fromBits w) in *.
  destruct (Z.geb_spec bits fromBits) as [Hge|Hlt]; [discriminate Hc|].
  destruct (Z.eqb_spec ((A * 2 ^ (toBits - bits)) mod 2 ^ toBits) 0)
    as [Hz|Hnz]; [|discriminate Hc].
  cbn [orb negb] in Hc. injection Hc as <-.
  split; [exact Hg|]. exists bits.
  pose proof (Z.pow_pos_nonneg 2 bits ltac:(lia) ltac:(lia)) as Hpb.
  pose proof (Z.pow_pos_nonneg 2 (toBits - bits) ltac:(lia) ltac:(lia)) as Hpp.
  assert (Hsplit : 2 ^ toBits = 2 ^ bits * 2 ^ (toBits - bits)).
  { rewrite <- Z.pow_add_r by lia. f_equal. lia. }
  assert (Hlow : A mod 2 ^ bits = 0).
  { pose proof (Z.div_mod A (2 ^ bits) ltac:(lia)) as HA.
    pose proof (Z.mod_pos_bound A (2 ^ bits) Hpb) as Hr.
    assert (Hlast : (A * 2 ^ (toBits - bits)) mod 2 ^ toBits
                    = A mod 2 ^ bits * 2 ^ (toBits - bits)).
    { replace (A * 2 ^ (toBits - bits))
        with (A mod 2 ^ bits * 2 ^ (toBits - bits) + A / 2 ^ bits * 2 ^ toBits)
        by (rewrite Hsplit; nia).
      rewrite Z_mod_plus_full. apply Z.mod_small. nia. }
    rewrite Hlast in Hz. nia. }
  repeat split; try lia.
  rewrite Hv. pose proof (Z.div_mod A (2 ^ bits) ltac:(lia)). lia.
Qed.

Lemma convertBits_nopad_then_pad w b :
  groups fromBits w ->
  convertBits w fromBits toBits false = Ok b ->
  groups toBits b /\ convertBits b toBits fromBits true = Ok w.
Proof.
  intros Hw Hc.
  destruct (convertBits_nopad_inv w b Hw Hc) as (Hb & p & Hp & Hpt & Hv & Hn).
  split; [exact Hb|].
  destruct (convertBits_pad_spec toBits fromBits b)
    as (w' & p' & Hw' & Hg' & Hp' & Hv' & Hn'); try lia; [exact Hb|].
  rewrite Hw'. f_equal.
  assert (Hl : Z.of_nat (length w') = Z.of_nat (length w)) by nia.
  assert (p' = p) by nia. subst p'.
  apply (val_inj fromBits); try assumption; lia.
Qed.

Lemma convertBits_pad_then_nopad b w :
  fromBits <= toBits ->
  groups toBits b ->
  convertBits b toBits fromBits true = Ok w ->
  groups fromBits w /\ convertBits w fromBits toBits false = Ok b.
Proof.
  intros Hle Hb Hc.
  destruct (convertBits_pad_spec toBits fromBits b)
    as (w' & p & Hw' & Hg & Hp & Hv & Hn); try lia; [exact Hb|].
  rewrite Hw' in Hc. injection Hc as <-.
  split; [exact Hg|].
  destruct (convertBits_spec fromBits toBits ltac:(lia) ltac:(lia) widths
                             w' Hg ltac:(lia))
    as (acc & bits & ret & (Ha & Hbits & Hvr & Hgr & Hn') & Hspec).
  rewrite Hspec. cbv zeta.
  assert (Hl : Z.of_nat (length ret) = Z.of_nat (length b)) by nia.
  assert (bits = p) by nia. subst bits.
  pose proof (Z.pow_pos_nonneg 2 p ltac:(lia) ltac:(lia)) as Hpp.
  rewrite Hv in *.
  replace (val toBits b * 2 ^ p * 2 ^ (toBits - p))
    with (val toBits b * 2 ^ toBits).
  2:{ rewrite <- Z.mul_assoc, <- Z.pow_add_r by lia. do 2 f_equal. lia. }
  rewrite Z_mod_mult.
  destruct (Z.geb_spec p fromBits); [lia|]. cbn [orb negb Z.eqb].
  f_equal. apply (val_inj toBits); try assumption; try lia.
  rewrite Hvr. apply Z.div_mul. lia.
Qed.

Lemma convertLoop_app l1 l2 maxv :
  forall acc bits ret,
    convertLoop (l1 ++ l2) fromBits toBits maxv acc bits ret
    = '(acc', bits', ret') <- convertLoop l1 fromBits toBits maxv acc bits ret ;;
      convertLoop l2 fromBits toBits maxv acc' bits' ret'.
Proof.
  induction l1 as [|v r IH]; intros acc bits ret; [reflexivity|].
  cbn [app convertLoop].
  destruct ((v <? 0) || negb (sar v fromBits =? 0)); [reflexivity|].
  destruct (drain _ _ _ _ _ _) as [[bits'' ret']|]; [apply IH|reflexivity].
Qed.

Lemma invalid_value v :
  - 2 ^ 31 <= v < 2 ^ 31 -> v < 0 \/ 2 ^ fromBits <= v ->
  (v <? 0) || negb (sar v fromBits =? 0) = true.
Proof.
  intros Hr Hv. destruct (Z.ltb_spec v 0) as [|Hpos]; [reflexivity|].
  cbn [orb]. rewrite sar_small by lia.
  rewrite Z.shiftr_div_pow2 by lia.
  pose proof (Z.pow_pos_nonneg 2 fromBits ltac:(lia) ltac:(lia)) as Hp.
  assert (1 <= v / 2 ^ fromBits)
    by (apply Z.div_le_lower_bound; lia).
  destruct (Z.eqb_spec (v / 2 ^ fromBits) 0); [lia|reflexivity].
Qed.

End Regroup.

Section RegroupTheorems.
Import JS Bech32.

(** X14.  The two directions of [convertBits] are inverse of each other
    on lists of values of the stated width, for group widths of at most 30
    bits whose sum is at most 32: when a list [w] of [fromBits]-bit values
    is accepted by the direction without padding with result [b], then [b]
    is a list of [toBits]-bit values and the direction with padding
    regroups [b] into [w] again; and when the groups of the unpadded
    direction are the narrower ones, every result [w] that the padded
    direction returns on a list [b] of [toBits]-bit values is a list of
    [fromBits]-bit values that the unpadded direction accepts and turns
    back into [b]. *)
Theorem convertBits_inverse (fromBits toBits : Z) :
  0 < fromBits <= 30 -> 0 < toBits <= 30 -> fromBits + toBits <= 32 ->
  (forall w b,
      groups fromBits w ->
      convertBits w fromBits toBits false = Ok b ->
      groups toBits b /\ convertBits b toBits fromBits true = Ok w) /\
  (fromBits <= toBits ->
   forall b w,
     groups toBits b ->
     convertBits b toBits fromBits true = Ok w ->
     groups fromBits w /\ convertBits w fromBits toBits false = Ok b).
Proof.
  intros Hf Ht Hw. split.
  - intros w b. apply convertBits_nopad_then_pad; assumption.
  - intros Hle b w. apply convertBits_pad_then_nopad; assumption.
Qed.

Lemma convertBits_inverse_witness :
  convertBits [255; 0; 171] 8 5 true = Ok [31; 28; 0; 10; 22] /\
  convertBits [31; 28; 0; 10; 22] 5 8 false = Ok [255; 0; 171].
Proof.
  assert (H : groups 5 [31; 28; 0; 10; 22] /\
              convertBits [31; 28; 0; 10; 22] 5 8 false = Ok [255; 0; 171]).
  { apply (proj2 (convertBits_inverse 5 8 ltac:(lia) ltac:(lia) ltac:(lia))
                 ltac:(lia) [255; 0; 171] [31; 28; 0; 10; 22]).
    - each_element.
    - vm_compute. reflexivity. }
  split; [|exact (proj2 H)].
  apply (proj1 (convertBits_inverse 5 8 ltac:(lia) ltac:(lia) ltac:(lia))
               [31; 28; 0; 10; 22] [255; 0; 171]).
  - each_element.
  - exact (proj2 H).
Defined.

(** X15.  [convertBits] on its data, for group widths of at most 30 bits
    whose sum is at most 32: a list of [fromBits]-bit groups is never
    refused as ["Invalid data"], and with padding it gives the least
    number of groups that holds all its bits; a list whose first element
    outside [[0, 2^fromBits)] is a 32-bit integer is refused with
    ["Invalid data"], with or without padding, whatever follows. *)
Theorem convertBits_data (fromBits toBits : Z) :
  0 < fromBits <= 30 -> 0 < toBits <= 30 -> fromBits + toBits <= 32 ->
  (forall data,
      groups fromBits data ->
      (exists ret,
          convertBits data fromBits toBits true = Ok ret /\
          groups toBits ret /\
          fromBits * Z.of_nat (length data)
          <= toBits * Z.of_nat (length ret)
          < fromBits * Z.of_nat (length data) + toBits) /\
      (convertBits data fromBits toBits false = Throw "Invalid padding" \/
       exists ret, convertBits data fromBits toBits false = Ok ret)) /\
  (forall good v rest pad,
      groups fromBits good ->
      - 2 ^ 31 <= v < 2 ^ 31 -> v < 0 \/ 2 ^ fromBits <= v ->
      convertBits (good ++ v :: rest) fromBits toBits pad
      = Throw "Invalid data").
Proof.
  intros Hf Ht Hw. split.
  - intros data Hd. split.
    + destruct (convertBits_pad_spec fromBits toBits data)
        as (w & p & Hc & Hg & Hp & _ & Hn); try lia; [exact Hd|].
      exists w. split; [exact Hc|]. split; [exact Hg|]. lia.
    + destruct (convertBits_spec fromBits toBits ltac:(lia) ltac:(lia) Hw
                                 data Hd ltac:(lia))
        as (acc & bits & ret & _ & Hspec).
      rewrite Hspec. cbv zeta.
      destruct ((bits >=? fromBits) || negb (_ =? 0)); [left|right; exists ret];
        reflexivity.
  - intros good v rest pad Hg Hr Hv.
    assert (Hi0 : loop_inv toBits 0 0 0 [] 0).
    { split; [intros i _; reflexivity|].
      split; [lia|]. split; [reflexivity|].
      split; [constructor|simpl; lia]. }
    destruct (convertLoop_spec fromBits toBits ltac:(lia) ltac:(lia) Hw
                               good Hg _ _ _ _ _ Hi0)
      as (acc & bits & ret & Hc & _).
    unfold convertBits. rewrite shl_one by lia.
    rewrite convertLoop_app, Hc. cbn [bind convertLoop].
    rewrite invalid_value by assumption. reflexivity.
Qed.

Lemma convertBits_data_witness :
  convertBits ([1; 2] ++ 256 :: [3]) 8 5 true = Throw "Invalid data".
Proof.
  apply (proj2 (convertBits_data 8 5 ltac:(lia) ltac:(lia) ltac:(lia))
               [1; 2] 256 [3] true).
  - each_element.
  - lia.
  - right. simpl. lia.
Defined.

End RegroupTheorems.

(** ** The key codec on strings of any length *)

Section KeyCodec.
Import JS Crypto Bech32.

Lemma npub_units : lit "npub" <> [] /\ codeUnits (lit "npub").
Proof. split; [discriminate|each_element]. Qed.

Lemma nsec_units : lit "nsec" <> [] /\ codeUnits (lit "nsec").
Proof. split; [discriminate|each_element]. Qed.

(** Encoding the bytes of a string under a prefix, and decoding. *)
Lemma roundtrip_any hrp s :
  hrp <> [] -> codeUnits hrp ->
  exists words,
    convertBits (hexToBytes s) 8 5 true = Ok words /\
    groups 5 words /\
    decode (encode hrp words) = Ok (hrp, words) /\
    convertBits words 5 8 false = Ok (hexToBytes s) /\
    map (fun b => toUint8 (Some b)) (hexToBytes s) = hexToBytes s.
Proof.
  intros Hne Hh.
  assert (Hb : groups 8 (hexToBytes s)) by (apply bytes_groups, hexToBytes_range).
  destruct (convertBits_pad_spec 8 5 (hexToBytes s))
    as (words & p & Hw & Hg & _); try lia; [exact Hb|].
  exists words. split; [exact Hw|]. split; [exact Hg|].
  split; [apply encode_decoded; assumption|].
  split; [|apply uint8_bytes, Hb].
  apply (convertBits_pad_then_nopad 5 8); try lia; assumption.
Qed.

Lemma decode_key hrp words bytes :
  decode (encode hrp words) = Ok (hrp, words) ->
  convertBits words 5 8 false = Ok bytes ->
  map (fun b => toUint8 (Some b)) bytes = bytes ->
  decodePubkey (encode hrp words) = Ok (bytesToHex bytes) /\
  decodePrivkey (encode hrp words) = Ok (bytesToHex bytes).
Proof.
  intros Hd Hc Hu. unfold decodePubkey, decodePrivkey.
  rewrite Hd. cbn [bind]. rewrite Hc. cbn [bind]. rewrite Hu.
  split; reflexivity.
Qed.

(** X16.  [encodePubkey] and [encodePrivkey] raise on no string, and
    [decodePubkey] and [decodePrivkey] return, for either encoding,
    [bytesToHex(hexToBytes(s))]: the string itself when it is made of
    lower-case hexadecimal digits and of even length, whatever that
    length, and with a ["0"] in front when the length is odd.  The two
    decoders do not look at the prefix: each one decodes what the other
    encoder returns. *)
Theorem key_codec_any_length (s : jsstring) :
  exists npub nsec,
    encodePubkey s = Ok npub /\ encodePrivkey s = Ok nsec /\
    decodePubkey npub = Ok (bytesToHex (hexToBytes s)) /\
    decodePrivkey nsec = Ok (bytesToHex (hexToBytes s)) /\
    decodePubkey nsec = Ok (bytesToHex (hexToBytes s)) /\
    decodePrivkey npub = Ok (bytesToHex (hexToBytes s)) /\
    (Forall isLowerHex s ->
     bytesToHex (hexToBytes s)
     = if Nat.odd (length s) then lit "0" ++ s else s).
Proof.
  destruct npub_units as [Hn1 Hn2], nsec_units as [Hs1 Hs2].
  destruct (roundtrip_any (lit "npub") s Hn1 Hn2)
    as (words & Hw & Hg & Hd & Hc & Hu).
  destruct (roundtrip_any (lit "nsec") s Hs1 Hs2)
    as (words' & Hw' & _ & Hd' & _ & _).
  rewrite Hw in Hw'. injection Hw' as <-.
  exists (encode (lit "npub") words), (encode (lit "nsec") words).
  unfold encodePubkey, encodePrivkey. rewrite Hw. cbn [bind].
  destruct (decode_key _ _ _ Hd Hc Hu) as [H1 H2].
  destruct (decode_key _ _ _ Hd' Hc Hu) as [H3 H4].
  repeat (split; [reflexivity || assumption|]).
  apply bytesToHex_hexToBytes.
Qed.

Lemma key_codec_any_length_witness :
  bytesToHex (hexToBytes (lit "abc")) = lit "0abc".
Proof.
  destruct (key_codec_any_length (lit "abc")) as (_ & _ & _ & _ & _ & _ & _ & _ & H).
  apply H. each_element.
Defined.

(** X17.  Whatever [decodePubkey] or [decodePrivkey] accepts is an
    encoding: if one of them returns [h] for a string of code units, then
    [h] is an even number of lower-case hexadecimal digits, the string is
    [encode(hrp, words)] for the prefix before its last separator and the
    5-bit regrouping [words] of the bytes of [h], and it is what
    [encodePubkey(h)] returns when the prefix is ["npub"], and
    [encodePrivkey(h)] when it is ["nsec"]. *)
Theorem decoded_key_canonical (s h : jsstring) :
  codeUnits s ->
  decodePubkey s = Ok h \/ decodePrivkey s = Ok h ->
  Forall isLowerHex h /\ Nat.even (length h) = true /\
  exists hrp words,
    hrp <> [] /\
    convertBits (hexToBytes h) 8 5 true = Ok words /\
    s = encode hrp words /\
    (hrp = lit "npub" -> encodePubkey h = Ok s) /\
    (hrp = lit "nsec" -> encodePrivkey h = Ok s).
Proof.
  intros Hs H.
  assert (Hd : decodePubkey s = Ok h) by (destruct H as [H|H]; exact H).
  clear H. unfold decodePubkey in Hd.
  destruct (decode s) as [[hrp data]| |] eqn:Hdec; try discriminate Hd.
  cbn [bind] in Hd.
  destruct (convertBits data 5 8 false) as [bytes| |] eqn:Hc;
    try discriminate Hd.
  cbn [bind] in Hd. injection Hd as <-.
  destruct (decode_canonical s hrp data Hs Hdec) as (Hne & _ & Hg & Henc).
  destruct (convertBits_nopad_then_pad 5 8 ltac:(lia) ltac:(lia) ltac:(lia)
                                       data bytes Hg Hc) as [Hb Hback].
  rewrite uint8_bytes by exact Hb.
  destruct (bytesToHex_props bytes Hb) as (Hl & Hh & _).
  split; [exact Hh|]. split.
  { rewrite Hl. apply Nat.even_spec. exists (length bytes). reflexivity. }
  exists hrp, data. rewrite hexToBytes_bytesToHex by exact Hb.
  split; [exact Hne|]. split; [exact Hback|]. split; [exact Henc|].
  unfold encodePubkey, encodePrivkey.
  rewrite hexToBytes_bytesToHex, Hback by exact Hb. cbn [bind].
  split; intros <-; rewrite Henc; reflexivity.
Qed.

Lemma decoded_key_canonical_witness :
  Forall isLowerHex (lit "0000") /\ Nat.even (length (lit "0000")) = true.
Proof.
  assert (Hu : codeUnits (lit "npub1qqqq52mgz8")) by each_element.
  assert (H : decodePubkey (lit "npub1qqqq52mgz8") = Ok (lit "0000"))
    by (vm_compute; reflexivity).
  destruct (decoded_key_canonical (lit "npub1qqqq52mgz8") (lit "0000")
                                  Hu (or_introl H)) as (H1 & H2 & _).
  split; assumption.
Defined.

End KeyCodec.

(** ** Wikilink targets *)

Section WikilinkFacts.
Import JS AsciiDoc.

Lemma alnum_not_dash c : isAlnum c = true -> c <> 45.
Proof. intros H ->. discriminate H. Qed.

Lemma noDoubleDash_cons c s :
  noDoubleDash s -> (c = 45 -> hd_error s <> Some 45) -> noDoubleDash (c :: s).
Proof.
  intros Hs Hc. destruct s as [|d r]; [exact I|].
  split; [|exact Hs]. intros [-> ->]. apply Hc; reflexivity.
Qed.

Lemma noDoubleDash_tail c s :
  noDoubleDash (c :: s) -> noDoubleDash s /\ (c = 45 -> hd_error s <> Some 45).
Proof.
  destruct s as [|d r]; [intros _; split; [exact I|discriminate]|].
  intros [Hn Hs]. split; [exact Hs|].
  intros -> He. injection He as ->. apply Hn. split; reflexivity.
Qed.

Lemma noDoubleDash_app_l x y : noDoubleDash (x ++ y) -> noDoubleDash x.
Proof.
  induction x as [|c x IH]; intros H; [exact I|].
  cbn [app] in H. apply noDoubleDash_tail in H as [Hs Hc].
  apply noDoubleDash_cons; [apply IH, Hs|].
  intros E He. apply (Hc E). destruct x; [discriminate He|exact He].
Qed.

Lemma noDoubleDash_end x : ~ noDoubleDash (x ++ [45; 45]).
Proof.
  induction x as [|c x IH]; intros H.
  - destruct H as [H _]. apply H. split; reflexivity.
  - cbn [app] in H. apply noDoubleDash_tail in H as [Hs _]. exact (IH Hs).
Qed.

Lemma replaceRuns_slug s : forall b, Forall isSlug (replaceRuns s b).
Proof.
  induction s as [|c r IH]; intros b; [constructor|].
  cbn [replaceRuns]. destruct (isAlnum c) eqn:Hc.
  - constructor; [left; exact Hc|apply IH].
  - destruct b; [apply IH|]. constructor; [right; reflexivity|apply IH].
Qed.

Lemma replaceRuns_dashes s :
  forall b,
    noDoubleDash (replaceRuns s b) /\
    (b = true -> hd_error (replaceRuns s b) <> Some 45).
Proof.
  induction s as [|c r IH]; intros b; [split; [exact I|discriminate]|].
  cbn [replaceRuns]. destruct (isAlnum c) eqn:Hc.
  - split.
    + apply noDoubleDash_cons; [apply IH|].
      intros E. apply alnum_not_dash in Hc. contradiction.
    + intros _ He. injection He as E. apply alnum_not_dash in Hc. contradiction.
  - destruct b.
    + apply IH.
    + split; [|discriminate].
      apply noDoubleDash_cons; [apply IH|]. intros _. apply IH. reflexivity.
Qed.

Lemma replaceRuns_alnum s :
  forall b, filter isAlnum (replaceRuns s b) = filter isAlnum s.
Proof.
  induction s as [|c r IH]; intros b; [reflexivity|].
  cbn [replaceRuns filter]. destruct (isAlnum c) eqn:Hc.
  - cbn [filter]. rewrite Hc, IH. reflexivity.
  - destruct b; [apply IH|]. cbn [filter].
    change (isAlnum 45) with false. cbv iota. apply IH.
Qed.

(** A target that is already normal is left as it is. *)
Lemma replaceRuns_normal s :
  forall b,
    Forall isSlug s -> noDoubleDash s ->
    (b = true -> hd_error s <> Some 45) ->
    replaceRuns s b = s.
Proof.
  induction s as [|c r IH]; intros b Hs Hn Hb; [reflexivity|].
  inversion Hs as [|? ? Hc Hr]; subst.
  apply noDoubleDash_tail in Hn as [Hn Hd]. cbn [replaceRuns].
  destruct Hc as [Hc| ->].
  - rewrite Hc. f_equal. apply IH; [assumption..|discriminate].
  - change (isAlnum 45) with false. cbv iota.
    destruct b; [exfalso; apply Hb; reflexivity|].
    f_equal. apply IH; [assumption..|]. intros _. apply Hd. reflexivity.
Qed.

Lemma stripDashes_normal s :
  hd_error s <> Some 45 -> hd_error (rev s) <> Some 45 -> stripDashes s = s.
Proof.
  intros Hh Hl. unfold stripDashes.
  assert (E : stripStart s = s).
  { unfold stripStart. destruct s as [|c r]; [reflexivity|].
    destruct (Z.eqb_spec c 45) as [->|]; [|reflexivity].
    exfalso. apply Hh. reflexivity. }
  rewrite E. unfold stripEnd. destruct (rev s) as [|c r]; [reflexivity|].
  destruct (Z.eqb_spec c 45) as [->|]; [|reflexivity].
  exfalso. apply Hl. reflexivity.
Qed.

Lemma stripStart_props s :
  Forall isSlug s -> noDoubleDash s ->
  Forall isSlug (stripStart s) /\ noDoubleDash (stripStart s) /\
  hd_error (stripStart s) <> Some 45 /\
  filter isAlnum (stripStart s) = filter isAlnum s.
Proof.
  intros Hs Hn. unfold stripStart. destruct s as [|c r];
    [repeat split; [constructor|discriminate]|].
  destruct (Z.eqb_spec c 45) as [->|Hc].
  - inversion Hs; subst. apply noDoubleDash_tail in Hn as [Hn Hd].
    repeat split; try assumption. apply Hd. reflexivity.
  - repeat split; try assumption. intros He. injection He as E. contradiction.
Qed.

Lemma stripEnd_props s :
  Forall isSlug s -> noDoubleDash s -> hd_error s <> Some 45 ->
  Forall isSlug (stripEnd s) /\ noDoubleDash (stripEnd s) /\
  hd_error (stripEnd s) <> Some 45 /\
  hd_error (rev (stripEnd s)) <> Some 45 /\
  filter isAlnum (stripEnd s) = filter isAlnum s.
Proof.
  intros Hs Hn Hh. unfold stripEnd.
  destruct (rev s) as [|c r] eqn:E.
  - rewrite E. repeat split; try assumption. discriminate.
  - assert (E' : s = rev r ++ [c]).
    { rewrite <- (rev_involutive s), E. reflexivity. }
    destruct (Z.eqb_spec c 45) as [->|Hc].
    + rewrite rev_involutive. rewrite E' in Hs, Hn, Hh.
      apply Forall_app in Hs as [Hs _].
      split; [exact Hs|]. split; [apply (noDoubleDash_app_l _ _ Hn)|].
      split; [|split].
      * intros He. apply Hh. destruct (rev r); [discriminate He|exact He].
      * intros He. destruct r as [|d r']; [discriminate He|].
        injection He as ->. cbn [rev] in Hn. rewrite <- app_assoc in Hn.
        exact (noDoubleDash_end _ Hn).
      * rewrite E', filter_app. cbn [filter].
        change (isAlnum 45) with false. cbv iota. rewrite app_nil_r. reflexivity.
    + rewrite E. repeat split; try assumption.
      intros He. injection He as E1. contradiction.
Qed.

Lemma stripDashes_props s :
  Forall isSlug s -> noDoubleDash s ->
  Forall isSlug (stripDashes s) /\ noDoubleDash (stripDashes s) /\
  hd_error (stripDashes s) <> Some 45 /\
  hd_error (rev (stripDashes s)) <> Some 45 /\
  filter isAlnum (stripDashes s) = filter isAlnum s.
Proof.
  intros Hs Hn. destruct (stripStart_props s Hs Hn) as (H1 & H2 & H3 & H4).
  destruct (stripEnd_props _ H1 H2 H3) as (K1 & K2 & K3 & K4 & K5).
  unfold stripDashes. repeat (split; [assumption|]).
  rewrite K5. exact H4.
Qed.

End WikilinkFacts.

Section WikilinkTheorems.
Import JS AsciiDoc.

(** X18.  For every case mapping of the engine, the target
    [normalizeWikilink] returns is made of units of [[a-z0-9]] and single
    ['-'] between them: no other unit, no two ['-'] in a row, none at the
    start and none at the end.  Its letters and digits are those of the
    lower-cased text, in order and all of them; and a target is left as it
    is by a second normalization, when the case mapping leaves such
    strings as they are. *)
Theorem normalizeWikilink_normal
        (toLowerCase : jsstring -> jsstring) (text : jsstring) :
  let target := normalizeWikilink toLowerCase text in
  Forall isSlug target /\ noDoubleDash target /\
  hd_error target <> Some 45 /\ hd_error (rev target) <> Some 45 /\
  filter isAlnum target = filter isAlnum (toLowerCase text) /\
  ((forall s, Forall isSlug s -> toLowerCase s = s) ->
   normalizeWikilink toLowerCase target = target).
Proof.
  intros target. unfold target, normalizeWikilink.
  set (low := toLowerCase text).
  destruct (stripDashes_props (replaceRuns low false)
              (replaceRuns_slug low false)
              (proj1 (replaceRuns_dashes low false)))
    as (H1 & H2 & H3 & H4 & H5).
  repeat (split; [assumption|]). split.
  - rewrite H5. apply replaceRuns_alnum.
  - intros Hfix. rewrite Hfix by exact H1.
    rewrite replaceRuns_normal by (assumption || discriminate).
    apply stripDashes_normal; assumption.
Qed.

Lemma normalizeWikilink_normal_witness :
  let toLowerCase :=
    map (fun c => if (65 <=? c) && (c <=? 90) then c + 32 else c) in
  normalizeWikilink toLowerCase (lit "  Hello, World! ") = lit "hello-world" /\
  normalizeWikilink toLowerCase (lit "hello-world") = lit "hello-world".
Proof.
  intros toLowerCase. split; [vm_compute; reflexivity|].
  assert (E : normalizeWikilink toLowerCase (lit "  Hello, World! ")
              = lit "hello-world") by (vm_compute; reflexivity).
  rewrite <- E at 2. rewrite <- E at 1.
  apply (normalizeWikilink_normal toLowerCase (lit "  Hello, World! ")).
  intros s Hs. unfold toLowerCase.
  rewrite <- (map_id s) at 2. apply map_ext_in. intros c Hc.
  rewrite Forall_forall in Hs. specialize (Hs c Hc).
  destruct Hs as [Ha| ->]; [|reflexivity].
  unfold isAlnum in Ha.
  destruct (Z.leb_spec 65 c), (Z.leb_spec c 90); cbn [andb]; try reflexivity.
  destruct (Z.leb_spec 97 c), (Z.leb_spec c 122), (Z.leb_spec 48 c),
           (Z.leb_spec c 57); cbn [andb orb] in Ha; try discriminate Ha; lia.
Defined.

End WikilinkTheorems.

(** ** Keys and events, end to end *)

Section Flows.
Import JS Crypto Bech32.

(** What [generatePrivateKey] returns: the hexadecimal form of 32 bytes
    that denote a key of [[1, N - 1]]. *)
Lemma generated_key random fuel priv :
  (forall i, length (random i) = 32%nat /\ groups 8 (random i)) ->
  generatePrivateKey random fuel = Ok priv ->
  exists bytes,
    length bytes = 32%nat /\ groups 8 bytes /\
    1 <= val 8 bytes <= N - 1 /\ priv = bytesToHex bytes.
Proof.
  intros Hr H. unfold generatePrivateKey in H.
  rewrite (draw_value random Hr) in H. cbn [bind] in H.
  destruct (redraw fuel random 0%nat (val 8 (random 0%nat))) as [key| |] eqn:Hd;
    cbn [bind] in H; try discriminate H.
  apply (redraw_sound random Hr) in Hd; [|intros j Hj; lia].
  destruct Hd as (i & -> & Hacc & _). injection H as <-.
  destruct (Hr i) as [Hl Hg]. exists (random i).
  split; [exact Hl|]. split; [exact Hg|]. split; [exact Hacc|].
  rewrite bigIntToBytes_32 by apply (draw_range random Hr).
  rewrite <- Hl, be_digits_val by (lia || exact Hg). reflexivity.
Qed.

Lemma even_padEven h : Nat.even (length h) = true -> padEven h = h.
Proof.
  intros He. unfold padEven. rewrite <- Nat.negb_even, He. reflexivity.
Qed.

(** X19.  A generated key pair goes through the codec: for every
    sequence of 32-byte draws of the random source, the string [priv]
    that [generatePrivateKey] returns denotes a key [k] of [[1, N - 1]];
    [getPublicKey(priv)] is the public key of [k], 66 hexadecimal digits;
    and the [nsec] and [npub] encodings of the two strings decode to
    them. *)
Theorem generated_key_pair
        (random : nat -> list Z) (fuel : nat) (priv : jsstring) :
  (forall i, length (random i) = 32%nat /\ groups 8 (random i)) ->
  generatePrivateKey random fuel = Ok priv ->
  exists k pub nsec npub,
    1 <= k <= N - 1 /\ priv = bytesToHex (be_digits 8 32 k) /\
    getPublicKey (KeyString priv) = Ok pub /\
    getPublicKey (KeyBigInt k) = Ok pub /\ length pub = 66%nat /\
    encodePrivkey priv = Ok nsec /\ decodePrivkey nsec = Ok priv /\
    encodePubkey pub = Ok npub /\ decodePubkey npub = Ok pub.
Proof.
  intros Hr H.
  destruct (generated_key random fuel priv Hr H) as (bytes & Hl & Hg & Hk & ->).
  destruct (getPublicKey_bigint (val 8 bytes))
    as (pub & Hpub & Hlen & Hlow & _).
  assert (Hne : bytes <> []) by (intros ->; discriminate Hl).
  destruct (bytesToHex_props bytes Hg) as (Hl2 & Hh2 & _).
  destruct npub_units as [Hn1 Hn2], nsec_units as [Hs1 Hs2].
  destruct (roundtrip_any (lit "nsec") (bytesToHex bytes) Hs1 Hs2)
    as (w1 & Hw1 & _ & Hd1 & Hc1 & Hu1).
  destruct (roundtrip_any (lit "npub") pub Hn1 Hn2)
    as (w2 & Hw2 & _ & Hd2 & Hc2 & Hu2).
  exists (val 8 bytes), pub, (encode (lit "nsec") w1), (encode (lit "npub") w2).
  split; [exact Hk|]. split.
  { rewrite <- Hl, be_digits_val by (lia || exact Hg). reflexivity. }
  split.
  { unfold getPublicKey. rewrite bigIntOfHex_bytes by assumption. exact Hpub. }
  split; [exact Hpub|]. split; [exact Hlen|].
  unfold encodePrivkey, encodePubkey. rewrite Hw1, Hw2. cbn [bind].
  destruct (decode_key _ _ _ Hd1 Hc1 Hu1) as [_ Hp1].
  destruct (decode_key _ _ _ Hd2 Hc2 Hu2) as [Hp2 _].
  rewrite Hp1, Hp2.
  rewrite !bytesToHex_hexToBytes by assumption.
  rewrite !even_padEven; [repeat split; reflexivity| |].
  - rewrite Hlen. reflexivity.
  - rewrite Hl2, Hl. reflexivity.
Qed.

Lemma generated_key_pair_witness :
  let random := fun i : nat =>
    match i with
    | O => repeat 255 32
    | _ => repeat 0 31 ++ [7]
    end in
  exists pub, getPublicKey (KeyBigInt 7) = Ok pub /\ length pub = 66%nat.
Proof.
  intros random.
  assert (Hr : forall i, length (random i) = 32%nat /\ groups 8 (random i)).
  { intros [|i]; (split; [reflexivity|each_element]). }
  assert (H : generatePrivateKey random 3 = Ok (bytesToHex (random 1%nat)))
    by (vm_compute; reflexivity).
  destruct (generated_key_pair random 3 _ Hr H)
    as (k & pub & nsec & npub & Hk & Hp & _ & Hpub & Hlen & _).
  assert (E : k = 7).
  { apply (f_equal hexToBytes) in Hp.
    rewrite !hexToBytes_bytesToHex in Hp
      by (apply be_digits_groups; lia) || (apply Hr).
    apply (f_equal (val 8)) in Hp.
    rewrite val_be_digits, Z.mod_small in Hp by (unfold N in Hk; lia).
    rewrite <- Hp. vm_compute. reflexivity. }
  subst k. exists pub. split; assumption.
Defined.

End Flows.

Section Events.
Import JS Crypto.

Variable digest : list Z -> list Z.
Hypothesis digest_bytes :
  forall data, length (digest data) = 32%nat /\ groups 8 (digest data).
Variable now : Z.
Variable stringify :
  jsstring -> Z -> Z -> list (list jsstring) -> jsstring -> jsstring.

(** X20.  [generateK] raises on no pair of BigInts and returns a nonce of
    [[1, N - 1]], the digest of the two hexadecimal forms put end to end,
    reduced modulo [N], with [1] for [0].  The nonce depends on the pair
    through that concatenation only: two pairs with the same concatenation,
    as [(0x12, 0x3)] and [(0x1, 0x23)], get the same nonce. *)
Theorem generateK_range (privKey msgHash : Z) :
  (exists k,
      generateK digest privKey msgHash = Ok k /\ 1 <= k <= N - 1 /\
      k = nonce digest privKey msgHash) /\
  (forall privKey' msgHash',
      toString16 privKey ++ toString16 msgHash
      = toString16 privKey' ++ toString16 msgHash' ->
      generateK digest privKey msgHash = generateK digest privKey' msgHash').
Proof.
  split.
  - exists (nonce digest privKey msgHash).
    split; [apply generateK_nonce, digest_bytes|].
    split; [apply nonce_range|reflexivity].
  - intros privKey' msgHash' He.
    rewrite !generateK_nonce by apply digest_bytes.
    unfold nonce. rewrite He. reflexivity.
Qed.

(** X21.  [createEvent] with a key of [[1, N - 1]], in either of its
    forms: the event carries the 66 hexadecimal digits of the public key
    of that key, the seconds of the clock, as [id] the 64 lower-case
    hexadecimal digits of the digest of the serialized event, and as
    [sig] the signature [sign] gives for the bytes of that digest; it
    raises what [sign] raises, and returns no event then. *)
Theorem createEvent_signed
        (kind : Z) (content : jsstring) (tags : list (list jsstring))
        (privateKey : keyArg) (privKey : Z) :
  1 <= privKey <= N - 1 -> key_form privKey privateKey ->
  exists pubkey,
    getPublicKey (KeyBigInt privKey) = Ok pubkey /\
    length pubkey = 66%nat /\
    let created_at := now / 1000 in
    let hash := digest (utf8 (stringify pubkey created_at kind tags content)) in
    let id := bytesToHex hash in
    length id = 64%nat /\ Forall isLowerHex id /\ hexToBytes id = hash /\
    Nostr.createEvent digest now stringify kind content tags privateKey
    = (sig <- sign digest (KeyBigInt privKey) (HashBytes hash) ;;
       Ok {| Nostr.kind := kind; Nostr.created_at := created_at;
             Nostr.tags := tags; Nostr.content := content;
             Nostr.pubkey := pubkey; Nostr.id := id; Nostr.sig := sig |}).
Proof.
  intros Hk Hform.
  destruct (getPublicKey_bigint privKey) as (pubkey & Hpub & Hlen & _).
  exists pubkey. split; [exact Hpub|]. split; [exact Hlen|].
  intros created_at hash id.
  destruct (digest_bytes (utf8 (stringify pubkey created_at kind tags content)))
    as [Hl Hg]. fold hash in Hl, Hg.
  destruct (bytesToHex_props hash Hg) as (Hl2 & Hh2 & _).
  split; [unfold id; rewrite Hl2, Hl; reflexivity|].
  split; [exact Hh2|]. split; [apply hexToBytes_bytesToHex, Hg|].
  pose proof (key_form_value privKey privateKey Hk Hform) as Hv.
  unfold Nostr.createEvent, getPublicKey, sign in *.
  rewrite Hv. cbn [bind] in *. injection Hpub as Hpub. rewrite Hpub.
  reflexivity.
Qed.

End Events.

Lemma createEvent_signed_witness :
  let digest := fun _ : list Z => repeat 0 31 ++ [1] in
  let stringify :=
    fun (pubkey : JS.jsstring) (_ _ : Z) (_ : list (list JS.jsstring))
        (content : JS.jsstring) => pubkey ++ content in
  exists pubkey,
    Crypto.getPublicKey (Crypto.KeyBigInt 3) = Ok pubkey /\
    length pubkey = 66%nat.
Proof.
  intros digest stringify.
  destruct (createEvent_signed digest
              ltac:(intros data; split; [reflexivity|unfold digest; each_element])
              1700000000000 stringify 1 (JS.lit "hello") []
              (Crypto.KeyBigInt 3) 3
              ltac:(unfold Crypto.N; lia) (or_introl eq_refl))
    as (pubkey & H1 & H2 & _).
  exists pubkey. split; assumption.
Defined.

Lemma generateK_range_witness :
  let digest := fun _ : list Z => repeat 0 31 ++ [1] in
  Crypto.generateK digest 0x12 0x3 = Crypto.generateK digest 0x1 0x23.
Proof.
  intros digest.
  apply (generateK_range digest
           ltac:(intros data; split; [reflexivity|unfold digest; each_element])
           0x12 0x3).
  reflexivity.
Defined.

Section SignOutput.
Import JS Crypto.

Variable digest : list Z -> list Z.

(** X24.  Whatever [sign] returns is a signature in due form, for every
    key, every digest and every hash function: 128 lower-case hexadecimal
    digits, the 32 big-endian bytes of an [r] and those of an [s] that are
    both in [[1, N - 1]].  [sign] does not check the range of the key. *)
Theorem sign_output
        (privateKey : keyArg) (messageHash : hashArg) (sig : jsstring) :
  sign digest privateKey messageHash = Ok sig ->
  exists r s,
    1 <= r <= N - 1 /\ 1 <= s <= N - 1 /\
    sig = bytesToHex (be_digits 8 32 r) ++ bytesToHex (be_digits 8 32 s) /\
    length sig = 128%nat /\ Forall isLowerHex sig.
Proof.
  intros H. unfold sign in H.
  destruct (match privateKey with
            | KeyString hex => bigIntOfHex hex
            | KeyBigInt k => Ok k
            end) as [privKey| |]; try discriminate H.
  cbn [bind] in H.
  destruct (match messageHash with
            | HashString hex => bigIntOfHex hex
            | HashBytes bytes => bytesToBigInt bytes
            end) as [msgHash| |]; try discriminate H.
  cbn [bind] in H.
  destruct (generateK digest privKey msgHash) as [k| |]; try discriminate H.
  cbn [bind] in H.
  destruct (pointMultiply k G) as [[Rx Ry]|] eqn:HR; [|discriminate H].
  pose proof (reduced_pointMultiply _ _ _ HR) as HRx.
  pose proof N_pos as HN. pose proof N_below_2_256 as HN2.
  rewrite Z.rem_mod_nonneg in H by lia. cbv zeta in H.
  rewrite mod_spec in H by exact HN.
  pose proof (Z.mod_pos_bound Rx N HN) as Hr.
  pose proof (Z.mod_pos_bound ((msgHash + Rx mod N * privKey) * modInverse k N)
                              N HN) as Hs.
  revert H Hr Hs. generalize (Rx mod N). intros r.
  generalize (((msgHash + r * privKey) * modInverse k N) mod N).
  intros s H Hr Hs.
  destruct (r =? 0) eqn:Hr0; [discriminate H|]. apply Z.eqb_neq in Hr0.
  destruct (s =? 0) eqn:Hs0; [discriminate H|]. apply Z.eqb_neq in Hs0.
  injection H as <-.
  assert (Hhex : forall n, 0 <= n < N ->
                   padStart 64 (toString16 n) = bytesToHex (be_digits 8 32 n)).
  { intros n Hn. apply (padStart_bytes 32); [lia|].
    change (256 ^ Z.of_nat 32) with (2 ^ 256). lia. }
  rewrite !Hhex by lia.
  assert (Hg : forall n, groups 8 (be_digits 8 32 n))
    by (intros n; apply be_digits_groups; lia).
  destruct (bytesToHex_props _ (Hg r)) as (Hl1 & Hh1 & _).
  destruct (bytesToHex_props _ (Hg s)) as (Hl2 & Hh2 & _).
  rewrite be_digits_length in Hl1, Hl2.
  exists r, s. split; [lia|]. split; [lia|]. split; [reflexivity|].
  split; [rewrite length_app, Hl1, Hl2; reflexivity|].
  apply Forall_app. split; assumption.
Qed.

End SignOutput.

Lemma sign_output_witness :
  let digest := fun _ : list Z => repeat 0 31 ++ [1] in
  exists sig r s,
    Crypto.sign digest (Crypto.KeyBigInt 3)
                (Crypto.HashBytes (repeat 0 31 ++ [5])) = Ok sig /\
    1 <= r <= Crypto.N - 1 /\ 1 <= s <= Crypto.N - 1 /\ length sig = 128%nat.
Proof.
  intros digest.
  destruct (Crypto.sign digest (Crypto.KeyBigInt 3)
                        (Crypto.HashBytes (repeat 0 31 ++ [5])))
    as [sig| |] eqn:E; [|vm_compute in E; discriminate E..].
  destruct (sign_output digest _ _ sig E) as (r & s & Hr & Hs & _ & Hl & _).
  exists sig, r, s. repeat split; try exact Hl; lia.
Defined.

(** ** The loop of [AsciiDoc.parse] *)

Section ParseLoop.
Import JS AsciiDoc.

Variable escapeHtml : jsstring -> jsstring.
Variable parseInline : jsstring -> jsstring.

Lemma startsWith_cons c p s :
  startsWith (c :: p) s = true -> exists t, s = c :: t.
Proof.
  destruct s as [|b t]; [discriminate|]. cbn [startsWith].
  intros H. apply andb_prop in H as [H _]. apply Z.eqb_eq in H. subst b.
  exists t. reflexivity.
Qed.

Lemma admonitionPrefix_in types s :
  isSome (admonitionPrefix types s) = true ->
  exists type lower,
    In (type, lower) types /\ startsWith (type ++ lit ":") s = true.
Proof.
  induction types as [|[type lower] more IH]; [discriminate|].
  cbn [admonitionPrefix].
  destruct (startsWith (type ++ lit ":") s) eqn:E.
  - intros _. exists type, lower. split; [left; reflexivity|exact E].
  - intros H. destruct (IH H) as (t & l & Hin & Hs).
    exists t, l. split; [right; exact Hin|exact Hs].
Qed.

(** The first unit of a line with an admonition type. *)
Lemma admonitionPrefix_first s :
  isSome (admonitionPrefix admonitionTypes s) = true ->
  exists c t, s = c :: t /\ In c [78; 84; 73; 87; 67].
Proof.
  intros H. apply admonitionPrefix_in in H as (type & lower & Hin & Hs).
  unfold admonitionTypes in Hin. simpl In in Hin.
  destruct Hin as [E|[E|[E|[E|[E|[]]]]]]; injection E as <- _.
  - apply (startsWith_cons 78 (lit "OTE:")) in Hs as [t ->].
    exists 78, t. split; [reflexivity|simpl; tauto].
  - apply (startsWith_cons 84 (lit "IP:")) in Hs as [t ->].
    exists 84, t. split; [reflexivity|simpl; tauto].
  - apply (startsWith_cons 73 (lit "MPORTANT:")) in Hs as [t ->].
    exists 73, t. split; [reflexivity|simpl; tauto].
  - apply (startsWith_cons 87 (lit "ARNING:")) in Hs as [t ->].
    exists 87, t. split; [reflexivity|simpl; tauto].
  - apply (startsWith_cons 67 (lit "AUTION:")) in Hs as [t ->].
    exists 67, t. split; [reflexivity|simpl; tauto].
Qed.

(** The conditions of [parse] that a line with such a first unit fails. *)
Lemma other_branches c t :
  In c [61; 78; 84; 73; 87; 67] ->
  let s := c :: t in
  startsWith (lit "* ") s || startsWith (lit "- ") s = false /\
  orderedRest s = None /\
  startsWith (lit "----") s = false /\
  startsWith (lit "[source") s = false /\
  startsWith (lit "____") s = false /\
  startsWith (lit "****") s = false /\
  sameString s rule = false /\
  startsWith (lit "|===") s = false /\
  sameString s [] = false.
Proof.
  intros H s. unfold s. simpl in H.
  repeat (destruct H as [<-|H]; [repeat split; reflexivity|]).
  destruct H.
Qed.

(** On a stuck line a turn of the loop pushes nothing and leaves the
    index where it is. *)
Lemma parseStep_stuck line rest :
  stuck line = true ->
  parseStep escapeHtml parseInline line rest = ([], line :: rest).
Proof.
  unfold stuck. cbv zeta. intros H.
  assert (Hblock : isBlockElement line = true).
  { unfold isBlockElement. cbv zeta.
    apply orb_prop in H as [H|H]; apply andb_prop in H as [H _].
    - rewrite H. reflexivity.
    - rewrite H. apply orb_true_r. }
  assert (Hpar : paragraphLines (line :: rest) = ([], line :: rest)).
  { cbn [paragraphLines]. rewrite Hblock, andb_false_r. reflexivity. }
  unfold parseStep. cbv zeta. rewrite Hpar.
  remember (trim line) as s eqn:Es. clear Es Hblock Hpar.
  assert (Hshape : exists c t,
             s = c :: t /\ In c [61; 78; 84; 73; 87; 67] /\
             startsWith (lit "= ") s = false /\
             startsWith (lit "==== ") s = false /\
             startsWith (lit "=== ") s = false /\
             startsWith (lit "== ") s = false /\
             admonitionMatch s = None).
  { apply orb_prop in H as [H|H]; apply andb_prop in H as [H1 H2];
      apply negb_true_iff in H2.
    - apply orb_false_iff in H2 as [H2 Hd]. apply orb_false_iff in H2 as [H2 Hc].
      apply orb_false_iff in H2 as [Ha Hb].
      destruct (startsWith_cons _ _ _ H1) as [t ->].
      exists 61, t. repeat split; try assumption. simpl; tauto.
    - destruct (admonitionPrefix_first s H1) as (c & t & -> & Hc).
      exists c, t.
      assert (Hm : admonitionMatch (c :: t) = None)
        by (destruct (admonitionMatch (c :: t)); [discriminate H2|reflexivity]).
      split; [reflexivity|]. split; [simpl in *; tauto|].
      simpl in Hc.
      repeat (destruct Hc as [<-|Hc]; [repeat split; (reflexivity || exact Hm)|]).
      destruct Hc. }
  destruct Hshape as (c & t & -> & Hc & H1 & H2 & H3 & H4 & Hm).
  destruct (other_branches c t Hc)
    as (B1 & B2 & B3 & B4 & B5 & B6 & B7 & B8 & B9).
  rewrite H1, H2, H3, H4, B1, B2, B3, B4, B5, B6, Hm, B7, B8, B9.
  reflexivity.
Qed.

Lemma parseLoop_stuck fuel line rest html :
  stuck line = true ->
  parseLoop escapeHtml parseInline fuel (line :: rest) html = Hang.
Proof.
  intros H. induction fuel as [|fuel IH]; [reflexivity|].
  cbn [parseLoop]. rewrite parseStep_stuck by exact H.
  rewrite app_nil_r. exact IH.
Qed.

(** The loop goes over blank lines. *)
Lemma parseLoop_blank fuel line rest html :
  trim line = [] ->
  parseLoop escapeHtml parseInline (S fuel) (line :: rest) html
  = parseLoop escapeHtml parseInline fuel rest html.
Proof.
  intros H. cbn [parseLoop]. unfold parseStep. cbv zeta. rewrite H.
  cbn. rewrite app_nil_r. reflexivity.
Qed.

(** *** Progress on the other lines *)

Lemma tl_skipn {A} k (l : list A) : tl (skipn k l) = skipn (S k) l.
Proof.
  revert l. induction k as [|k IH]; intros l; [destruct l; reflexivity|].
  destruct l as [|x r]; [reflexivity|]. cbn [skipn]. rewrite IH.
  destruct r; reflexivity.
Qed.

Lemma unorderedItems_suffix lines :
  exists k, snd (unorderedItems parseInline lines) = skipn k lines.
Proof.
  induction lines as [|line rest [k IH]]; [exists 0%nat; reflexivity|].
  cbn [unorderedItems]. cbv zeta.
  destruct (startsWith (lit "* ") (trim line)
            || startsWith (lit "- ") (trim line)); [|exists 0%nat; reflexivity].
  destruct (unorderedItems parseInline rest) as [items after].
  exists (S k). exact IH.
Qed.

Lemma orderedItems_suffix lines :
  exists k, snd (orderedItems parseInline lines) = skipn k lines.
Proof.
  induction lines as [|line rest [k IH]]; [exists 0%nat; reflexivity|].
  cbn [orderedItems].
  destruct (orderedRest (trim line)); [|exists 0%nat; reflexivity].
  destruct (orderedItems parseInline rest) as [items after].
  exists (S k). exact IH.
Qed.

Lemma blockLines_suffix fence keep f lines :
  exists k, snd (blockLines fence keep f lines) = skipn k lines.
Proof.
  induction lines as [|line rest [k IH]]; [exists 0%nat; reflexivity|].
  cbn [blockLines].
  destruct (startsWith fence (trim line)); [exists 0%nat; reflexivity|].
  destruct (blockLines fence keep f rest) as [body after].
  exists (S k). exact IH.
Qed.

Lemma paragraphLines_suffix lines :
  exists k, snd (paragraphLines lines) = skipn k lines.
Proof.
  induction lines as [|line rest [k IH]]; [exists 0%nat; reflexivity|].
  cbn [paragraphLines].
  destruct (nonEmpty (trim line) && negb (isBlockElement line));
    [|exists 0%nat; reflexivity].
  destruct (paragraphLines rest) as [body after].
  exists (S k). exact IH.
Qed.

Lemma block_progress fence keep f rest (g : list jsstring -> list jsstring) :
  exists k,
    snd (let '(body, after) := blockLines fence keep f rest in
         (g body, tl after)) = skipn k rest.
Proof.
  destruct (blockLines_suffix fence keep f rest) as [k Hk].
  destruct (blockLines fence keep f rest) as [body after].
  cbn [snd] in *. exists (S k). rewrite Hk. apply tl_skipn.
Qed.

(** On a line that is not stuck a turn of the loop moves the index
    forward. *)
Lemma parseStep_progress line rest :
  stuck line = false ->
  exists k, snd (parseStep escapeHtml parseInline line rest) = skipn k rest.
Proof.
  unfold stuck. cbv zeta. intros H.
  apply orb_false_iff in H as [Hs1 Hs2].
  unfold parseStep. cbv zeta.
  pose proof (eq_refl (isBlockElement line)) as Hb.
  unfold isBlockElement at 1 in Hb. cbv zeta in Hb.
  assert (Hpar : forall body after,
             paragraphLines (line :: rest) = (body, after) ->
             nonEmpty (trim line) && negb (isBlockElement line) = true ->
             exists k, after = skipn k rest).
  { intros body after E Hc. cbn [paragraphLines] in E. rewrite Hc in E.
    destruct (paragraphLines_suffix rest) as [k Hk].
    destruct (paragraphLines rest) as [b a]. injection E as _ <-.
    exists k. exact Hk. }
  assert (Hul : forall items after,
             unorderedItems parseInline (line :: rest) = (items, after) ->
             startsWith (lit "* ") (trim line)
             || startsWith (lit "- ") (trim line) = true ->
             exists k, after = skipn k rest).
  { intros items after E Hc. cbn [unorderedItems] in E. cbv zeta in E.
    rewrite Hc in E.
    destruct (unorderedItems_suffix rest) as [k Hk].
    destruct (unorderedItems parseInline rest) as [b a]. injection E as _ <-.
    exists k. exact Hk. }
  assert (Hol : forall items after item,
             orderedItems parseInline (line :: rest) = (items, after) ->
             orderedRest (trim line) = Some item ->
             exists k, after = skipn k rest).
  { intros items after item E Hc. cbn [orderedItems] in E. rewrite Hc in E.
    destruct (orderedItems_suffix rest) as [k Hk].
    destruct (orderedItems parseInline rest) as [b a]. injection E as _ <-.
    exists k. exact Hk. }
  remember (trim line) as s eqn:Es. clear Es.
  destruct (startsWith (lit "= ") s) eqn:H1; [exists 0%nat; reflexivity|].
  destruct (startsWith (lit "==== ") s) eqn:H2; [exists 0%nat; reflexivity|].
  destruct (startsWith (lit "=== ") s) eqn:H3; [exists 0%nat; reflexivity|].
  destruct (startsWith (lit "== ") s) eqn:H4; [exists 0%nat; reflexivity|].
  cbn [orb negb] in Hs1. rewrite andb_true_r in Hs1.
  destruct (startsWith (lit "* ") s || startsWith (lit "- ") s) eqn:H5.
  { destruct (unorderedItems parseInline (line :: rest)) as [items after] eqn:E.
    exact (Hul _ _ eq_refl eq_refl). }
  destruct (orderedRest s) as [item|] eqn:H6; cbn [isSome].
  { destruct (orderedItems parseInline (line :: rest)) as [items after] eqn:E.
    exact (Hol _ _ _ eq_refl eq_refl). }
  destruct (startsWith (lit "----") s) eqn:H7; [apply block_progress|].
  destruct (startsWith (lit "[source") s) eqn:H8.
  { destruct rest as [|next rest']; [exists 0%nat; reflexivity|].
    destruct (startsWith (lit "----") (trim next)); [|exists 0%nat; reflexivity].
    destruct (block_progress (lit "----") always escapeHtml rest'
                (fun body =>
                   [lit "<pre><code class=" ++ [34] ++ lit "language-"
                    ++ sourceLang s ++ [34] ++ lit ">" ++ join [10] body
                    ++ lit "</code></pre>"])) as [k Hk].
    exists (S k). exact Hk. }
  destruct (startsWith (lit "____") s) eqn:H9; [apply block_progress|].
  destruct (startsWith (lit "****") s) eqn:H10; [apply block_progress|].
  destruct (admonitionMatch s) as [[[type lower] content]|] eqn:H11;
    [exists 0%nat; reflexivity|].
  cbn [isSome negb] in Hs2. rewrite andb_true_r in Hs2.
  destruct (sameString s rule) eqn:H12; [exists 0%nat; reflexivity|].
  destruct (startsWith (lit "|===") s) eqn:H13; [apply block_progress|].
  destruct (sameString s []) eqn:H14; [exists 0%nat; reflexivity|].
  apply orb_false_iff in H5 as [H5a H5b].
  rewrite ?Hs1, ?H5a, ?H5b, ?H6, ?H7, ?H8, ?H9, ?H10, ?H13, ?H12, ?Hs2 in Hb.
  cbn [orb isSome] in Hb.
  destruct (paragraphLines (line :: rest)) as [body after] eqn:E.
  apply (Hpar body after eq_refl). rewrite <- Hb.
  destruct s; [discriminate H14|reflexivity].
Qed.

Lemma Forall_skipn {A} (Q : A -> Prop) k (l : list A) :
  Forall Q l -> Forall Q (skipn k l).
Proof.
  revert l. induction k as [|k IH]; intros l H; [exact H|].
  destruct l as [|x r]; [exact H|]. inversion H; subst. apply IH. assumption.
Qed.

Lemma length_skipn_le {A} k (l : list A) : (length (skipn k l) <= length l)%nat.
Proof. rewrite length_skipn. lia. Qed.

Lemma parseLoop_returns fuel :
  forall lines html,
    (length lines <= fuel)%nat ->
    Forall (fun line => stuck line = false) lines ->
    exists result, parseLoop escapeHtml parseInline fuel lines html = Ok result.
Proof.
  induction fuel as [|fuel IH]; intros lines html Hlen Hall.
  - destruct lines; [exists html; reflexivity|simpl in Hlen; lia].
  - destruct lines as [|line rest]; [exists html; reflexivity|].
    inversion Hall as [|? ? Hline Hrest]; subst.
    cbn [parseLoop].
    destruct (parseStep_progress line rest Hline) as [k Hk].
    destruct (parseStep escapeHtml parseInline line rest) as [pushed after].
    cbn [snd] in Hk. subst after. apply IH.
    + pose proof (length_skipn_le k rest). simpl in Hlen. lia.
    + apply Forall_skipn. exact Hrest.
Qed.

Lemma parseLoop_more fuel :
  forall lines html result,
    parseLoop escapeHtml parseInline fuel lines html = Ok result ->
    forall fuel', (fuel <= fuel')%nat ->
    parseLoop escapeHtml parseInline fuel' lines html = Ok result.
Proof.
  induction fuel as [|fuel IH]; intros lines html result H fuel' Hle.
  - destruct lines; [|discriminate H]. destruct fuel'; exact H.
  - destruct lines as [|line rest]; [destruct fuel'; exact H|].
    destruct fuel' as [|fuel']; [lia|]. cbn [parseLoop] in *.
    destruct (parseStep escapeHtml parseInline line rest) as [pushed after].
    apply IH; [exact H|lia].
Qed.

End ParseLoop.

Section ParseTheorems.
Import JS AsciiDoc.

(** X22.  [parse] never returns on a text that has, after blank lines
    only, a line that starts with ['='] but with none of the headings
    ["= "], ["== "], ["=== "], ["==== "], or that starts with an admonition
    type and its colon but has no content on one line after them: the
    loop takes such a line for the start of a block, pushes nothing and
    leaves the index where it is, whatever the number of turns. *)
Theorem parse_hangs
        (escapeHtml parseInline : jsstring -> jsstring)
        (fuel : nat) (text : jsstring) (blank : list jsstring)
        (line : jsstring) (rest : list jsstring) :
  split 10 text = blank ++ line :: rest ->
  Forall (fun l => trim l = []) blank ->
  stuck line = true ->
  parse escapeHtml parseInline fuel text = Hang.
Proof.
  intros Hs Hb Hl. unfold parse. rewrite Hs. clear Hs.
  assert (H : forall html,
             parseLoop escapeHtml parseInline fuel (blank ++ line :: rest) html
             = Hang).
  { revert fuel. induction Hb as [|b r Hb _ IH]; intros fuel html.
    - apply parseLoop_stuck, Hl.
    - destruct fuel as [|fuel]; [reflexivity|].
      cbn [app]. rewrite parseLoop_blank by exact Hb. apply IH. }
  rewrite H. reflexivity.
Qed.

Lemma parse_hangs_witness :
  parse (fun s => s) (fun s => s) 1000 (lit "=Title") = Hang.
Proof.
  apply (parse_hangs (fun s => s) (fun s => s) 1000 (lit "=Title")
                     [] (lit "=Title") []).
  - reflexivity.
  - constructor.
  - reflexivity.
Defined.

(** X23.  [parse] returns on every text none of whose lines is such a
    line: one turn of the loop for each line is enough, every turn moves
    the index forward, and more turns give the same result. *)
Theorem parse_returns
        (escapeHtml parseInline : jsstring -> jsstring) (text : jsstring) :
  Forall (fun line => stuck line = false) (split 10 text) ->
  exists html,
    forall fuel,
      (length (split 10 text) <= fuel)%nat ->
      parse escapeHtml parseInline fuel text = Ok html.
Proof.
  intros Hall.
  destruct (parseLoop_returns escapeHtml parseInline
              (length (split 10 text)) (split 10 text) [] (le_n _) Hall)
    as [result Hr].
  exists (join [10] result). intros fuel Hf. unfold parse.
  rewrite (parseLoop_more escapeHtml parseInline _ _ _ _ Hr fuel Hf).
  reflexivity.
Qed.

Lemma parse_returns_witness :
  exists html,
    forall fuel,
      (length (split 10 (lit "= Title")) <= fuel)%nat ->
      parse (fun s => s) (fun s => s) fuel (lit "= Title") = Ok html.
Proof.
  apply (parse_returns (fun s => s) (fun s => s) (lit "= Title")).
  repeat constructor.
Defined.

End ParseTheorems.
(** ** The group of the curve and the public keys *)

Section GroupTheorems.
Import JS Crypto.

(** The compressed form determines the point. *)
Lemma encodePoint_inj (A B : point) :
  valid_point A -> valid_point B -> encodePoint A = encodePoint B -> A = B.
Proof.
  pose proof P_below_2_256 as HP.
  intros [HrA HcA] [HrB HcB].
  destruct A as [[x1 y1]|], B as [[x2 y2]|]; try reflexivity.
  - destruct HrA as [Hx1 Hy1], HrB as [Hx2 Hy2].
    rewrite !encodePoint_finite by lia. intros He.
    apply cons_inj in He as [Hpar Hx].
    apply be_digits_inj in Hx; [|simpl Z.of_nat; lia..]. subst x2.
    destruct (ordinates x1 y1 y2 Hy1 Hy2 HcA HcB) as [->|Hsum];
      [reflexivity|exfalso].
    rewrite !Zeven_mod in Hpar.
    pose proof (Z.div_mod y1 2 ltac:(lia)).
    pose proof (Z.div_mod y2 2 ltac:(lia)).
    pose proof (Z.mod_pos_bound y1 2 ltac:(lia)).
    pose proof (Z.mod_pos_bound y2 2 ltac:(lia)).
    unfold P in Hsum.
    destruct (Z.eqb_spec (y1 mod 2) 0), (Z.eqb_spec (y2 mod 2) 0);
      try discriminate Hpar; lia.
  - destruct HrA as [Hx1 _]. rewrite encodePoint_finite by lia.
    destruct (Z.even y1); discriminate.
  - destruct HrB as [Hx2 _]. rewrite encodePoint_finite by lia.
    destruct (Z.even y2); discriminate.
Qed.

(** X25.  The valid points (the point at infinity and the pairs of field
    elements on the curve) form a group under [pointAdd]: addition is
    associative, the opposite of a finite point [(x, y)] is the valid point
    [(x, P - y)], whose sum with it is the point at infinity, and a point
    added on the left can be cancelled. *)
Theorem pointAdd_group (A B C : point) :
  valid_point A -> valid_point B -> valid_point C ->
  pointAdd (pointAdd A B) C = pointAdd A (pointAdd B C) /\
  match A with
  | None => True
  | Some (x, y) =>
      valid_point (Some (x, P - y)) /\
      pointAdd A (Some (x, P - y)) = None /\
      pointAdd (Some (x, P - y)) (pointAdd A B) = B
  end /\
  (pointAdd A B = pointAdd A C -> B = C).
Proof.
  intros HA HB HC. split; [apply pointAdd_assoc; assumption|]. split.
  - destruct A as [[x y]|]; [|exact I].
    destruct (pointAdd_opposite x y HA) as [Hv Ho].
    split; [exact Hv|]. split; [exact Ho|].
    rewrite <- pointAdd_assoc by assumption.
    rewrite (pointAdd_comm (Some (x, P - y)) (Some (x, y)))
      by (first [apply Hv|apply HA]).
    rewrite Ho. reflexivity.
  - apply pointAdd_cancel; assumption.
Qed.

Lemma pointAdd_group_witness :
  pointAdd (pointAdd G G) G = pointAdd G (pointAdd G G) /\
  pointAdd G (Some (Gx, P - Gy)) = None /\
  pointAdd (Some (Gx, P - Gy)) (pointAdd G G) = G.
Proof.
  destruct (pointAdd_group G G G G_valid G_valid G_valid) as (H1 & H2 & _).
  split; [exact H1|]. exact (proj2 H2).
Defined.

(** X26.  [pointMultiply(k, p)] is the sum of [k] copies of a valid point
    [p] for every [k >= 0], the point at infinity for [k <= 0]; it turns
    sums of non-negative scalars into sums of points and products into
    repeated multiplication. *)
Theorem pointMultiply_sum (a c : Z) (p : point) :
  valid_point p -> 0 <= a -> 0 <= c ->
  pointMultiply a p = times (Z.to_nat a) p /\
  pointMultiply (- a) p = None /\
  pointMultiply (a + c) p = pointAdd (pointMultiply a p) (pointMultiply c p) /\
  pointMultiply (a * c) p = pointMultiply a (pointMultiply c p).
Proof.
  intros Hp Ha Hc.
  pose proof (pointMultiply_valid c p Hp) as Hv.
  split; [apply pointMultiply_times, Hp|].
  split; [apply pointMultiply_nonpositive; lia|]. split.
  - rewrite !pointMultiply_times by exact Hp.
    rewrite times_add by exact Hp. f_equal. lia.
  - rewrite (pointMultiply_times a) by exact Hv.
    rewrite !pointMultiply_times by exact Hp.
    rewrite times_mul by exact Hp. f_equal. lia.
Qed.

Lemma pointMultiply_sum_witness :
  pointMultiply 5 G = pointAdd (pointMultiply 2 G) (pointMultiply 3 G) /\
  pointMultiply 6 G = pointMultiply 2 (pointMultiply 3 G).
Proof.
  destruct (pointMultiply_sum 2 3 G G_valid ltac:(lia) ltac:(lia))
    as (_ & _ & H1 & H2).
  split; [exact H1|exact H2].
Defined.

(** X27.  Every private key of [[1, N - 1]] has a public key that is the
    compressed form of a finite point of the curve, never the fallback of
    66 zeros, and two different private keys of [[1, N - 1]] have
    different points and different public keys. *)
Theorem public_keys_distinct (k1 k2 : Z) :
  1 <= k1 <= N - 1 -> 1 <= k2 <= N - 1 ->
  (exists x y,
      pointMultiply k1 G = Some (x, y) /\
      valid_point (Some (x, y)) /\
      getPublicKey (KeyBigInt k1)
      = Ok ((if Z.even y then lit "02" else lit "03")
            ++ bytesToHex (be_digits 8 32 x))) /\
  (pointMultiply k1 G = pointMultiply k2 G -> k1 = k2) /\
  (getPublicKey (KeyBigInt k1) = getPublicKey (KeyBigInt k2) -> k1 = k2).
Proof.
  intros H1 H2.
  destruct (getPublicKey_bigint k1) as (pub1 & Hp1 & _ & _ & He1 & Hm1).
  destruct (getPublicKey_bigint k2) as (pub2 & Hp2 & _ & _ & He2 & _).
  split; [|split].
  - destruct (pointMultiply k1 G) as [[x y]|] eqn:HR.
    + exists x, y. destruct Hm1 as [Hv ->]. repeat split; try apply Hv.
      exact Hp1.
    + exfalso. apply (pointMultiply_finite k1 H1). exact HR.
  - apply pointMultiply_inj; assumption.
  - rewrite Hp1, Hp2. intros E. injection E as E. subst pub2.
    apply pointMultiply_inj; [assumption|assumption|].
    apply encodePoint_inj; [apply pointMultiply_valid, G_valid..|].
    rewrite <- He1, <- He2. reflexivity.
Qed.

Lemma public_keys_distinct_witness :
  (exists x y, pointMultiply 1 G = Some (x, y) /\ valid_point (Some (x, y))) /\
  (getPublicKey (KeyBigInt 1) = getPublicKey (KeyBigInt 2) -> 1 = 2).
Proof.
  assert (Hk1 : 1 <= 1 <= N - 1) by (vm_compute; split; discriminate).
  assert (Hk2 : 1 <= 2 <= N - 1) by (vm_compute; split; discriminate).
  destruct (public_keys_distinct 1 2 Hk1 Hk2) as ((x & y & HR & Hv & _) & _ & H).
  split; [exists x, y; split; assumption|exact H].
Defined.

End GroupTheorems.
